(** * New Token Scanner and chapter splitter

    A shallow embedding of [new_token_scanner.py] (the EVM contract-creation
    scanner: store, probe, exporter and polling loop) and of
    [file_utils.py] (the chapter splitter), with the properties the
    specification states about them.

    Conventions of the embedding:
    - Python [int] is [Z]; Python [str] is [string] (one [ascii] for each
      character below U+0100); [None]-able values are [option].
    - An operation that may raise returns [Exc]; [try]/[except] is
      [try_except].
    - The RPC endpoint, the clock, the SQLite table, the files written and
      the console are threaded through a state-and-exception monad [M].
    - The SQLite engine, the file system and the console are taken to be
      reliable: a statement, a write or a [print] that the source issues
      succeeds. Reading a text file and every remote call may fail.
    - Library calls are embedded where they are small ([str.lower],
      [json.dumps], the patterns of [re] in use) and are fields of an
      interface otherwise ([Web3], [Clock], [FileIO]). *)

From Stdlib Require Import ZArith List String Ascii Bool Lia DecimalString Sorted.
From stdpp Require Import gmap strings.
Import ListNotations.
Open Scope Z_scope.

(** ** Python built-ins used by the sources *)

Module Py.

(** [str.lower] on one character (Latin-1 range). *)
Definition lower_char (c : ascii) : ascii :=
  let n := N_of_ascii c in
  if ((65 <=? n) && (n <=? 90))%N
     || ((192 <=? n) && (n <=? 222) && negb (n =? 215))%N
  then ascii_of_N (n + 32) else c.

Fixpoint lower (s : string) : string :=
  match s with
  | EmptyString => EmptyString
  | String c r => String (lower_char c) (lower r)
  end.

(** [str(n)] for an [int]. *)
Definition str_int (z : Z) : string := NilZero.string_of_int (Z.to_int z).

(** Truth value of a [str]-or-[None]. *)
Definition truthy (o : option string) : bool :=
  match o with
  | Some (String _ _) => true
  | _ => false
  end.

(** [any(l)] *)
Definition any (l : list bool) : bool := existsb (fun b => b) l.

(** [range(a, b)] *)
Definition range (a b : Z) : list Z :=
  map (fun i => a + Z.of_nat i) (seq 0 (Z.to_nat (b - a))).

(** [sep.join(l)] *)
Definition join (sep : string) (l : list string) : string := String.concat sep l.

End Py.

(** ** Exceptions *)

Inductive ExnKind :=
| BadFunctionCallOutput
| ContractLogicError
| ValueError
| OtherError.

(** An exception object; [exn_msg] is what [str(e)] gives. *)
Record Exn := mkExn { exn_kind : ExnKind; exn_msg : string }.

Inductive Exc (A : Type) :=
| Ok (a : A)
| Raise (e : Exn).
Arguments Ok {A} a.
Arguments Raise {A} e.

(** ** JSON values of the auxiliary attribute bag *)

Inductive JVal :=
| JStr (s : string)
| JInt (z : Z).

Module Json.

(** The double-quote character, as a string. *)
Definition dquote : string := String (ascii_of_N 34) EmptyString.

Definition hex_digit (n : N) : ascii :=
  if (n <? 10)%N then ascii_of_N (48 + n) else ascii_of_N (87 + n).

(** The escape of one character under [ensure_ascii=True]. *)
Definition escape_char (c : ascii) : string :=
  let n := N_of_ascii c in
  if (n =? 34)%N then "\" +:+ dquote
  else if (n =? 92)%N then "\\"
  else if (n =? 10)%N then "\n"
  else if (n =? 13)%N then "\r"
  else if (n =? 9)%N then "\t"
  else if (n =? 8)%N then "\b"
  else if (n =? 12)%N then "\f"
  else if ((32 <=? n) && (n <=? 126))%N then String c EmptyString
  else "\u00" +:+ String (hex_digit (n / 16)) (String (hex_digit (n mod 16)) EmptyString).

Fixpoint escape (s : string) : string :=
  match s with
  | EmptyString => EmptyString
  | String c r => escape_char c +:+ escape r
  end.

Definition quote (s : string) : string := dquote +:+ escape s +:+ dquote.

Definition dumps_val (v : JVal) : string :=
  match v with
  | JStr s => quote s
  | JInt z => Py.str_int z
  end.

(** [json.dumps(d)] for a flat dictionary, keys in insertion order. *)
Definition dumps (d : list (string * JVal)) : string :=
  "{" +:+ Py.join ", " (map (fun kv => quote (fst kv) +:+ ": " +:+ dumps_val (snd kv)) d) +:+ "}".

End Json.

(** ** Chain data, as the RPC client library hands it over *)

(** A transaction of a block fetched with [full_transactions=True].
    [tx_to] is the attribute access [tx.to], which may itself raise. *)
Record Tx := mkTx { tx_to : Exc (option string); tx_hash : string }.

Record Block := mkBlock { transactions : list Tx; timestamp : Z }.

(** A receipt, seen through the two accesses the scanner tries:
    [getattr(receipt, "contract_address", None)] and, when the object has a
    [get] method, [receipt.get("contractAddress")]. *)
Record Receipt := mkReceipt {
  attr_contract_address : Exc (option string);
  has_get : bool;
  get_contractAddress : Exc (option string)
}.

(** A log entry; only the number of entries is looked at. *)
Definition Log := string.

(** The four read-only functions of [ERC20_MIN_ABI] (entries 0 to 3; entry 4
    is the [Transfer] event). A call site always passes a function name
    together with its own fragment, so one value stands for the pair. *)
Inductive ErcFn := FnName | FnSymbol | FnDecimals | FnTotalSupply.

Definition fn_name (f : ErcFn) : string :=
  match f with
  | FnName => "name"
  | FnSymbol => "symbol"
  | FnDecimals => "decimals"
  | FnTotalSupply => "totalSupply"
  end.

(** The Python type the ABI decoder returns for the fragment's output:
    [string] gives [str], [uint8] and [uint256] give [int]. *)
Definition fn_val (f : ErcFn) : Type :=
  match f with
  | FnName | FnSymbol => string
  | FnDecimals | FnTotalSupply => Z
  end.

Definition TRANSFER_EVENT_SIG : string :=
  "0xddf252ad1be2c89b69c2b068fc378daa952ba7f163c4a11628f55a4df523b3ef".

Definition DEFAULT_POLL : Z := 4.

(** The RPC client [w3] (and the static [Web3.to_checksum_address]) over a
    world [W]: every remote operation may change the world and may raise. *)
Record Web3 (W : Type) := mkWeb3 {
  block_number : W -> W * Exc Z;
  get_block : Z -> W -> W * Exc Block;
  get_transaction_receipt : string -> W -> W * Exc Receipt;
  eth_call : forall f : ErcFn, string -> option Z -> W -> W * Exc (fn_val f);
  get_logs : Z -> Z -> string -> list string -> W -> W * Exc (list Log);
  to_checksum_address : string -> Exc string
}.
Arguments block_number {W} _ _.
Arguments get_block {W} _ _ _.
Arguments get_transaction_receipt {W} _ _ _.
Arguments eth_call {W} _ _ _ _ _.
Arguments get_logs {W} _ _ _ _ _ _.
Arguments to_checksum_address {W} _ _.

(** The clock: [time.time()] (whole seconds), [datetime.now(utc).isoformat()]
    and [datetime.fromtimestamp(t, tz=utc).isoformat()]. *)
Record Clock (W : Type) := mkClock {
  time_time : W -> W * Z;
  now_isoformat : W -> W * string;
  fromtimestamp_isoformat : Z -> Exc string
}.
Arguments time_time {W} _ _.
Arguments now_isoformat {W} _ _.
Arguments fromtimestamp_isoformat {W} _ _.

(** ** The Discovery Store: the [tokens] table *)

(** One row of [tokens]. [address] carries the [UNIQUE] constraint and
    [rowid] is the [INTEGER PRIMARY KEY]. *)
Record Row := mkRow {
  rowid : Z;
  chain : string;
  address : string;
  creation_block : Z;
  found_block : Z;
  tx_hash_col : string;
  timestamp_utc : string;
  name : option string;
  symbol : option string;
  decimals : option Z;
  total_supply : option string;
  has_transfer_logs : Z;
  extra_json : string
}.

(** [init_db] on a fresh database file: the empty table. *)
Definition init_db : list Row := [].

(** The probe's result dictionary [info]. *)
Record Info := mkInfo {
  i_name : option string;
  i_symbol : option string;
  i_decimals : option Z;
  i_total_supply : option string;
  i_has_transfer_logs : bool;
  i_extra_json : list (string * JVal)
}.

(** The dictionary [data] handed to [save_token]. *)
Record Data := mkData {
  d_chain : string;
  d_address : string;
  d_creation_block : Z;
  d_found_block : Z;
  d_tx_hash : string;
  d_timestamp_utc : string;
  d_name : option string;
  d_symbol : option string;
  d_decimals : option Z;
  d_total_supply : option string;
  d_has_transfer_logs : bool;
  d_extra_json : list (string * JVal)
}.

(** A value in a result row of a [SELECT]. *)
Inductive Cell :=
| CNull
| CInt (z : Z)
| CText (s : string).

Definition cell_text (o : option string) : Cell :=
  match o with Some s => CText s | None => CNull end.

Definition cell_int (o : option Z) : Cell :=
  match o with Some z => CInt z | None => CNull end.

(** The rowid SQLite gives to the next inserted row. *)
Definition next_rowid (t : list Row) : Z := 1 + fold_right Z.max 0 (map rowid t).

(** [SELECT 1 FROM tokens WHERE address = ?] finds a row. *)
Definition address_taken (t : list Row) (a : string) : bool :=
  existsb (fun r => String.eqb (address r) a) t.

(** [INSERT OR IGNORE] of a row that already carries its fresh rowid: it is
    appended unless its address is already there, in which case nothing
    happens. *)
Definition insert_or_ignore (t : list Row) (r : Row) : list Row :=
  if address_taken t (address r) then t else t ++ [r].

(** [ORDER BY id] *)
Fixpoint insert_by_id (r : Row) (l : list Row) : list Row :=
  match l with
  | [] => [r]
  | x :: rest => if rowid r <? rowid x then r :: l else x :: insert_by_id r rest
  end.

Definition order_by_id (t : list Row) : list Row := fold_right insert_by_id [] t.

(** The column list of the exporter's [SELECT], which is also
    [c.description]. *)
Definition export_headers : list string :=
  ["chain"; "address"; "creation_block"; "found_block"; "tx_hash";
   "timestamp_utc"; "name"; "symbol"; "decimals"; "total_supply";
   "has_transfer_logs"; "extra_json"].

Definition row_cells (r : Row) : list Cell :=
  [CText (chain r); CText (address r); CInt (creation_block r);
   CInt (found_block r); CText (tx_hash_col r); CText (timestamp_utc r);
   cell_text (name r); cell_text (symbol r); cell_int (decimals r);
   cell_text (total_supply r); CInt (has_transfer_logs r);
   CText (extra_json r)].

Definition select_export_rows (t : list Row) : list (list Cell) :=
  map row_cells (order_by_id t).

(** ** Files and console *)

(** One entry of the JSON-lines debug log. *)
Record DebugEntry := mkDebugEntry {
  dbg_timestamp : string;
  dbg_chain : string;
  dbg_address : string;
  dbg_creation_block : Z;
  dbg_found_block : Z;
  dbg_tx_hash : string;
  dbg_inspection : Info
}.

(** What a file holds, as the sequence of things written to it: rows handed
    to [csv.writer], a document handed to [json.dump], lines of the debug
    log. *)
Inductive Chunk :=
| CsvRow (cells : list Cell)
| JsonDoc (objects : list (list (string * Cell)))
| DebugLine (entry : DebugEntry).

(** Console lines, by the [print] call that writes them. *)
Inductive Msg :=
| MStarting
| MErrLatest (e : string)
| MFailedFetch (blk : Z) (e : string)
| MScanning (blk : Z) (ntx : nat)
| MNoReceipt (txh e : string)
| MDetected (addr txh : string) (blk : Z)
| MAlready
| MInspection (addr : string) (info : Info)
| MDebugLogFailed (e : string)
| MSavedToken (addr : string) (nm sy : option string) (dec : option Z)
| MSavedContract (addr : string)
| MStopAtCount (cnt limit : Z)
| MErrStopAtCount (e : string)
| MExported (n : nat) (csv_path json_path : string)
| MRunDuration (d : Z)
| MChapters (chapters : list string)
| MFailedSplit (e : string).

Inductive Event :=
| Print (m : Msg)
| Sleep (seconds : Z).

(** ** The state-and-exception monad *)

Record St (W : Type) := mkSt {
  world : W;
  db : list Row;
  fs : gmap string (list Chunk);
  out : list Event
}.
Arguments mkSt {W} _ _ _ _.
Arguments world {W} _.
Arguments db {W} _.
Arguments fs {W} _.
Arguments out {W} _.

Definition M (W A : Type) : Type := St W -> St W * Exc A.

Definition ret {W A} (a : A) : M W A := fun st => (st, Ok a).

Definition raise {W A} (e : Exn) : M W A := fun st => (st, Raise e).

Definition bind {W A B} (m : M W A) (k : A -> M W B) : M W B :=
  fun st =>
    match m st with
    | (st', Ok a) => k a st'
    | (st', Raise e) => (st', Raise e)
    end.

(** [try: m except Exception as e: h e] *)
Definition try_except {W A} (m : M W A) (h : Exn -> M W A) : M W A :=
  fun st =>
    match m st with
    | (st', Ok a) => (st', Ok a)
    | (st', Raise e) => h e st'
    end.

Notation "x <- m ;; k" := (bind m (fun x => k))
  (at level 100, m at next level, right associativity).
Notation "m ;;; k" := (bind m (fun _ => k))
  (at level 100, right associativity).

(** A remote or clock operation, run on the world of the state. *)
Definition on_world {W A} (op : W -> W * Exc A) : M W A :=
  fun st =>
    let (w', r) := op (world st) in
    (mkSt w' (db st) (fs st) (out st), r).

Definition on_clock {W A} (op : W -> W * A) : M W A :=
  fun st =>
    let (w', r) := op (world st) in
    (mkSt w' (db st) (fs st) (out st), Ok r).

(** A pure library call that may raise. *)
Definition of_exc {W A} (r : Exc A) : M W A := fun st => (st, r).

Definition emit {W} (e : Event) : M W unit :=
  fun st => (mkSt (world st) (db st) (fs st) (out st ++ [e]), Ok tt).

Definition print {W} (m : Msg) : M W unit := emit (Print m).

(** [time.sleep(n)]: a negative length raises [ValueError]. *)
Definition sleep {W} (n : Z) : M W unit :=
  if n <? 0 then raise (mkExn ValueError "sleep length must be non-negative")
  else emit (Sleep n).

(** [open(path, "w")] and the writes that follow: the file is replaced. *)
Definition write_file {W} (path : string) (content : list Chunk) : M W unit :=
  fun st => (mkSt (world st) (db st) (<[path := content]> (fs st)) (out st), Ok tt).

(** [open(path, "a")] and one write: the file is created when missing. *)
Definition append_file {W} (path : string) (c : Chunk) : M W unit :=
  fun st =>
    let old := match fs st !! path with Some l => l | None => [] end in
    (mkSt (world st) (db st) (<[path := old ++ [c]]> (fs st)) (out st), Ok tt).

Definition get_db {W} : M W (list Row) := fun st => (st, Ok (db st)).

Definition put_db {W} (t : list Row) : M W unit :=
  fun st => (mkSt (world st) t (fs st) (out st), Ok tt).

(** ** Store operations *)

Definition already_seen {W} (address : string) : M W bool :=
  t <- get_db ;;
  ret (address_taken t (Py.lower address)).

(** The value tuple [save_token] binds to its [INSERT], with the rowid the
    table gives it. *)
Definition data_row (id : Z) (data : Data) : Row :=
  mkRow id
        (d_chain data)
        (Py.lower (d_address data))
        (d_creation_block data)
        (d_found_block data)
        (d_tx_hash data)
        (d_timestamp_utc data)
        (d_name data)
        (d_symbol data)
        (d_decimals data)
        (d_total_supply data)
        (if d_has_transfer_logs data then 1 else 0)
        (Json.dumps (d_extra_json data)).

Definition save_token {W} (data : Data) : M W unit :=
  t <- get_db ;;
  put_db (insert_or_ignore t (data_row (next_rowid t) data)).

(** [SELECT COUNT(1) FROM tokens] *)
Definition count_tokens {W} : M W Z :=
  t <- get_db ;; ret (Z.of_nat (length t)).

(** ** Snapshot exporter *)

Definition export_csv_json {W} (csv_path json_path : string) : M W unit :=
  t <- get_db ;;
  let rows := select_export_rows t in
  let headers := export_headers in
  write_file csv_path (CsvRow (map CText headers) :: map CsvRow rows) ;;;
  let out := map (fun r => combine headers r) rows in
  write_file json_path [JsonDoc out] ;;;
  print (MExported (length rows) csv_path json_path).

(** ** Run configuration: the parsed command line *)

Record Args := mkArgs {
  start_block : option Z;
  args_chain : string;
  confirmations : Z;
  poll_interval : Z;
  csv_output : string;
  json_output : string;
  run_duration : Z;
  verbose : bool;
  debug_log : option string;
  save_all : bool;
  stop_at_count : Z
}.

(** [d[k] = v] on a dictionary kept in insertion order. *)
Fixpoint dict_set (k : string) (v : JVal) (d : list (string * JVal)) : list (string * JVal) :=
  match d with
  | [] => [(k, v)]
  | (k', v') :: rest =>
      if String.eqb k' k then (k, v) :: rest else (k', v') :: dict_set k v rest
  end.

Definition set_name (i : Info) (v : option string) : Info :=
  mkInfo v (i_symbol i) (i_decimals i) (i_total_supply i) (i_has_transfer_logs i) (i_extra_json i).
Definition set_symbol (i : Info) (v : option string) : Info :=
  mkInfo (i_name i) v (i_decimals i) (i_total_supply i) (i_has_transfer_logs i) (i_extra_json i).
Definition set_decimals (i : Info) (v : option Z) : Info :=
  mkInfo (i_name i) (i_symbol i) v (i_total_supply i) (i_has_transfer_logs i) (i_extra_json i).
Definition set_total_supply (i : Info) (v : option string) : Info :=
  mkInfo (i_name i) (i_symbol i) (i_decimals i) v (i_has_transfer_logs i) (i_extra_json i).
Definition set_has_transfer_logs (i : Info) (v : bool) : Info :=
  mkInfo (i_name i) (i_symbol i) (i_decimals i) (i_total_supply i) v (i_extra_json i).
Definition set_extra (i : Info) (k : string) (v : JVal) : Info :=
  mkInfo (i_name i) (i_symbol i) (i_decimals i) (i_total_supply i) (i_has_transfer_logs i)
         (dict_set k v (i_extra_json i)).

(** The plausibility test of [main_loop]:
    [any([name, symbol, decimals is not None, has_transfer_logs])]. *)
Definition plausible (data : Data) : bool :=
  Py.any [Py.truthy (d_name data);
          Py.truthy (d_symbol data);
          match d_decimals data with Some _ => true | None => false end;
          d_has_transfer_logs data].

(** What a loop body asks of its loop: go on, or return from [main_loop]. *)
Inductive Ctl := Next | Return.

(** What one pass of [while True] leaves: the loop goes round again with
    this [last_processed_block], or [main_loop] has returned. *)
Inductive Outcome :=
| Continue (last_processed_block : option Z)
| Exit.

Section Scanner.

Context {W : Type} (w3 : Web3 W) (clock : Clock W).

(** ** Contract probe *)

(** [(True, val)] is [inl val] and [(False, str(e))] is [inr] of the
    message. The contract object, the lookup of [fn_name f] on it and the
    call itself are the one remote operation [eth_call]; the parameter
    [timeout_seconds], which the source never reads, is left out. *)
Definition safe_contract_call (address : string) (f : ErcFn)
    (block_identifier : option Z) : M W (fn_val f + string) :=
  try_except
    (a <- of_exc (to_checksum_address w3 address) ;;
     val <- on_world (eth_call w3 f a block_identifier) ;;
     ret (inl val))
    (fun e =>
       match exn_kind e with
       | BadFunctionCallOutput | ContractLogicError | ValueError => ret (inr (exn_msg e))
       | OtherError => ret (inr (exn_msg e))
       end).

(** The dictionary [info] is updated in place by the source and passed
    along here. *)
Definition inspect_contract (address : string) (creation_block found_block : Z) : M W Info :=
  let info := mkInfo None None None None false [] in
  r <- safe_contract_call address FnName (Some found_block) ;;
  info <- match r with
          | inl val =>
              try_except (ret (set_name info (Some val)))
                (fun _ => ret (set_extra info "name_call_raw" (JStr val)))
          | inr _ => ret info
          end ;;
  r <- safe_contract_call address FnSymbol (Some found_block) ;;
  info <- match r with
          | inl val =>
              try_except (ret (set_symbol info (Some val)))
                (fun _ => ret (set_extra info "symbol_call_raw" (JStr val)))
          | inr _ => ret info
          end ;;
  r <- safe_contract_call address FnDecimals (Some found_block) ;;
  info <- match r with
          | inl val =>
              try_except (ret (set_decimals info (Some val)))
                (fun _ => ret (set_extra info "decimals_call_raw" (JStr (Py.str_int val))))
          | inr _ => ret info
          end ;;
  r <- safe_contract_call address FnTotalSupply (Some found_block) ;;
  info <- match r with
          | inl val =>
              try_except (ret (set_total_supply info (Some (Py.str_int val))))
                (fun _ => ret (set_extra info "total_supply_call_raw" (JStr (Py.str_int val))))
          | inr _ => ret info
          end ;;
  info <- try_except
            (let from_block := creation_block in
             let to_block := found_block in
             a <- of_exc (to_checksum_address w3 address) ;;
             logs <- on_world (get_logs w3 from_block to_block a [TRANSFER_EVENT_SIG]) ;;
             let info := set_has_transfer_logs info (0 <? Z.of_nat (length logs)) in
             ret (set_extra info "transfer_log_count" (JInt (Z.of_nat (length logs)))))
            (fun e => ret (set_extra info "transfer_log_error" (JStr (exn_msg e)))) ;;
  ret info.

(** ** Scan loop *)

(** The created address read off a receipt: attribute style first, then
    map style when the first gave nothing. *)
Definition receipt_contract_address (receipt : Receipt) : option string :=
  let contract_address :=
    match attr_contract_address receipt with
    | Ok v => v
    | Raise _ => None
    end in
  if negb (Py.truthy contract_address) then
    if has_get receipt then
      match get_contractAddress receipt with
      | Ok v => v
      | Raise _ => None
      end
    else contract_address
  else contract_address.

(** The end of the transaction loop's body: judge plausibility, save the
    candidate when it is plausible or when every candidate is saved, and
    stop at the configured count. *)
Definition record_candidate (args : Args) (checksum_addr : string) (data : Data)
    : M W Ctl :=
  let plausible := plausible data in
  if plausible || save_all args then
    save_token data ;;;
    (if plausible
     then print (MSavedToken checksum_addr (d_name data) (d_symbol data) (d_decimals data))
     else print (MSavedContract checksum_addr)) ;;;
    try_except
      (if 0 <? stop_at_count args then
         cnt <- count_tokens ;;
         if stop_at_count args <=? cnt then
           print (MStopAtCount cnt (stop_at_count args)) ;;;
           export_csv_json (csv_output args) (json_output args) ;;;
           ret Return
         else ret Next
       else ret Next)
      (fun e => print (MErrStopAtCount (exn_msg e)) ;;; ret Next)
  else ret Next.

(** The transaction loop's body for a newly seen contract address, from
    the block timestamp on: probe it, log it, and hand the assembled
    [data] to [record_candidate]. The source's local [found_block = latest]
    is never read (the record takes [target_block]) and is left out. *)
Definition process_candidate (args : Args) (latest target_block blk : Z) (block : Block)
    (tx : Tx) (checksum_addr : string) : M W Ctl :=
  timestamp_utc <- of_exc (fromtimestamp_isoformat clock (timestamp block)) ;;
  info <- inspect_contract checksum_addr blk blk ;;
  (if verbose args then print (MInspection checksum_addr info) else ret tt) ;;;
  (if Py.truthy (debug_log args) then
     try_except
       (now <- on_clock (now_isoformat clock) ;;
        let entry := mkDebugEntry now (args_chain args) checksum_addr blk
                       target_block (tx_hash tx) info in
        append_file (match debug_log args with Some p => p | None => "" end)
                    (DebugLine entry))
       (fun e => print (MDebugLogFailed (exn_msg e)))
   else ret tt) ;;;
  let data := mkData (args_chain args) checksum_addr blk target_block
                (tx_hash tx) timestamp_utc (i_name info) (i_symbol info)
                (i_decimals info) (i_total_supply info)
                (i_has_transfer_logs info) (i_extra_json info) in
  record_candidate args checksum_addr data.

(** The body of [for tx in block.transactions]: find a contract creation
    and its address, skip an address already recorded, and hand a new one
    to [process_candidate]. *)
Definition handle_tx (args : Args) (latest target_block blk : Z) (block : Block)
    (tx : Tx) : M W Ctl :=
  let to_addr := match tx_to tx with Ok v => v | Raise _ => None end in
  match to_addr with
  | Some _ => ret Next
  | None =>
    r <- try_except
           (rc <- on_world (get_transaction_receipt w3 (tx_hash tx)) ;; ret (Some rc))
           (fun e => print (MNoReceipt (tx_hash tx) (exn_msg e)) ;;; ret None) ;;
    match r with
    | None => ret Next
    | Some receipt =>
      let contract_address := receipt_contract_address receipt in
      if negb (Py.truthy contract_address) then ret Next
      else
        checksum_addr <- of_exc (to_checksum_address w3
                           (match contract_address with Some a => a | None => "" end)) ;;
        print (MDetected checksum_addr (tx_hash tx) blk) ;;;
        seen <- already_seen checksum_addr ;;
        if seen then print MAlready ;;; ret Next
        else process_candidate args latest target_block blk block tx checksum_addr
    end
  end.

Fixpoint for_txs (args : Args) (latest target_block blk : Z) (block : Block)
    (txs : list Tx) : M W Ctl :=
  match txs with
  | [] => ret Next
  | tx :: rest =>
      c <- handle_tx args latest target_block blk block tx ;;
      match c with
      | Next => for_txs args latest target_block blk block rest
      | Return => ret Return
      end
  end.

(** The body of [for blk in range(...)]; the second component is
    [last_processed_block] when the body is left. *)
Definition scan_height (args : Args) (latest target_block : Z)
    (last_processed_block blk : Z) : M W (Ctl * Z) :=
  r <- try_except
         (b <- on_world (get_block w3 blk) ;; ret (Some b))
         (fun e => print (MFailedFetch blk (exn_msg e)) ;;; ret None) ;;
  match r with
  | None => ret (Next, last_processed_block)
  | Some block =>
      print (MScanning blk (length (transactions block))) ;;;
      c <- for_txs args latest target_block blk block (transactions block) ;;
      match c with
      | Return => ret (Return, last_processed_block)
      | Next => ret (Next, blk)
      end
  end.

Fixpoint for_heights (args : Args) (latest target_block : Z)
    (last_processed_block : Z) (heights : list Z) : M W (Ctl * Z) :=
  match heights with
  | [] => ret (Next, last_processed_block)
  | blk :: rest =>
      r <- scan_height args latest target_block last_processed_block blk ;;
      match r with
      | (Return, b) => ret (Return, b)
      | (Next, b) => for_heights args latest target_block b rest
      end
  end.

(** One pass of the [while True] body of [main_loop]. *)
Definition tick (args : Args) (start_time : Z) (last_processed_block : option Z)
    : M W Outcome :=
  r <- try_except
         (l <- on_world (block_number w3) ;; ret (Some l))
         (fun e =>
            print (MErrLatest (exn_msg e)) ;;;
            sleep (Z.max 5 (poll_interval args)) ;;;
            ret None) ;;
  match r with
  | None => ret (Continue last_processed_block)
  | Some latest =>
    let last_processed_block :=
      match last_processed_block with
      | None => latest - 1
      | Some b => b
      end in
    if latest <=? last_processed_block then
      sleep (poll_interval args) ;;; ret (Continue (Some last_processed_block))
    else
      let target_block := latest - confirmations args + 1 in
      if target_block <=? last_processed_block then
        sleep (poll_interval args) ;;; ret (Continue (Some last_processed_block))
      else
        r <- for_heights args latest target_block last_processed_block
               (Py.range (last_processed_block + 1) (target_block + 1)) ;;
        match r with
        | (Return, _) => ret Exit
        | (Next, last_processed_block) =>
            export_csv_json (csv_output args) (json_output args) ;;;
            if run_duration args =? 0 then
              sleep (poll_interval args) ;;; ret (Continue (Some last_processed_block))
            else
              now <- on_clock (time_time clock) ;;
              if run_duration args <=? now - start_time then
                print (MRunDuration (run_duration args)) ;;; ret Exit
              else
                sleep (poll_interval args) ;;; ret (Continue (Some last_processed_block))
        end
  end.

(** [while True], for at most [fuel] passes. *)
Fixpoint while_true (fuel : nat) (args : Args) (start_time : Z)
    (last_processed_block : option Z) : M W Outcome :=
  match fuel with
  | O => ret (Continue last_processed_block)
  | S fuel' =>
      o <- tick args start_time last_processed_block ;;
      match o with
      | Exit => ret Exit
      | Continue b => while_true fuel' args start_time b
      end
  end.

Definition main_loop (fuel : nat) (args : Args) : M W Outcome :=
  let last_processed_block := start_block args in
  print MStarting ;;;
  start_time <- on_clock (time_time clock) ;;
  while_true fuel args start_time last_processed_block.

End Scanner.

(** ** Chapter splitter ([file_utils.py]) *)

(** *** The fragment of [re] the chapter patterns use *)

Module Re.

Inductive Atom :=
| Lit (c : ascii)
| Dot
| Digit
| Space
| Class (chars : string) (digits : bool).

Inductive Item :=
| One (a : Atom)
| Plus (a : Atom).

Definition Pattern := list Item.

Definition is_digit (c : ascii) : bool :=
  let n := N_of_ascii c in ((48 <=? n) && (n <=? 57))%N.

(** [str.isspace] on one character, which is also what [\s] matches. *)
Definition is_space (c : ascii) : bool :=
  let n := N_of_ascii c in
  (((9 <=? n) && (n <=? 13)) || ((28 <=? n) && (n <=? 32)) || (n =? 133) || (n =? 160))%N.

(** One character against one atom, under [re.IGNORECASE]. *)
Definition atom_ok (a : Atom) (c : ascii) : bool :=
  match a with
  | Lit l => Ascii.eqb (Py.lower_char l) (Py.lower_char c)
  | Dot => negb (Ascii.eqb c (ascii_of_N 10))
  | Digit => is_digit c
  | Space => is_space c
  | Class chars digits =>
      existsb (fun l => Ascii.eqb (Py.lower_char l) (Py.lower_char c))
              (list_ascii_of_string chars)
      || (digits && is_digit c)
  end.

(** A match of the pattern at the start of [s]: its length. [+] is
    greedy and gives characters back when the rest fails. *)
Fixpoint match_here (p : Pattern) (s : string) : option nat :=
  match p with
  | [] => Some 0%nat
  | One a :: p' =>
      match s with
      | String c s' => if atom_ok a c then option_map S (match_here p' s') else None
      | EmptyString => None
      end
  | Plus a :: p' =>
      (fix plus (s : string) : option nat :=
         match s with
         | String c s' =>
             if atom_ok a c then
               match plus s' with
               | Some n => Some (S n)
               | None => option_map S (match_here p' s')
               end
             else None
         | EmptyString => None
         end) s
  end.

(** [re.search(p, s, re.IGNORECASE)] finds a match. *)
Fixpoint search (p : Pattern) (s : string) : bool :=
  match match_here p s with
  | Some _ => true
  | None =>
      match s with
      | String _ s' => search p s'
      | EmptyString => false
      end
  end.

(** [re.finditer]: the start offsets of the successive non-overlapping
    matches. [pos] is the offset of [s] in the text and [skip] the number
    of characters still covered by the last match. *)
Fixpoint finditer_from (p : Pattern) (s : string) (pos skip : nat) : list nat :=
  match skip with
  | S k =>
      match s with
      | String _ s' => finditer_from p s' (S pos) k
      | EmptyString => []
      end
  | O =>
      match match_here p s with
      | Some n =>
          pos :: match s with
                 | String _ s' => finditer_from p s' (S pos) (Nat.pred n)
                 | EmptyString => []
                 end
      | None =>
          match s with
          | String _ s' => finditer_from p s' (S pos) 0%nat
          | EmptyString => []
          end
      end
  end.

Definition finditer (p : Pattern) (s : string) : list nat := finditer_from p s 0%nat 0%nat.

Fixpoint lits (s : string) : Pattern :=
  match s with
  | EmptyString => []
  | String c r => One (Lit c) :: lits r
  end.

End Re.

(** *** String methods *)

Module Str.

Fixpoint lstrip (s : string) : string :=
  match s with
  | String c r => if Re.is_space c then lstrip r else s
  | EmptyString => EmptyString
  end.

Fixpoint rstrip (s : string) : string :=
  match s with
  | String c r =>
      match rstrip r with
      | EmptyString => if Re.is_space c then EmptyString else String c EmptyString
      | r' => String c r'
      end
  | EmptyString => EmptyString
  end.

(** [s.strip()] *)
Definition strip (s : string) : string := rstrip (lstrip s).

Fixpoint rev_string (acc s : string) : string :=
  match s with
  | EmptyString => acc
  | String c r => rev_string (String c acc) r
  end.

(** [s.split(sep)] for a non-empty separator; [cur] is the current piece
    read so far, reversed, and [skip] the separator characters still to
    pass over. *)
Fixpoint split_from (sep s cur : string) (skip : nat) : list string :=
  match skip with
  | S k =>
      match s with
      | String _ s' => split_from sep s' cur k
      | EmptyString => [rev_string EmptyString cur]
      end
  | O =>
      match s with
      | EmptyString => [rev_string EmptyString cur]
      | String c s' =>
          if String.prefix sep s
          then rev_string EmptyString cur
                 :: split_from sep s' EmptyString (Nat.pred (String.length sep))
          else split_from sep s' (String c cur) 0%nat
      end
  end.

Definition split (sep s : string) : list string := split_from sep s EmptyString 0%nat.

(** [s[start:end]] for offsets within the string *)
Definition slice (s : string) (start stop : nat) : string :=
  String.substring start (stop - start)%nat s.

Definition nonempty (s : string) : bool :=
  match s with EmptyString => false | _ => true end.

Definition newline : string := String (ascii_of_N 10) EmptyString.

End Str.

(** Reading a text file may raise (missing file, undecodable bytes) and may
    answer differently from one call to the next. *)
Record FileIO (W : Type) := mkFileIO {
  read_text : string -> W -> W * Exc string
}.
Arguments read_text {W} _ _ _.

(** The character class [[012345678910\d]] *)
Definition digit_class : Re.Atom := Re.Class "012345678910" true.

Definition chapter_patterns : list Re.Pattern :=
  [ Re.lits "Chapter " ++ [Re.One digit_class];
    Re.lits "No" ++ [Re.One Re.Dot] ++ Re.lits " " ++ [Re.One digit_class];
    Re.lits "Chapter" ++ [Re.Plus Re.Space; Re.Plus Re.Digit];
    Re.lits "CHAPTER" ++ [Re.Plus Re.Space; Re.Plus Re.Digit];
    Re.lits "Chapter" ++ [Re.Plus Re.Digit];
    Re.lits "Chapter" ++ [Re.Plus Re.Digit] ].

Definition _is_chapter_title (line : string) : bool :=
  existsb (fun pattern => Re.search pattern line) chapter_patterns.

(** [matches] are the start offsets of the matches. *)
Fixpoint _extract_chapters_by_pattern (content : string) (matches : list nat) : list string :=
  match matches with
  | [] => []
  | start :: rest =>
      let stop := match rest with
                  | next :: _ => next
                  | [] => String.length content
                  end in
      let chapter_content := Str.strip (Str.slice content start stop) in
      if Str.nonempty chapter_content
      then chapter_content :: _extract_chapters_by_pattern content rest
      else _extract_chapters_by_pattern content rest
  end.

(** The loop of [_split_by_paragraphs]; [i] is the index of the first
    paragraph of [paragraphs] and [current_chapter] is kept in order. *)
Fixpoint group_paragraphs (paragraphs : list string) (i : nat)
    (current_chapter : list string) (chapters : list string) : list string :=
  match paragraphs with
  | [] =>
      if Nat.ltb 0 (length current_chapter)
      then chapters ++ [Py.join (Str.newline +:+ Str.newline) current_chapter]
      else chapters
  | paragraph :: rest =>
      let current_chapter := current_chapter ++ [paragraph] in
      if Nat.leb 3 (length current_chapter) && Nat.eqb ((i + 1) mod 4) 0
      then group_paragraphs rest (S i) []
             (chapters ++ [Py.join (Str.newline +:+ Str.newline) current_chapter])
      else group_paragraphs rest (S i) current_chapter chapters
  end.

Definition stripped_nonempty (l : list string) : list string :=
  List.filter Str.nonempty (map Str.strip l).

Definition _split_by_paragraphs (content : string) : list string :=
  let paragraphs := stripped_nonempty (Str.split (Str.newline +:+ Str.newline) content) in
  let paragraphs :=
    if Nat.ltb (length paragraphs) 3
    then stripped_nonempty (Str.split Str.newline content)
    else paragraphs in
  group_paragraphs paragraphs 0%nat [] [].

(** The pattern loop of [_split_large_novel], with its variable [chapters]. *)
Fixpoint pattern_loop (content : string) (patterns : list Re.Pattern)
    (chapters : list string) : list string :=
  match patterns with
  | [] => chapters
  | pattern :: rest =>
      let matches := Re.finditer pattern content in
      let chapters :=
        if Nat.leb 2 (length matches) then _extract_chapters_by_pattern content matches
        else chapters in
      if Nat.leb 2 (length matches) && Nat.ltb 0 (length chapters) then chapters
      else
        let chapters :=
          if Nat.eqb (length matches) 1 then _extract_chapters_by_pattern content matches
          else chapters in
        if Nat.eqb (length matches) 1 && Nat.ltb 0 (length chapters) then chapters
        else pattern_loop content rest chapters
  end.

Definition _split_large_novel (content : string) : list string :=
  let chapters := pattern_loop content chapter_patterns [] in
  match chapters with
  | [] => _split_by_paragraphs content
  | _ => chapters
  end.

(** The line loop of [_split_small_novel]: the chapters closed so far and
    the lines of the current one. *)
Fixpoint group_lines (lines : list string) (chapters current_chapter : list string)
    : list string * list string :=
  match lines with
  | [] => (chapters, current_chapter)
  | line :: rest =>
      let line := Str.strip line in
      if negb (Str.nonempty line) then group_lines rest chapters current_chapter
      else if _is_chapter_title line then
        if Nat.ltb 0 (length current_chapter)
        then group_lines rest (chapters ++ [Py.join Str.newline current_chapter]) [line]
        else group_lines rest chapters (current_chapter ++ [line])
      else group_lines rest chapters (current_chapter ++ [line])
  end.

Section Splitter.

Context {W : Type} (io : FileIO W).

Definition _split_small_novel (content : string) : M W (list string) :=
  let lines := Str.split Str.newline content in
  let '(chapters, current_chapter) := group_lines lines [] [] in
  let chapters :=
    if Nat.ltb 0 (length current_chapter)
    then chapters ++ [Py.join Str.newline current_chapter]
    else chapters in
  print (MChapters chapters) ;;;
  if Nat.eqb (length chapters) 1 then ret (_split_by_paragraphs content)
  else ret chapters.

Definition split_novel_by_chapters (file_path : string) : M W (list string) :=
  try_except
    (content <- on_world (read_text io file_path) ;;
     chapters <- (if _is_chapter_title content
                  then ret (_split_large_novel content)
                  else _split_small_novel content) ;;
     let chapters := match chapters with [] => [content] | _ => chapters end in
     ret chapters)
    (fun e =>
       print (MFailedSplit (exn_msg e)) ;;;
       try_except
         (content <- on_world (read_text io file_path) ;;
          ret [content])
         (fun _ => ret ["Unable to read file contents"])).

End Splitter.

(** ** A scripted chain for concrete runs

    The world is the number of remote calls made so far, so that a script
    can answer the same request differently over time. *)

Module Script.

Definition remote {A} (f : nat -> Exc A) : nat -> nat * Exc A :=
  fun n => (S n, f n).

Definition w3 (head : nat -> Exc Z) (blocks : Z -> nat -> Exc Block)
    (receipts : string -> nat -> Exc Receipt)
    (calls : forall f : ErcFn, string -> nat -> Exc (fn_val f))
    (logs : string -> nat -> Exc (list Log)) : Web3 nat :=
  mkWeb3 nat
    (remote head)
    (fun blk => remote (blocks blk))
    (fun txh => remote (receipts txh))
    (fun f a _ => remote (calls f a))
    (fun _ _ a _ => remote (logs a))
    (fun a => Ok a).

(** Two decimal digits, and four, for dates and times. *)
Definition pad2 (n : Z) : string :=
  (if n <? 10 then "0" else "") +:+ Py.str_int n.

Definition pad4 (n : Z) : string :=
  (if n <? 10 then "000" else if n <? 100 then "00" else if n <? 1000 then "0" else "")
  +:+ Py.str_int n.

(** [datetime.fromtimestamp(t, tz=utc).isoformat()] for a whole number of
    seconds: the proleptic Gregorian date of day [t / 86400] and the time of
    day, and [ValueError] outside the years 1 to 9999. *)
Definition utc_isoformat (t : Z) : Exc string :=
  if (t <? -62135596800) || (253402300799 <? t)
  then Raise (mkExn ValueError "year is out of range")
  else
    let days := t / 86400 in
    let secs := t mod 86400 in
    let z := days + 719468 in
    let era := z / 146097 in
    let doe := z - era * 146097 in
    let yoe := (doe - doe / 1460 + doe / 36524 - doe / 146096) / 365 in
    let doy := doe - (365 * yoe + yoe / 4 - yoe / 100) in
    let mp := (5 * doy + 2) / 153 in
    let d := doy - (153 * mp + 2) / 5 + 1 in
    let m := if mp <? 10 then mp + 3 else mp - 9 in
    let y := yoe + era * 400 + (if m <=? 2 then 1 else 0) in
    Ok (pad4 y +:+ "-" +:+ pad2 m +:+ "-" +:+ pad2 d +:+ "T"
        +:+ pad2 (secs / 3600) +:+ ":" +:+ pad2 (secs mod 3600 / 60) +:+ ":"
        +:+ pad2 (secs mod 60) +:+ "+00:00").

(** A clock that advances one second with every remote call. *)
Definition clock : Clock nat :=
  mkClock nat
    (fun n => (n, 1700000000 + Z.of_nat n))
    (fun n => (n, match utc_isoformat (1700000000 + Z.of_nat n) with
                  | Ok s => s
                  | Raise _ => ""
                  end))
    utc_isoformat.

Definition err (m : string) : Exn := mkExn OtherError m.

Definition st0 (t : list Row) : St nat := mkSt 0%nat t ∅ [].

Definition args0 : Args :=
  mkArgs None "eth" 3 DEFAULT_POLL "discovered_tokens.csv" "discovered_tokens.json"
         0 false None false 0.

(** A contract-creation transaction and its receipt. *)
Definition creation (txh : string) : Tx := mkTx (Ok None) txh.
Definition receipt_of (a : string) : Receipt :=
  mkReceipt (Ok None) true (Ok (Some a)).

Definition empty_block : Block := mkBlock [] 1700000000.

Definition no_receipt : string -> nat -> Exc Receipt := fun _ _ => Raise (err "not found").
Definition no_call : forall f : ErcFn, string -> nat -> Exc (fn_val f) :=
  fun _ _ _ => Raise (mkExn ContractLogicError "execution reverted").
Definition no_logs : string -> nat -> Exc (list Log) := fun _ _ => Ok [].

(** A chain of empty blocks with its head at 100. *)
Definition quiet_w3 : Web3 nat :=
  w3 (fun _ => Ok 100) (fun _ _ => Ok empty_block) no_receipt no_call no_logs.

(** The same chain behind a flaky endpoint: the head is 100 for the first
    four remote calls and 101 afterwards, and block 96 cannot be fetched
    during the first two remote calls. *)
Definition flaky_w3 : Web3 nat :=
  w3 (fun n => Ok (if Nat.ltb n 4 then 100 else 101))
     (fun blk n => if (blk =? 96) && Nat.ltb n 2 then Raise (err "timeout") else Ok empty_block)
     no_receipt no_call no_logs.

(** A checksummed contract address and two observations of it, under two
    chain labels. *)
Definition addr1 : string := "0x5FbDB2315678afecb367f032d93F642f64180aa3".

Definition token_eth : Data :=
  mkData "eth" addr1 97 98 "0xtx1" "2023-11-14T22:13:20+00:00"
         (Some "Foo") None None None false [("transfer_log_count", JInt 0)].

Definition token_bsc : Data :=
  mkData "bsc" addr1 97 98 "0xtx1" "2023-11-14T22:13:20+00:00"
         (Some "Foo") None None None false [("transfer_log_count", JInt 0)].

(** The table after [token_eth] was saved into the fresh one. *)
Definition store1 : list Row :=
  insert_or_ignore init_db (data_row (next_rowid init_db) token_eth).

(** A state holding [store1] and a tabular file left by an earlier export. *)
Definition stale_st : St nat :=
  mkSt 0%nat store1 (<["discovered_tokens.csv" := [CsvRow [CText "stale"]]]> ∅) [].

(** A candidate whose probe found an empty name and nothing else. *)
Definition unnamed : Data :=
  mkData "eth" addr1 97 98 "0xtx1" "2023-11-14T22:13:20+00:00"
         (Some "") None None None false [("transfer_log_count", JInt 0)].

(** A candidate whose probe found zero decimals and nothing else. *)
Definition zero_decimals : Data :=
  mkData "eth" addr1 97 98 "0xtx1" "2023-11-14T22:13:20+00:00"
         None None (Some 0) None false [("transfer_log_count", JInt 0)].

(** The contract at [addr1] answers [name()] with Foo and reverts on the
    other calls. *)
Definition foo_calls (f : ErcFn) (a : string) (n : nat) : Exc (fn_val f) :=
  match f as f0 return Exc (fn_val f0) with
  | FnName => Ok "Foo"
  | FnSymbol => Raise (mkExn ContractLogicError "execution reverted")
  | FnDecimals => Raise (mkExn ContractLogicError "execution reverted")
  | FnTotalSupply => Raise (mkExn ContractLogicError "execution reverted")
  end.

(** A chain with its head at 100 whose block 97 holds the transaction
    creating the contract at [addr1]. *)
Definition token_w3 : Web3 nat :=
  w3 (fun _ => Ok 100)
     (fun blk _ => if blk =? 97
                   then Ok (mkBlock [creation "0xtx1"] 1700000000)
                   else Ok empty_block)
     (fun _ _ => Ok (receipt_of addr1))
     foo_calls no_logs.

(** A file that cannot be read, whatever the path. *)
Definition unreadable_io : FileIO nat :=
  mkFileIO nat (fun _ => remote (fun _ => Raise (err "invalid start byte"))).

(** A file whose first read fails and whose later reads give its text. *)
Definition novel : string := "Chapter 1 Dawn" +:+ Str.newline +:+ "It began.".

Definition busy_io : FileIO nat :=
  mkFileIO nat (fun _ => remote (fun n => if Nat.eqb n 0 then Raise (err "busy") else Ok novel)).

(** An endpoint that cannot be reached. *)
Definition down_w3 : Web3 nat :=
  w3 (fun _ => Raise (err "connection refused")) (fun _ _ => Raise (err "connection refused"))
     no_receipt no_call no_logs.

End Script.

(** ** Notions used to state the properties *)

(** The tables the program can produce: the fresh table, and whatever
    [save_token] makes of a table it can produce. *)
Inductive reachable : list Row -> Prop :=
| reach_init : reachable init_db
| reach_save (t : list Row) (data : Data) :
    reachable t ->
    reachable (insert_or_ignore t (data_row (next_rowid t) data)).

(** The number of rows stored under chain label [c] and address [a]. *)
Definition key_count (t : list Row) (c a : string) : nat :=
  length (List.filter (fun r => String.eqb (chain r) c && String.eqb (address r) a) t).

(** A field of a probe result is present when it is not [None]. *)
Definition present {A} (o : option A) : Prop := o <> None.

(** Present and not the empty string. *)
Definition nonempty_text (o : option string) : Prop :=
  exists c s, o = Some (String c s).

(** The heights the height loop went through, in order, each with whether
    its block was fetched, as the console shows them. *)
Fixpoint visited (evs : list Event) : list (Z * bool) :=
  match evs with
  | [] => []
  | Print (MScanning blk _) :: rest => (blk, true) :: visited rest
  | Print (MFailedFetch blk _) :: rest => (blk, false) :: visited rest
  | _ :: rest => visited rest
  end.

(** The last fetched height of a visit list, or [d] when there is none. *)
Definition last_fetched (v : list (Z * bool)) (d : Z) : Z :=
  fold_left (fun (acc : Z) (x : Z * bool) => if snd x then fst x else acc) v d.

(** The contract addresses announced as detected. *)
Fixpoint detected (evs : list Event) : list string :=
  match evs with
  | [] => []
  | Print (MDetected a _ _) :: rest => a :: detected rest
  | _ :: rest => detected rest
  end.

(** Row [a] was inserted before row [b], going by their rowids. *)
Definition id_lt (a b : Row) : Prop := rowid a < rowid b.

(** What every producible table satisfies: addresses are pairwise distinct
    and rowids grow with the position. *)
Definition store_ok (t : list Row) : Prop :=
  List.NoDup (map address t) /\ StronglySorted id_lt t.

(** A relation between the state before and after holds along every run
    of a computation. *)
Definition steps {W A} (R : St W -> St W -> Prop) (m : M W A) : Prop :=
  forall st st' r, m st = (st', r) -> R st st'.

(** The console grew by events that all satisfy [P]. *)
Definition grows {W} (P : Event -> Prop) (st st' : St W) : Prop :=
  exists evs, out st' = out st ++ evs /\ List.Forall P evs.

(** An event that is not a line of the height loop itself. *)
Definition quiet (e : Event) : Prop := visited [e] = [].

(** The table is left as it was. *)
Definition same_db {W} (st st' : St W) : Prop := db st' = db st.

(** The table is left as it was provided every address announced as
    detected was already recorded in it. *)
Definition keeps_known {W} (st st' : St W) : Prop :=
  exists evs,
    out st' = out st ++ evs
    /\ ((forall a, In a (detected evs) -> address_taken (db st) (Py.lower a) = true) ->
        db st' = db st).

(** The endpoint answers a request the same way whenever it is asked: the
    result of a remote read does not depend on the world it is made in. *)
Definition deterministic {W} (w3 : Web3 W) : Prop :=
  (forall blk w w', snd (get_block w3 blk w) = snd (get_block w3 blk w'))
  /\ (forall txh w w',
         snd (get_transaction_receipt w3 txh w) = snd (get_transaction_receipt w3 txh w'))
  /\ (forall f a b w w', snd (eth_call w3 f a b w) = snd (eth_call w3 f a b w'))
  /\ (forall fb tb a ts w w', snd (get_logs w3 fb tb a ts w) = snd (get_logs w3 fb tb a ts w')).

(** Every address recorded in [t] is recorded in [t']. *)
Definition knows_more (t t' : list Row) : Prop :=
  forall a, address_taken t a = true -> address_taken t' a = true.

Definition db_grows {W} (st st' : St W) : Prop := knows_more (db st) (db st').

(** The two export files hold the table of the state: the header row and one
    row per record in the tabular file, one object per record in the
    structured file, in the order of the table. *)
Definition exported {W} (csv_path json_path : string) (st : St W) : Prop :=
  fs st !! csv_path
    = Some (CsvRow (map CText export_headers)
              :: map (fun r => CsvRow (row_cells r)) (db st))
  /\ fs st !! json_path
     = Some [JsonDoc (map (fun r => combine export_headers (row_cells r)) (db st))].

(** A table the program can produce stays one. *)
Definition keeps_reach {W} (st st' : St W) : Prop :=
  reachable (db st) -> reachable (db st').

(** The table and the files are left as they were. *)
Definition same_files {W} (st st' : St W) : Prop :=
  db st' = db st /\ fs st' = fs st.

(** The remote call behind [safe_contract_call], with nothing caught:
    checksum the address, then call the function at the block. *)
Definition raw_call {W} (w3 : Web3 W) (address : string) (f : ErcFn) (blk : Z) (w : W)
    : W * Exc (fn_val f) :=
  match to_checksum_address w3 address with
  | Ok a => eth_call w3 f a (Some blk) w
  | Raise e => (w, Raise e)
  end.

(** The log query of the probe, with nothing caught. *)
Definition raw_logs {W} (w3 : Web3 W) (address : string) (from_block to_block : Z) (w : W)
    : W * Exc (list Log) :=
  match to_checksum_address w3 address with
  | Ok a => get_logs w3 from_block to_block a [TRANSFER_EVENT_SIG] w
  | Raise e => (w, Raise e)
  end.

(** A field of the probe result: the value of a call that succeeded, absent
    for one that failed. *)
Definition field_of {A} (r : Exc A) : option A :=
  match r with
  | Ok v => Some v
  | Raise _ => None
  end.

(** ** The topic of the [Transfer] event, as normalised at import time *)

(** [s.lstrip(chars)]: leading characters that occur in [chars] go. *)
Fixpoint lstrip_chars (chars s : string) : string :=
  match s with
  | String c r =>
      if existsb (Ascii.eqb c) (list_ascii_of_string chars)
      then lstrip_chars chars r
      else s
  | EmptyString => EmptyString
  end.

(** What the module makes of the hexadecimal text [sig] the digest gave:
    [if not sig.startswith("0x"): sig = "0x" + sig.lstrip("0x")]. *)
Definition normalize_transfer_event_sig (sig : string) : string :=
  if negb (String.prefix "0x" sig) then "0x" +:+ lstrip_chars "0x" sig else sig.

(** ** More scripted worlds *)

Module Sample.

(** A file that reads as [text], whatever the path. *)
Definition readable_io (text : string) : FileIO nat :=
  mkFileIO nat (fun _ => Script.remote (fun _ => Ok text)).

(** A short story without headings: five paragraphs between blank lines. *)
Definition story : string :=
  "One." +:+ Str.newline +:+ Str.newline +:+
  "Two." +:+ Str.newline +:+ Str.newline +:+
  "Three." +:+ Str.newline +:+ Str.newline +:+
  "Four." +:+ Str.newline +:+ Str.newline +:+
  "Five." +:+ Str.newline.

(** A text with a preface and two headings. *)
Definition book : string :=
  "Preface" +:+ Str.newline +:+
  "CHAPTER 1 Dawn" +:+ Str.newline +:+ "It began." +:+ Str.newline +:+
  "chapter 2 Dusk" +:+ Str.newline +:+ "It ended." +:+ Str.newline.

(** The default configuration, scanning from above height [s]. *)
Definition args_from (s : Z) : Args :=
  mkArgs (Some s) "eth" 3 DEFAULT_POLL "discovered_tokens.csv" "discovered_tokens.json"
         0 false None false 0.

(** The chain of [Script.token_w3] with a block 97 whose timestamp lies
    after the year 9999. *)
Definition late_w3 : Web3 nat :=
  Script.w3 (fun _ => Ok 100)
     (fun blk _ => if blk =? 97
                   then Ok (mkBlock [Script.creation "0xtx1"] 253402300800)
                   else Ok Script.empty_block)
     (fun _ _ => Ok (Script.receipt_of Script.addr1))
     Script.foo_calls Script.no_logs.

(** A configuration with a run duration, on a chain that stands still. *)
Definition args_timed : Args :=
  mkArgs (Some 100) "eth" 3 DEFAULT_POLL "discovered_tokens.csv" "discovered_tokens.json"
         1 false None false 0.

(** A configuration that stops at one stored row. *)
Definition args_stop : Args :=
  mkArgs (Some 95) "eth" 3 DEFAULT_POLL "discovered_tokens.csv" "discovered_tokens.json"
         0 false None false 1.

(** A configuration with a debug log. *)
Definition args_debug : Args :=
  mkArgs (Some 95) "eth" 3 DEFAULT_POLL "discovered_tokens.csv" "discovered_tokens.json"
         0 false (Some "debug.jsonl") false 0.

(** A block of two ordinary transactions. *)
Definition transfers : Block :=
  mkBlock [mkTx (Ok (Some "0xabc")) "0xtx2"; mkTx (Ok (Some "0xdef")) "0xtx3"] 1700000000.

Definition transfers_w3 : Web3 nat :=
  Script.w3 (fun _ => Ok 100) (fun _ _ => Ok transfers)
     Script.no_receipt Script.no_call Script.no_logs.

End Sample.

(** ** Notions used to state the further properties *)

(** [a] occurs in [b] as a run of consecutive characters. *)
Definition infix_of (a b : string) : Prop :=
  exists pre post : string, b = pre +:+ a +:+ post.

(** Every character of the Latin-1 range. *)
Definition all_ascii : list ascii := map ascii_of_nat (seq 0 256).

(** The string without its first [k] characters. *)
Fixpoint sdrop (k : nat) (s : string) : string :=
  match k, s with
  | O, _ => s
  | S k', String _ r => sdrop k' r
  | S _, EmptyString => EmptyString
  end.

(** Every character of the string is white space. *)
Fixpoint blank (s : string) : bool :=
  match s with
  | EmptyString => true
  | String c r => Re.is_space c && blank r
  end.

(** The paragraphs [_split_by_paragraphs] groups: the pieces between blank
    lines, or the lines when there are fewer than three such pieces. *)
Definition paragraphs_of (content : string) : list string :=
  let paragraphs := stripped_nonempty (Str.split (Str.newline +:+ Str.newline) content) in
  if Nat.ltb (length paragraphs) 3
  then stripped_nonempty (Str.split Str.newline content)
  else paragraphs.

(** The pattern starts with a literal character that no white-space
    character matches. *)
Definition headed (p : Re.Pattern) : bool :=
  match p with
  | Re.One (Re.Lit x) :: _ =>
      forallb (fun c => implb (Ascii.eqb (Py.lower_char x) (Py.lower_char c))
                              (negb (Re.is_space c)))
              all_ascii
  | _ => false
  end.

(** The text is not empty and has no white space at either end. *)
Definition trimmed (s : string) : Prop := s <> "" /\ Str.strip s = s.

(** The atom of a pattern item. *)
Definition item_atom (it : Re.Item) : Re.Atom :=
  match it with Re.One a | Re.Plus a => a end.

(** The pattern holds an item that only a digit can match. *)
Definition needs_digit (p : Re.Pattern) : bool :=
  existsb (fun it => forallb (fun c => implb (Re.atom_ok (item_atom it) c) (Re.is_digit c))
                             all_ascii) p.

(** The text holds a digit. *)
Definition has_digit (s : string) : bool := existsb Re.is_digit (list_ascii_of_string s).

(** The heights of a visit list whose block was fetched, in order. *)
Definition fetched (v : list (Z * bool)) : list Z :=
  map fst (List.filter (fun x : Z * bool => snd x) v).

(** Row [r] stems from a detection line of [evs]: it carries chain label
    [c], found height [target], and the lower-cased address, the
    transaction hash and the height of that line, the height being one of
    [heights]. *)
Definition recorded_from (c : string) (target : Z) (heights : list Z)
    (evs : list Event) (r : Row) : Prop :=
  chain r = c
  /\ found_block r = target
  /\ In (creation_block r) heights
  /\ exists a : string,
       In (Print (MDetected a (tx_hash_col r) (creation_block r))) evs
       /\ address r = Py.lower a.

(** The table grew at its end, by at most one row for each detection line,
    each stemming from such a line. *)
Definition appends {W} (c : string) (target : Z) (heights : list Z)
    (st st' : St W) : Prop :=
  exists evs rows,
    out st' = out st ++ evs
    /\ db st' = db st ++ rows
    /\ (length rows <= length (detected evs))%nat
    /\ List.Forall (recorded_from c target heights evs) rows.

(** Every exception a computation ends in satisfies [P]. *)
Definition raises_only {W A} (P : Exn -> Prop) (m : M W A) : Prop :=
  forall (st st' : St W) (e : Exn), m st = (st', Raise e) -> P e.

(** The exceptions that can escape the scan loop: one raised by the
    check-summing of an address, one raised by the conversion of a block
    timestamp, or the [ValueError] of a sleep of negative length. *)
Definition escapes {W} (w3 : Web3 W) (clock : Clock W) (args : Args) (e : Exn) : Prop :=
  (exists a : string, to_checksum_address w3 a = Raise e)
  \/ (exists t : Z, fromtimestamp_isoformat clock t = Raise e)
  \/ (poll_interval args < 0 /\ exn_kind e = ValueError).

(** The state right after the stop at the configured count: the table
    holds at least that many rows, and the console ends on the line of a
    save, the line that reports the count and the line of the export. *)
Definition stopped_at_count {W} (args : Args) (st : St W) : Prop :=
  0 < stop_at_count args
  /\ stop_at_count args <= Z.of_nat (length (db st))
  /\ exists (pre : list Event) (saved : Msg) (n : nat),
       out st = pre ++ [Print saved;
                        Print (MStopAtCount (Z.of_nat (length (db st))) (stop_at_count args));
                        Print (MExported n (csv_output args) (json_output args))]
       /\ ((exists a nm sy dec, saved = MSavedToken a nm sy dec)
           \/ (exists a, saved = MSavedContract a)).

(** File [p] holds what it held. *)
Definition keeps_file {W} (p : string) (st st' : St W) : Prop := fs st' !! p = fs st !! p.

(** Two items of the same kind whose atoms accept the same characters. *)
Definition item_same (x y : Re.Item) : bool :=
  match x, y with
  | Re.One a, Re.One b | Re.Plus a, Re.Plus b =>
      forallb (fun c => Bool.eqb (Re.atom_ok a c) (Re.atom_ok b c)) all_ascii
  | _, _ => false
  end.

Fixpoint pattern_same (p q : Re.Pattern) : bool :=
  match p, q with
  | [], [] => true
  | x :: p', y :: q' => item_same x y && pattern_same p' q'
  | _, _ => false
  end.

(** * Properties *)

(** ** The store *)

Lemma address_taken_In (t : list Row) (a : string) :
  address_taken t a = true <-> exists r, In r t /\ address r = a.
Proof.
  unfold address_taken. rewrite existsb_exists.
  split; intros (r & Hin & Heq); exists r; split; auto.
  - now apply String.eqb_eq.
  - now apply String.eqb_eq.
Qed.

Lemma address_taken_not_In (t : list Row) (a : string) :
  address_taken t a = false -> ~ In a (map address t).
Proof.
  intros Hf Hin. apply in_map_iff in Hin. destruct Hin as (r & Heq & Hin).
  assert (address_taken t a = true) by (apply address_taken_In; eauto).
  congruence.
Qed.

Lemma rowid_lt_next (t : list Row) :
  Forall (fun r => rowid r < next_rowid t) t.
Proof.
  unfold next_rowid. induction t as [|x t IH]; constructor; simpl.
  - lia.
  - eapply List.Forall_impl; [|exact IH]. simpl. intros r Hr. lia.
Qed.

Lemma sorted_snoc (t : list Row) (r : Row) :
  StronglySorted id_lt t ->
  Forall (fun x => rowid x < rowid r) t ->
  StronglySorted id_lt (t ++ [r]).
Proof.
  induction 1 as [|x t Hs IH Hx]; intros Hall; simpl.
  - repeat constructor.
  - inversion Hall; subst. constructor; auto.
    apply Forall_app. split; auto.
Qed.

Lemma NoDup_snoc {A} (l : list A) (a : A) :
  List.NoDup l -> ~ In a l -> List.NoDup (l ++ [a]).
Proof.
  induction 1 as [|x l Hx Hnd IH]; intros Ha; simpl.
  - constructor; [intros []|constructor].
  - constructor.
    + intros Hin. apply in_app_or in Hin. destruct Hin as [Hin|[Heq|[]]].
      * now apply Hx.
      * apply Ha. left. now symmetry.
    + apply IH. intros Hin. apply Ha. now right.
Qed.

Lemma insert_or_ignore_ok (t : list Row) (data : Data) :
  store_ok t -> store_ok (insert_or_ignore t (data_row (next_rowid t) data)).
Proof.
  intros [Hnd Hs]. unfold insert_or_ignore.
  destruct (address_taken t _) eqn:Ht; [split; assumption|].
  split.
  - rewrite map_app. simpl. apply NoDup_snoc; auto.
    now apply address_taken_not_In.
  - apply sorted_snoc; auto. apply rowid_lt_next.
Qed.

Lemma reachable_ok (t : list Row) : reachable t -> store_ok t.
Proof.
  induction 1.
  - split; constructor.
  - now apply insert_or_ignore_ok.
Qed.

Lemma filter_none {A} (f : A -> bool) (l : list A) :
  (forall x, In x l -> f x = false) -> List.filter f l = [].
Proof.
  induction l as [|x l IH]; simpl; intros H; [reflexivity|].
  rewrite (H x) by now left. apply IH. intros y Hy. apply H. now right.
Qed.

Lemma NoDup_key_count (t : list Row) (c a : string) :
  List.NoDup (map address t) -> (key_count t c a <= 1)%nat.
Proof.
  unfold key_count. induction t as [|x t IH]; simpl; intros Hnd; [lia|].
  inversion Hnd as [|? ? Hnotin Hnd']; subst.
  destruct (String.eqb (chain x) c && String.eqb (address x) a) eqn:Hk; simpl.
  - apply andb_true_iff in Hk. destruct Hk as [_ Ha]. apply String.eqb_eq in Ha.
    assert (Hz : List.filter (fun r => String.eqb (chain r) c && String.eqb (address r) a) t = []).
    { apply filter_none. intros r Hin.
      destruct (String.eqb (address r) a) eqn:Hr; [|now rewrite andb_false_r].
      apply String.eqb_eq in Hr. exfalso. apply Hnotin. rewrite Ha, <- Hr.
      now apply in_map. }
    rewrite Hz. simpl. lia.
  - now apply IH.
Qed.

(** ** Running monadic code *)

Lemma bind_inv {W A B} (m : M W A) (k : A -> M W B) (st st' : St W) (r : Exc B) :
  bind m k st = (st', r) ->
  (exists st1 a, m st = (st1, Ok a) /\ k a st1 = (st', r))
  \/ (exists e, m st = (st', Raise e) /\ r = Raise e).
Proof.
  unfold bind. destruct (m st) as [st1 [a|e]]; intros H.
  - left. eauto.
  - right. inversion H; subst. eauto.
Qed.

Lemma try_except_inv {W A} (m : M W A) (h : Exn -> M W A) (st st' : St W) (r : Exc A) :
  try_except m h st = (st', r) ->
  (exists a, m st = (st', Ok a) /\ r = Ok a)
  \/ (exists st1 e, m st = (st1, Raise e) /\ h e st1 = (st', r)).
Proof.
  unfold try_except. destruct (m st) as [st1 [a|e]]; intros H.
  - left. inversion H; subst. eauto.
  - right. eauto.
Qed.

Lemma st_eta {W} (st : St W) : mkSt (world st) (db st) (fs st) (out st) = st.
Proof. now destruct st. Qed.

Section Steps.

Context {W : Type} (R : St W -> St W -> Prop).
Hypothesis R_refl : forall st, R st st.
Hypothesis R_trans : forall a b c, R a b -> R b c -> R a c.

Lemma steps_ret {A} (a : A) : steps R (ret a).
Proof. intros st st' r H. inversion H; subst. apply R_refl. Qed.

Lemma steps_raise {A} (e : Exn) : steps R (@raise W A e).
Proof. intros st st' r H. inversion H; subst. apply R_refl. Qed.

Lemma steps_of_exc {A} (x : Exc A) : steps R (of_exc x).
Proof. intros st st' r H. inversion H; subst. apply R_refl. Qed.

Lemma steps_get_db : steps R get_db.
Proof. intros st st' r H. inversion H; subst. apply R_refl. Qed.

Lemma steps_bind {A B} (m : M W A) (k : A -> M W B) :
  steps R m -> (forall a, steps R (k a)) -> steps R (bind m k).
Proof.
  intros Hm Hk st st' r H. apply bind_inv in H.
  destruct H as [(st1 & a & H1 & H2)|(e & H1 & _)].
  - eapply R_trans; [eapply Hm, H1|eapply Hk, H2].
  - eapply Hm, H1.
Qed.

Lemma steps_try_except {A} (m : M W A) (h : Exn -> M W A) :
  steps R m -> (forall e, steps R (h e)) -> steps R (try_except m h).
Proof.
  intros Hm Hh st st' r H. apply try_except_inv in H.
  destruct H as [(a & H1 & _)|(st1 & e & H1 & H2)].
  - eapply Hm, H1.
  - eapply R_trans; [eapply Hm, H1|eapply Hh, H2].
Qed.

End Steps.

Lemma grows_refl {W} (P : Event -> Prop) (st : St W) : grows P st st.
Proof. exists []. split; [now rewrite app_nil_r|constructor]. Qed.

Lemma grows_trans {W} (P : Event -> Prop) (a b c : St W) :
  grows P a b -> grows P b c -> grows P a c.
Proof.
  intros (e1 & H1 & F1) (e2 & H2 & F2). exists (e1 ++ e2). split.
  - now rewrite H2, H1, app_assoc.
  - apply List.Forall_app. now split.
Qed.

Section Grows.

Context {W : Type} (P : Event -> Prop).

Lemma grows_on_world {A} (op : W -> W * Exc A) : steps (grows P) (on_world op).
Proof.
  intros st st' r H. unfold on_world in H. destruct (op (world st)).
  inversion H; subst. exists []. simpl. split; [now rewrite app_nil_r|constructor].
Qed.

Lemma grows_on_clock {A} (op : W -> W * A) : steps (grows P) (on_clock op).
Proof.
  intros st st' r H. unfold on_clock in H. destruct (op (world st)).
  inversion H; subst. exists []. simpl. split; [now rewrite app_nil_r|constructor].
Qed.

Lemma grows_emit (e : Event) : P e -> steps (grows P) (@emit W e).
Proof.
  intros He st st' r H. inversion H; subst. exists [e]. simpl.
  split; [reflexivity|now constructor].
Qed.

Lemma grows_print (m : Msg) : P (Print m) -> steps (grows P) (@print W m).
Proof. apply grows_emit. Qed.

Lemma grows_sleep (n : Z) : P (Sleep n) -> steps (grows P) (@sleep W n).
Proof.
  intros He. unfold sleep. destruct (n <? 0).
  - apply steps_raise. apply grows_refl.
  - now apply grows_emit.
Qed.

Lemma grows_write_file (path : string) (c : list Chunk) :
  steps (grows P) (@write_file W path c).
Proof.
  intros st st' r H. inversion H; subst. exists []. simpl.
  split; [now rewrite app_nil_r|constructor].
Qed.

Lemma grows_append_file (path : string) (c : Chunk) :
  steps (grows P) (@append_file W path c).
Proof.
  intros st st' r H. inversion H; subst. exists []. simpl.
  split; [now rewrite app_nil_r|constructor].
Qed.

Lemma grows_put_db (t : list Row) : steps (grows P) (@put_db W t).
Proof.
  intros st st' r H. inversion H; subst. exists []. simpl.
  split; [now rewrite app_nil_r|constructor].
Qed.

End Grows.

Create HintDb quiet.
#[export] Hint Resolve grows_on_world grows_on_clock grows_write_file
  grows_append_file grows_put_db : quiet.
#[export] Hint Extern 1 (steps (grows quiet) (print _)) =>
  apply grows_print; reflexivity : quiet.
#[export] Hint Extern 1 (steps (grows quiet) (sleep _)) =>
  apply grows_sleep; reflexivity : quiet.

(** Walk down the structure of a computation, leaving the primitive
    operations to the hints. *)
Ltac quiet_steps :=
  repeat first
    [ apply (steps_ret _ (grows_refl quiet))
    | apply (steps_raise _ (grows_refl quiet))
    | apply (steps_of_exc _ (grows_refl quiet))
    | apply (steps_get_db _ (grows_refl quiet))
    | apply (steps_bind _ (grows_trans quiet)); [|intros]
    | apply (steps_try_except _ (grows_trans quiet)); [|intros]
    | match goal with
      | |- steps _ (match ?x with _ => _ end) => destruct x
      end
    | progress cbv zeta
    | solve [eauto with quiet] ].

Section QuietScanner.

Context {W : Type} (w3 : Web3 W) (clock : Clock W).

Lemma quiet_already_seen (a : string) : steps (grows quiet) (@already_seen W a).
Proof. unfold already_seen. quiet_steps. Qed.

Lemma quiet_save_token (d : Data) : steps (grows quiet) (@save_token W d).
Proof. unfold save_token. quiet_steps. Qed.

Lemma quiet_count_tokens : steps (grows quiet) (@count_tokens W).
Proof. unfold count_tokens. quiet_steps. Qed.

Lemma quiet_export (c j : string) : steps (grows quiet) (@export_csv_json W c j).
Proof. unfold export_csv_json. quiet_steps. Qed.

Lemma quiet_safe_contract_call (a : string) (f : ErcFn) (b : option Z) :
  steps (grows quiet) (safe_contract_call w3 a f b).
Proof. unfold safe_contract_call. quiet_steps. Qed.

#[local] Hint Resolve quiet_already_seen quiet_save_token quiet_count_tokens
  quiet_export quiet_safe_contract_call : quiet.

Lemma quiet_inspect_contract (a : string) (cb fb : Z) :
  steps (grows quiet) (inspect_contract w3 a cb fb).
Proof. unfold inspect_contract. quiet_steps. Qed.

Lemma quiet_record_candidate (args : Args) (a : string) (d : Data) :
  steps (grows quiet) (@record_candidate W args a d).
Proof. unfold record_candidate. quiet_steps. Qed.

#[local] Hint Resolve quiet_inspect_contract quiet_record_candidate : quiet.

Lemma quiet_process_candidate args latest target blk block tx a :
  steps (grows quiet) (process_candidate w3 clock args latest target blk block tx a).
Proof. unfold process_candidate. quiet_steps. Qed.

#[local] Hint Resolve quiet_process_candidate : quiet.

Lemma quiet_handle_tx args latest target blk block tx :
  steps (grows quiet) (handle_tx w3 clock args latest target blk block tx).
Proof. unfold handle_tx. quiet_steps. Qed.

#[local] Hint Resolve quiet_handle_tx : quiet.

Lemma quiet_for_txs args latest target blk block txs :
  steps (grows quiet) (for_txs w3 clock args latest target blk block txs).
Proof. induction txs as [|tx rest IH]; simpl; quiet_steps. Qed.

End QuietScanner.

(** ** The height loop and the watermark *)

Lemma visited_app (a b : list Event) : visited (a ++ b) = visited a ++ visited b.
Proof.
  induction a as [|e a IH]; simpl; [reflexivity|].
  destruct e as [m|n]; [|exact IH].
  destruct m; simpl; rewrite ?IH; reflexivity.
Qed.

Lemma visited_quiet (evs : list Event) : List.Forall quiet evs -> visited evs = [].
Proof.
  induction 1 as [|e evs He _ IH]; [reflexivity|].
  change (e :: evs) with ([e] ++ evs). rewrite visited_app, IH, app_nil_r. exact He.
Qed.

Lemma last_fetched_app (a b : list (Z * bool)) (d : Z) :
  last_fetched (a ++ b) d = last_fetched b (last_fetched a d).
Proof. unfold last_fetched. apply fold_left_app. Qed.

Lemma last_fetched_cases (v : list (Z * bool)) (d : Z) :
  last_fetched v d = d \/ In (last_fetched v d, true) v.
Proof.
  revert d. induction v as [|[b ok] v IH]; intros d; simpl; [now left|].
  unfold last_fetched in *. simpl. destruct ok.
  - destruct (IH b) as [H|H]; [rewrite H; right; now left|right; now right].
  - destruct (IH d) as [H|H]; [now left|right; now right].
Qed.

Lemma range_cons (a b : Z) : a < b -> Py.range a b = a :: Py.range (a + 1) b.
Proof.
  intros H. unfold Py.range.
  replace (Z.to_nat (b - a)) with (S (Z.to_nat (b - (a + 1)))) by lia.
  rewrite <- cons_seq. simpl. f_equal; [lia|].
  rewrite <- seq_shift, map_map. apply map_ext. intros i. lia.
Qed.

Lemma range_nil (a b : Z) : b <= a -> Py.range a b = [].
Proof.
  intros H. unfold Py.range. replace (Z.to_nat (b - a)) with 0%nat by lia. reflexivity.
Qed.

Lemma range_In (a b x : Z) : In x (Py.range a b) <-> a <= x < b.
Proof.
  unfold Py.range. rewrite in_map_iff. split.
  - intros (i & Hi & Hin). apply in_seq in Hin. lia.
  - intros H. exists (Z.to_nat (x - a)). split; [lia|]. apply in_seq. lia.
Qed.

Lemma range_sorted (a b : Z) : StronglySorted Z.lt (Py.range a b).
Proof.
  unfold Py.range. generalize (Z.to_nat (b - a)) as n. intros n. revert a.
  induction n as [|n IH]; intros a; simpl; [constructor|].
  constructor.
  - rewrite <- seq_shift, map_map.
    replace (map (fun x => a + Z.of_nat (S x)) (seq 0 n))
      with (map (fun i => (a + 1) + Z.of_nat i) (seq 0 n))
      by (apply map_ext; intros; lia).
    apply IH.
  - apply List.Forall_forall. intros x Hx. apply in_map_iff in Hx.
    destruct Hx as (i & Hi & Hin). apply in_seq in Hin. lia.
Qed.

Section HeightLoop.

Context {W : Type} (w3 : Web3 W) (clock : Clock W).

(** One height: a single line of the height loop is written for it, and
    the watermark moves to it exactly when its block was fetched. *)
Lemma scan_height_visits args latest target lpb blk (st st' : St W) c lpb' :
  scan_height w3 clock args latest target lpb blk st = (st', Ok (c, lpb')) ->
  exists evs ok,
    out st' = out st ++ evs
    /\ visited evs = [(blk, ok)]
    /\ (c = Next -> lpb' = if ok then blk else lpb).
Proof.
  unfold scan_height. intros H.
  unfold bind at 1, try_except, bind at 1, on_world in H.
  destruct (get_block w3 blk (world st)) as [w1 [block|e]]; simpl in H.
  - unfold bind at 1, print, emit in H. simpl in H.
    apply bind_inv in H. destruct H as [(st2 & c2 & Hf & H)|(e & _ & He)]; [|discriminate].
    apply quiet_for_txs in Hf. destruct Hf as (evs & Hout & Hq). simpl in Hout.
    exists (Print (MScanning blk (length (transactions block))) :: evs), true.
    destruct c2; inversion H; subst; clear H.
    + split; [now rewrite Hout, <- app_assoc|]. split.
      * simpl. now rewrite (visited_quiet evs Hq).
      * reflexivity.
    + split; [now rewrite Hout, <- app_assoc|]. split.
      * simpl. now rewrite (visited_quiet evs Hq).
      * discriminate.
  - unfold bind, print, emit, ret in H. simpl in H. inversion H; subst; clear H.
    exists [Print (MFailedFetch blk (exn_msg e))], false. simpl. auto.
Qed.

(** The whole loop: every height of the range gets its line, in order,
    and the watermark ends at the last fetched one. *)
Lemma for_heights_visits args latest target heights :
  forall lpb (st st' : St W) lpb',
    for_heights w3 clock args latest target lpb heights st = (st', Ok (Next, lpb')) ->
    exists evs,
      out st' = out st ++ evs
      /\ map fst (visited evs) = heights
      /\ lpb' = last_fetched (visited evs) lpb.
Proof.
  induction heights as [|blk rest IH]; intros lpb st st' lpb' H; simpl in H.
  - inversion H; subst. exists []. simpl. split; [now rewrite app_nil_r|auto].
  - apply bind_inv in H. destruct H as [(st1 & [c b] & Hs & H)|(e & _ & He)]; [|discriminate].
    apply scan_height_visits in Hs. destruct Hs as (evs1 & ok & Hout1 & Hv1 & Hb).
    destruct c; [|inversion H].
    apply IH in H. destruct H as (evs2 & Hout2 & Hv2 & Hl).
    exists (evs1 ++ evs2). split; [now rewrite Hout2, Hout1, app_assoc|].
    rewrite visited_app, Hv1. simpl. split; [now rewrite Hv2|].
    rewrite Hl, (Hb eq_refl). unfold last_fetched. simpl. reflexivity.
Qed.

End HeightLoop.

(** Take apart a run of [bind m k] that ended without raising. *)
Ltac inv_bind H st1 a H1 :=
  apply bind_inv in H;
  destruct H as [(st1 & a & H1 & H)|(? & _ & ?)]; [|discriminate].

Section Tick.

Context {W : Type} (w3 : Web3 W) (clock : Clock W).

Lemma sleep_then_continue (n : Z) (o : Outcome) (st st' : St W) (o' : Outcome) :
  (sleep n ;;; ret o) st = (st', Ok o') ->
  o' = o /\ grows quiet st st'.
Proof.
  intros H. inv_bind H st1 u H1. inversion H; subst. split; [reflexivity|].
  eapply grows_sleep; [|exact H1]. reflexivity.
Qed.

(** A pass that goes round again: the console shows the heights visited,
    all above the old watermark and increasing, and the new watermark is
    the last fetched one. *)
Lemma tick_visits args start w (st st' : St W) wm' :
  tick w3 clock args start (Some w) st = (st', Ok (Continue wm')) ->
  exists evs,
    out st' = out st ++ evs
    /\ wm' = Some (last_fetched (visited evs) w)
    /\ StronglySorted Z.lt (map fst (visited evs))
    /\ (forall b, In b (map fst (visited evs)) -> w < b)
    /\ (visited evs = []
        \/ exists w1 latest,
             block_number w3 (world st) = (w1, Ok latest)
             /\ map fst (visited evs)
                = Py.range (w + 1) (latest - confirmations args + 1 + 1)).
Proof.
  unfold tick. intros H. inv_bind H st1 r Htry.
  apply try_except_inv in Htry.
  destruct Htry as [(a & Hm & Ha)|(st0 & e & Hm & Hh)].
  - inversion Ha; subst r; clear Ha.
    inv_bind Hm stx latest Hbn. inversion Hm; subst stx a; clear Hm.
    assert (Hhead : block_number w3 (world st) = (world st1, Ok latest)).
    { unfold on_world in Hbn. destruct (block_number w3 (world st)) as [w1 r1].
      inversion Hbn; subst. reflexivity. }
    apply grows_on_world with (P := quiet) in Hbn.
    destruct Hbn as (evs1 & Hout1 & Hq1).
    assert (Hgoal : exists evs,
               out st' = out st1 ++ evs
               /\ wm' = Some (last_fetched (visited evs) w)
               /\ StronglySorted Z.lt (map fst (visited evs))
               /\ (forall b, In b (map fst (visited evs)) -> w < b)
               /\ (visited evs = []
                   \/ map fst (visited evs)
                      = Py.range (w + 1) (latest - confirmations args + 1 + 1))).
    { destruct (latest <=? w) eqn:E1.
      { apply sleep_then_continue in H. destruct H as [Ho (evs & Hout & Hq)].
        inversion Ho; subst. exists evs.
        rewrite (visited_quiet evs Hq). simpl. repeat split; auto.
        - constructor.
        - intros b []. }
      destruct (latest - confirmations args + 1 <=? w) eqn:E2.
      { apply sleep_then_continue in H. destruct H as [Ho (evs & Hout & Hq)].
        inversion Ho; subst. exists evs.
        rewrite (visited_quiet evs Hq). simpl. repeat split; auto.
        - constructor.
        - intros b []. }
      inv_bind H st2 r Hf. destruct r as [c lpb2]. destruct c.
      2:{ inversion H. }
      apply for_heights_visits in Hf. destruct Hf as (evs2 & Hout2 & Hv2 & Hl).
      inv_bind H st3 u He.
      apply quiet_export in He. destruct He as (evs3 & Hout3 & Hq3).
      assert (Htail : exists evs4, out st' = out st3 ++ evs4 /\ List.Forall quiet evs4
                                   /\ wm' = Some lpb2).
      { destruct (run_duration args =? 0).
        - apply sleep_then_continue in H. destruct H as [Ho (evs & Hout & Hq)].
          inversion Ho; subst. eauto.
        - inv_bind H st4 now Hn.
          apply grows_on_clock with (P := quiet) in Hn.
          destruct Hn as (evs4 & Hout4 & Hq4).
          destruct (run_duration args <=? now - start).
          + inv_bind H st5 u5 Hp. inversion H.
          + apply sleep_then_continue in H. destruct H as [Ho (evs & Hout & Hq)].
            inversion Ho; subst. exists (evs4 ++ evs). split.
            * now rewrite Hout, Hout4, app_assoc.
            * split; [apply List.Forall_app; now split|reflexivity]. }
      destruct Htail as (evs4 & Hout4 & Hq4 & Hwm).
      exists (evs2 ++ evs3 ++ evs4). split.
      { now rewrite Hout4, Hout3, Hout2, !app_assoc. }
      rewrite !visited_app, (visited_quiet evs3 Hq3), (visited_quiet evs4 Hq4), !app_nil_r.
      rewrite Hv2. split; [now rewrite Hwm, Hl|]. split; [|split].
      + apply range_sorted.
      + intros b Hb. apply range_In in Hb. lia.
      + now right. }
    destruct Hgoal as (evs & Hout & Hwm & Hs & Ha & Hrange).
    exists (evs1 ++ evs). split; [now rewrite Hout, Hout1, app_assoc|].
    rewrite visited_app, (visited_quiet evs1 Hq1). simpl.
    repeat split; auto.
    destruct Hrange as [Hn|Hrange]; [now left|right; eauto].
  - assert (Hq : grows quiet st0 st1 /\ r = None).
    { inv_bind Hh st2 u Hp. inv_bind Hh st3 u3 Hs. inversion Hh; subst.
      apply grows_print with (P := quiet) in Hp; [|reflexivity].
      apply grows_sleep with (P := quiet) in Hs; [|reflexivity].
      split; [eapply grows_trans; eauto|reflexivity]. }
    destruct Hq as [Hq Hr]. subst r. inversion H; subst.
    assert (Hw : grows quiet st st0).
    { revert Hm. apply (steps_bind _ (grows_trans quiet)).
      - apply grows_on_world.
      - intros. apply steps_ret. apply grows_refl. }
    destruct (grows_trans _ _ _ _ Hw Hq) as (evs & Hout & Hqq).
    exists evs. rewrite (visited_quiet evs Hqq). simpl.
    repeat split; auto.
    + constructor.
    + intros b [].
Qed.

End Tick.

(** ** Re-observing recorded addresses *)

(** Walk down a computation for any relation that is reflexive and
    transitive, leaving the operations to [leaf]. *)
Ltac steps_walk Hrefl Htrans leaf :=
  repeat first
    [ leaf
    | apply (steps_ret _ (Hrefl _))
    | apply (steps_raise _ (Hrefl _))
    | apply (steps_of_exc _ (Hrefl _))
    | apply (steps_get_db _ (Hrefl _))
    | apply (steps_bind _ (Htrans _)); [|intros]
    | apply (steps_try_except _ (Htrans _)); [|intros]
    | match goal with
      | |- steps _ (match ?x with _ => _ end) => destruct x
      end
    | progress cbv zeta ].

Lemma same_db_refl {W} (st : St W) : same_db st st.
Proof. reflexivity. Qed.

Lemma same_db_trans {W} (a b c : St W) : same_db a b -> same_db b c -> same_db a c.
Proof. unfold same_db. congruence. Qed.

Lemma same_db_on_world {W A} (op : W -> W * Exc A) : steps same_db (on_world op).
Proof.
  intros st st' r H. unfold on_world in H. destruct (op (world st)).
  inversion H; subst. reflexivity.
Qed.

Lemma same_db_on_clock {W A} (op : W -> W * A) : steps same_db (on_clock op).
Proof.
  intros st st' r H. unfold on_clock in H. destruct (op (world st)).
  inversion H; subst. reflexivity.
Qed.

Lemma same_db_emit {W} (e : Event) : steps same_db (@emit W e).
Proof. intros st st' r H. inversion H; subst. reflexivity. Qed.

Lemma same_db_print {W} (m : Msg) : steps same_db (@print W m).
Proof. apply same_db_emit. Qed.

Lemma same_db_sleep {W} (n : Z) : steps same_db (@sleep W n).
Proof.
  unfold sleep. destruct (n <? 0).
  - apply steps_raise. apply same_db_refl.
  - apply same_db_emit.
Qed.

Lemma same_db_write_file {W} (path : string) (c : list Chunk) :
  steps same_db (@write_file W path c).
Proof. intros st st' r H. inversion H; subst. reflexivity. Qed.

Lemma same_db_append_file {W} (path : string) (c : Chunk) :
  steps same_db (@append_file W path c).
Proof. intros st st' r H. inversion H; subst. reflexivity. Qed.

Create HintDb same_db.
#[export] Hint Resolve same_db_on_world same_db_on_clock same_db_print same_db_sleep
  same_db_write_file same_db_append_file : same_db.

Ltac same_db_steps :=
  steps_walk (@same_db_refl) (@same_db_trans) ltac:(solve [eauto with same_db]).

Lemma same_db_export {W} (c j : string) : steps same_db (@export_csv_json W c j).
Proof. unfold export_csv_json. same_db_steps. Qed.

Lemma same_db_already_seen {W} (a : string) : steps same_db (@already_seen W a).
Proof. unfold already_seen. same_db_steps. Qed.

Lemma detected_app (a b : list Event) : detected (a ++ b) = detected a ++ detected b.
Proof.
  induction a as [|e a IH]; simpl; [reflexivity|].
  destruct e as [m|n]; [|exact IH].
  destruct m; simpl; rewrite ?IH; reflexivity.
Qed.

Lemma keeps_known_refl {W} (st : St W) : keeps_known st st.
Proof. exists []. split; [now rewrite app_nil_r|reflexivity]. Qed.

Lemma keeps_known_trans {W} (a b c : St W) :
  keeps_known a b -> keeps_known b c -> keeps_known a c.
Proof.
  intros (e1 & H1 & K1) (e2 & H2 & K2). exists (e1 ++ e2). split.
  - now rewrite H2, H1, app_assoc.
  - intros Hall. rewrite detected_app in Hall.
    assert (Hb : db b = db a).
    { apply K1. intros x Hx. apply Hall. apply in_or_app. now left. }
    rewrite <- Hb. apply K2. intros x Hx. rewrite Hb. apply Hall.
    apply in_or_app. now right.
Qed.

(** An operation that writes to the console at most and leaves the table
    alone keeps what is known. *)
Lemma keeps_known_calm {W A} (P : Event -> Prop) (m : M W A) :
  steps (grows P) m -> steps same_db m -> steps keeps_known m.
Proof.
  intros Hg Hs st st' r H. destruct (Hg _ _ _ H) as (evs & Hout & _).
  exists evs. split; [exact Hout|]. intros _. exact (Hs _ _ _ H).
Qed.

Create HintDb known.
#[export] Hint Extern 1 (steps keeps_known (on_world _)) =>
  apply (keeps_known_calm quiet); [apply grows_on_world|apply same_db_on_world] : known.
#[export] Hint Extern 1 (steps keeps_known (on_clock _)) =>
  apply (keeps_known_calm quiet); [apply grows_on_clock|apply same_db_on_clock] : known.
#[export] Hint Extern 1 (steps keeps_known (print _)) =>
  apply (keeps_known_calm (fun _ => True));
    [apply grows_print; exact I|apply same_db_print] : known.
#[export] Hint Extern 1 (steps keeps_known (sleep _)) =>
  apply (keeps_known_calm (fun _ => True));
    [apply grows_sleep; exact I|apply same_db_sleep] : known.
#[export] Hint Extern 1 (steps keeps_known (export_csv_json _ _)) =>
  apply (keeps_known_calm quiet); [apply quiet_export|apply same_db_export] : known.

Ltac known_steps :=
  steps_walk (@keeps_known_refl) (@keeps_known_trans) ltac:(solve [eauto with known]).

Section Known.

Context {W : Type} (w3 : Web3 W) (clock : Clock W).

(** From the detection line on: an address already recorded is skipped, and
    a new one is announced before anything is saved for it. *)
Lemma keeps_known_detected args latest target blk block tx a :
  steps keeps_known
    (print (MDetected a (tx_hash tx) blk) ;;;
     seen <- already_seen a ;;
     if seen then print MAlready ;;; ret Next
     else process_candidate w3 clock args latest target blk block tx a).
Proof.
  intros st st' r H.
  apply bind_inv in H. destruct H as [(st1 & u & Hp & H)|(e & Hp & _)].
  2:{ inversion Hp. }
  inversion Hp; subst st1; clear Hp.
  apply bind_inv in H. destruct H as [(st2 & seen & Hs & H)|(e & Hs & _)].
  2:{ inversion Hs. }
  inversion Hs; subst st2 seen; clear Hs. simpl in H.
  destruct (address_taken (db st) (Py.lower a)) eqn:Hseen.
  - assert (Hg : grows quiet (mkSt (world st) (db st) (fs st)
                                   (out st ++ [Print (MDetected a (tx_hash tx) blk)])) st').
    { revert H. apply (steps_bind _ (grows_trans quiet)).
      - apply grows_print. reflexivity.
      - intros. apply steps_ret. apply grows_refl. }
    assert (Hs : same_db (mkSt (world st) (db st) (fs st)
                               (out st ++ [Print (MDetected a (tx_hash tx) blk)])) st').
    { revert H. apply (steps_bind _ (@same_db_trans W)).
      - apply same_db_print.
      - intros. apply steps_ret. apply same_db_refl. }
    destruct Hg as (evs & Hout & _).
    exists (Print (MDetected a (tx_hash tx) blk) :: evs). split.
    + simpl in Hout. now rewrite Hout, <- app_assoc.
    + intros _. exact Hs.
  - apply quiet_process_candidate in H. destruct H as (evs & Hout & _).
    exists (Print (MDetected a (tx_hash tx) blk) :: evs). split.
    + simpl in Hout. now rewrite Hout, <- app_assoc.
    + intros Hall. specialize (Hall a (or_introl eq_refl)). congruence.
Qed.

#[local] Hint Resolve keeps_known_detected : known.

Lemma keeps_known_handle_tx args latest target blk block tx :
  steps keeps_known (handle_tx w3 clock args latest target blk block tx).
Proof. unfold handle_tx. known_steps. Qed.

#[local] Hint Resolve keeps_known_handle_tx : known.

Lemma keeps_known_for_txs args latest target blk block txs :
  steps keeps_known (for_txs w3 clock args latest target blk block txs).
Proof. induction txs as [|tx rest IH]; simpl; known_steps. Qed.

#[local] Hint Resolve keeps_known_for_txs : known.

Lemma keeps_known_scan_height args latest target lpb blk :
  steps keeps_known (scan_height w3 clock args latest target lpb blk).
Proof. unfold scan_height. known_steps. Qed.

#[local] Hint Resolve keeps_known_scan_height : known.

Lemma keeps_known_for_heights args latest target heights :
  forall lpb, steps keeps_known (for_heights w3 clock args latest target lpb heights).
Proof. induction heights as [|blk rest IH]; intros lpb; simpl; known_steps. Qed.

#[local] Hint Resolve keeps_known_for_heights : known.

Lemma keeps_known_tick args start lpb :
  steps keeps_known (tick w3 clock args start lpb).
Proof. unfold tick. known_steps. Qed.

End Known.

Lemma save_token_run {W} (data : Data) (st : St W) :
  save_token data st
  = (mkSt (world st)
          (insert_or_ignore (db st) (data_row (next_rowid (db st)) data))
          (fs st) (out st),
     Ok tt).
Proof. reflexivity. Qed.

Lemma save_token_known {W} (data : Data) (st : St W) :
  address_taken (db st) (Py.lower (d_address data)) = true ->
  save_token data st = (st, Ok tt).
Proof.
  intros H. rewrite save_token_run. unfold insert_or_ignore. simpl.
  rewrite H. now rewrite st_eta.
Qed.

Lemma already_seen_run {W} (a : string) (st : St W) :
  already_seen a st = (st, Ok (address_taken (db st) (Py.lower a))).
Proof. reflexivity. Qed.

(** ** Plausibility and recording *)

Lemma truthy_nonempty (o : option string) : Py.truthy o = true <-> nonempty_text o.
Proof.
  unfold nonempty_text. destruct o as [[|c s]|]; simpl; split; intros H;
    try discriminate; eauto.
  - destruct H as (c & s & H). discriminate.
  - destruct H as (c & s & H). discriminate.
Qed.

(** What [record_candidate] does to the table: the candidate is inserted
    exactly when it is plausible or every candidate is saved. *)
Lemma record_candidate_db {W} (args : Args) (a : string) (data : Data)
    (st st' : St W) (r : Exc Ctl) :
  record_candidate args a data st = (st', r) ->
  db st' = if plausible data || save_all args
           then insert_or_ignore (db st) (data_row (next_rowid (db st)) data)
           else db st.
Proof.
  unfold record_candidate. destruct (plausible data || save_all args) eqn:E.
  - intros H. apply bind_inv in H.
    destruct H as [(st1 & u & Hs & H)|(e & Hs & _)]; [|inversion Hs].
    rewrite save_token_run in Hs. inversion Hs; subst st1; clear Hs.
    assert (Hd : same_db (mkSt (world st)
                   (insert_or_ignore (db st) (data_row (next_rowid (db st)) data))
                   (fs st) (out st)) st').
    { revert H. pose proof (@same_db_export W) as Hx. same_db_steps. }
    exact Hd.
  - intros H. inversion H; subst. reflexivity.
Qed.

(** ** The probe *)

Lemma safe_contract_call_run {W} (w3 : Web3 W) (a : string) (f : ErcFn) (blk : Z)
    (st : St W) :
  safe_contract_call w3 a f (Some blk) st
  = (mkSt (fst (raw_call w3 a f blk (world st))) (db st) (fs st) (out st),
     Ok (match snd (raw_call w3 a f blk (world st)) with
         | Ok v => inl v
         | Raise e => inr (exn_msg e)
         end)).
Proof.
  unfold safe_contract_call, raw_call, try_except, bind, of_exc, on_world, ret.
  destruct (to_checksum_address w3 a) as [a'|e]; simpl.
  - destruct (eth_call w3 f a' (Some blk) (world st)) as [w' [v|e]]; simpl.
    + reflexivity.
    + destruct (exn_kind e); reflexivity.
  - destruct (exn_kind e); now rewrite st_eta.
Qed.

(** ** Scanning a range a second time *)

Lemma knows_more_refl (t : list Row) : knows_more t t.
Proof. intros a H. exact H. Qed.

Lemma knows_more_trans (a b c : list Row) :
  knows_more a b -> knows_more b c -> knows_more a c.
Proof. intros H1 H2 x Hx. apply H2, H1, Hx. Qed.

Lemma address_taken_app (t u : list Row) (a : string) :
  address_taken (t ++ u) a = address_taken t a || address_taken u a.
Proof. unfold address_taken. apply existsb_app. Qed.

Lemma insert_or_ignore_knows_more (t : list Row) (r : Row) :
  knows_more t (insert_or_ignore t r).
Proof.
  intros a H. unfold insert_or_ignore. destruct (address_taken t (address r)); [exact H|].
  rewrite address_taken_app, H. reflexivity.
Qed.

Lemma insert_or_ignore_taken (t : list Row) (r : Row) :
  address_taken (insert_or_ignore t r) (address r) = true.
Proof.
  unfold insert_or_ignore. destruct (address_taken t (address r)) eqn:E; [exact E|].
  rewrite address_taken_app. unfold address_taken at 2. simpl.
  rewrite String.eqb_refl. now rewrite orb_true_r.
Qed.

Lemma db_grows_refl {W} (st : St W) : db_grows st st.
Proof. apply knows_more_refl. Qed.

Lemma db_grows_trans {W} (a b c : St W) : db_grows a b -> db_grows b c -> db_grows a c.
Proof. apply knows_more_trans. Qed.

Lemma db_grows_same {W A} (m : M W A) : steps same_db m -> steps db_grows m.
Proof.
  intros H st st' r Hr. unfold db_grows. rewrite (H _ _ _ Hr). apply knows_more_refl.
Qed.

Lemma db_grows_save_token {W} (d : Data) : steps db_grows (@save_token W d).
Proof.
  intros st st' r H. rewrite save_token_run in H. inversion H; subst.
  apply insert_or_ignore_knows_more.
Qed.

Create HintDb db_grows.
#[export] Hint Resolve db_grows_save_token : db_grows.
#[export] Hint Extern 2 (steps db_grows _) =>
  apply db_grows_same; solve [eauto with same_db] : db_grows.

Ltac db_grows_steps :=
  steps_walk (@db_grows_refl) (@db_grows_trans) ltac:(solve [eauto with db_grows]).

Section GrowingTable.

Context {W : Type} (w3 : Web3 W) (clock : Clock W).

Lemma same_db_safe_contract_call a f b : steps same_db (safe_contract_call w3 a f b).
Proof. unfold safe_contract_call. same_db_steps. Qed.

#[local] Hint Resolve same_db_safe_contract_call same_db_export same_db_already_seen : same_db.

Lemma same_db_inspect_contract a cb fb : steps same_db (inspect_contract w3 a cb fb).
Proof. unfold inspect_contract. same_db_steps. Qed.

#[local] Hint Resolve same_db_inspect_contract : same_db.

Lemma db_grows_record_candidate args a d : steps db_grows (@record_candidate W args a d).
Proof. unfold record_candidate, count_tokens. db_grows_steps. Qed.

#[local] Hint Resolve db_grows_record_candidate : db_grows.

Lemma db_grows_process_candidate args latest target blk block tx a :
  steps db_grows (process_candidate w3 clock args latest target blk block tx a).
Proof. unfold process_candidate. db_grows_steps. Qed.

#[local] Hint Resolve db_grows_process_candidate : db_grows.

Lemma db_grows_handle_tx args latest target blk block tx :
  steps db_grows (handle_tx w3 clock args latest target blk block tx).
Proof. unfold handle_tx. db_grows_steps. Qed.

#[local] Hint Resolve db_grows_handle_tx : db_grows.

Lemma db_grows_for_txs args latest target blk block txs :
  steps db_grows (for_txs w3 clock args latest target blk block txs).
Proof. induction txs as [|tx rest IH]; simpl; db_grows_steps. Qed.

#[local] Hint Resolve db_grows_for_txs : db_grows.

Lemma db_grows_scan_height args latest target lpb blk :
  steps db_grows (scan_height w3 clock args latest target lpb blk).
Proof. unfold scan_height. db_grows_steps. Qed.

#[local] Hint Resolve db_grows_scan_height : db_grows.

Lemma db_grows_for_heights args latest target heights :
  forall lpb, steps db_grows (for_heights w3 clock args latest target lpb heights).
Proof. induction heights as [|blk rest IH]; intros lpb; simpl; db_grows_steps. Qed.

End GrowingTable.

#[export] Hint Resolve same_db_safe_contract_call same_db_inspect_contract
  same_db_export same_db_already_seen : same_db.

Section ProbeRuns.

Context {W : Type} (w3 : Web3 W) (clock : Clock W).

Lemma inspect_contract_run (address : string) (creation_block found_block : Z) (st : St W) :
  let c1 := raw_call w3 address FnName found_block (world st) in
  let c2 := raw_call w3 address FnSymbol found_block (fst c1) in
  let c3 := raw_call w3 address FnDecimals found_block (fst c2) in
  let c4 := raw_call w3 address FnTotalSupply found_block (fst c3) in
  let c5 := raw_logs w3 address creation_block found_block (fst c4) in
  exists info : Info,
    inspect_contract w3 address creation_block found_block st
      = (mkSt (fst c5) (db st) (fs st) (out st), Ok info)
    /\ i_name info = field_of (snd c1)
    /\ i_symbol info = field_of (snd c2)
    /\ i_decimals info = field_of (snd c3)
    /\ i_total_supply info = option_map Py.str_int (field_of (snd c4))
    /\ match snd c5 with
       | Ok logs =>
           i_has_transfer_logs info = (0 <? Z.of_nat (length logs))
           /\ i_extra_json info = [("transfer_log_count", JInt (Z.of_nat (length logs)))]
       | Raise e =>
           i_has_transfer_logs info = false
           /\ i_extra_json info = [("transfer_log_error", JStr (exn_msg e))]
       end.
Proof.
  cbv zeta.
  unfold inspect_contract, bind, try_except, ret.
  rewrite safe_contract_call_run.
  destruct (raw_call w3 address FnName found_block (world st)) as [w1 [v1|e1]]; simpl;
  rewrite safe_contract_call_run; simpl;
  destruct (raw_call w3 address FnSymbol found_block w1) as [w2 [v2|e2]]; simpl;
  rewrite safe_contract_call_run; simpl;
  destruct (raw_call w3 address FnDecimals found_block w2) as [w3' [v3|e3]]; simpl;
  rewrite safe_contract_call_run; simpl;
  destruct (raw_call w3 address FnTotalSupply found_block w3') as [w4 [v4|e4]]; simpl;
  unfold raw_logs, of_exc, on_world;
  (destruct (to_checksum_address w3 address) as [a|e]; simpl;
   [destruct (get_logs w3 creation_block found_block a [TRANSFER_EVENT_SIG] w4)
      as [w5 [logs|e5]]; simpl|]);
  eexists; (split; [reflexivity|]); simpl; repeat split; reflexivity.
Qed.

Hypothesis Hdet : deterministic w3.

Lemma raw_call_det a f blk w w' :
  snd (raw_call w3 a f blk w) = snd (raw_call w3 a f blk w').
Proof.
  unfold raw_call. destruct (to_checksum_address w3 a); [|reflexivity].
  apply Hdet.
Qed.

Lemma raw_logs_det a fb tb w w' :
  snd (raw_logs w3 a fb tb w) = snd (raw_logs w3 a fb tb w').
Proof.
  unfold raw_logs. destruct (to_checksum_address w3 a); [|reflexivity].
  apply Hdet.
Qed.

(** The probe of one address at one height gives one result. *)
Lemma inspect_contract_det a cb fb (st st' : St W) :
  snd (inspect_contract w3 a cb fb st) = snd (inspect_contract w3 a cb fb st').
Proof.
  pose proof (inspect_contract_run a cb fb st) as H1.
  pose proof (inspect_contract_run a cb fb st') as H2.
  cbv zeta in H1, H2.
  destruct H1 as (i1 & R1 & N1 & S1 & D1 & T1 & L1).
  destruct H2 as (i2 & R2 & N2 & S2 & D2 & T2 & L2).
  rewrite R1, R2. simpl. f_equal.
  rewrite (raw_call_det a FnName fb _ (world st)) in N2.
  rewrite (raw_call_det a FnSymbol fb _ (fst (raw_call w3 a FnName fb (world st)))) in S2.
  rewrite (raw_call_det a FnDecimals fb _
             (fst (raw_call w3 a FnSymbol fb (fst (raw_call w3 a FnName fb (world st)))))) in D2.
  rewrite (raw_call_det a FnTotalSupply fb _
             (fst (raw_call w3 a FnDecimals fb
                     (fst (raw_call w3 a FnSymbol fb
                             (fst (raw_call w3 a FnName fb (world st)))))))) in T2.
  rewrite (raw_logs_det a cb fb _
             (fst (raw_call w3 a FnTotalSupply fb
                     (fst (raw_call w3 a FnDecimals fb
                             (fst (raw_call w3 a FnSymbol fb
                                     (fst (raw_call w3 a FnName fb (world st)))))))))) in L2.
  destruct i1, i2. simpl in *.
  destruct (snd (raw_logs w3 a cb fb _)); destruct L1, L2; congruence.
Qed.

End ProbeRuns.

Section Runs.

Context {W : Type} (w3 : Web3 W) (clock : Clock W).

(** What a run of [process_candidate] does to the table. *)
Lemma process_candidate_run args latest target blk block tx a (st st' : St W) r :
  process_candidate w3 clock args latest target blk block tx a st = (st', r) ->
  match fromtimestamp_isoformat clock (timestamp block) with
  | Raise _ => db st' = db st
  | Ok ts =>
      exists info,
        snd (inspect_contract w3 a blk blk st) = Ok info
        /\ db st' =
           (if plausible (mkData (args_chain args) a blk target (tx_hash tx) ts
                                 (i_name info) (i_symbol info) (i_decimals info)
                                 (i_total_supply info) (i_has_transfer_logs info)
                                 (i_extra_json info))
               || save_all args
            then insert_or_ignore (db st)
                   (data_row (next_rowid (db st))
                      (mkData (args_chain args) a blk target (tx_hash tx) ts
                              (i_name info) (i_symbol info) (i_decimals info)
                              (i_total_supply info) (i_has_transfer_logs info)
                              (i_extra_json info)))
            else db st)
  end.
Proof.
  unfold process_candidate. intros H.
  apply bind_inv in H. destruct H as [(st1 & ts & Hts & H)|(e & Hts & _)].
  2:{ unfold of_exc in Hts. inversion Hts as [[Hs Hr]]. rewrite Hr. reflexivity. }
  unfold of_exc in Hts. inversion Hts as [[Hs Hr]]. subst st1. rewrite Hr. clear Hts Hr.
  pose proof (inspect_contract_run w3 a blk blk st) as Hi. cbv zeta in Hi.
  destruct Hi as (info & Hrun & _).
  apply bind_inv in H. destruct H as [(st2 & info' & Hi & H)|(e & Hi & _)].
  2:{ rewrite Hrun in Hi. inversion Hi. }
  rewrite Hrun in Hi. inversion Hi; subst st2 info'; clear Hi.
  exists info. split; [now rewrite Hrun|].
  apply bind_inv in H. destruct H as [(st3 & u & Hv & H)|(e & Hv & _)].
  2:{ destruct (verbose args); inversion Hv. }
  assert (Hd3 : db st3 = db st).
  { destruct (verbose args); inversion Hv; subst; reflexivity. }
  apply bind_inv in H. destruct H as [(st4 & u4 & Hl & H)|(e & Hl & _)].
  - assert (Hd4 : db st4 = db st3).
    { revert Hl. generalize st3 st4 (Ok u4). change (steps same_db
        (if Py.truthy (debug_log args)
         then try_except
                (now <- on_clock (now_isoformat clock) ;;
                 append_file (match debug_log args with Some p => p | None => "" end)
                   (DebugLine (mkDebugEntry now (args_chain args) a blk target (tx_hash tx) info)))
                (fun e => print (MDebugLogFailed (exn_msg e)))
         else ret tt)).
      same_db_steps. }
    apply record_candidate_db in H. rewrite H, Hd4, Hd3. reflexivity.
  - exfalso. revert Hl. destruct (Py.truthy (debug_log args)); [|discriminate].
    intros Hl. apply try_except_inv in Hl.
    destruct Hl as [(x & _ & Hx)|(sx & ex & _ & Hx)]; [discriminate|].
    inversion Hx.
Qed.

(** What a run of [handle_tx] does to the table. *)
Lemma handle_tx_run args latest target blk block tx (st st' : St W) r :
  handle_tx w3 clock args latest target blk block tx st = (st', r) ->
  match (match tx_to tx with Ok v => v | Raise _ => None end) with
  | Some _ => db st' = db st
  | None =>
      match snd (get_transaction_receipt w3 (tx_hash tx) (world st)) with
      | Raise _ => db st' = db st
      | Ok receipt =>
          if negb (Py.truthy (receipt_contract_address receipt)) then db st' = db st
          else
            match to_checksum_address w3
                    (match receipt_contract_address receipt with
                     | Some a => a
                     | None => ""
                     end) with
            | Raise _ => db st' = db st
            | Ok a =>
                if address_taken (db st) (Py.lower a) then db st' = db st
                else exists stp,
                       db stp = db st
                       /\ process_candidate w3 clock args latest target blk block tx a stp
                          = (st', r)
            end
      end
  end.
Proof.
  unfold handle_tx. intros H.
  destruct (match tx_to tx with Ok v => v | Raise _ => None end).
  { inversion H; subst. reflexivity. }
  unfold bind at 1, try_except, bind at 1, on_world in H.
  destruct (get_transaction_receipt w3 (tx_hash tx) (world st)) as [w1 [receipt|e]]; simpl in *.
  2:{ inversion H; subst. reflexivity. }
  destruct (negb (Py.truthy (receipt_contract_address receipt))).
  { inversion H; subst. reflexivity. }
  unfold bind at 1, of_exc in H.
  destruct (to_checksum_address w3 _) as [a|e].
  2:{ inversion H; subst. reflexivity. }
  unfold bind at 1, print, emit in H. simpl in H.
  unfold bind at 1 in H. rewrite already_seen_run in H. simpl in H.
  destruct (address_taken (db st) (Py.lower a)).
  - assert (Hs : same_db (mkSt w1 (db st) (fs st)
                               (out st ++ [Print (MDetected a (tx_hash tx) blk)])) st').
    { revert H. apply (steps_bind _ (@same_db_trans W)).
      - apply same_db_print.
      - intros. apply steps_ret. apply same_db_refl. }
    exact Hs.
  - eexists. split; [|exact H]. reflexivity.
Qed.

(** What a run of [scan_height] does to the table. *)
Lemma scan_height_run args latest target lpb blk (st st' : St W) r :
  scan_height w3 clock args latest target lpb blk st = (st', r) ->
  match snd (get_block w3 blk (world st)) with
  | Raise _ => db st' = db st /\ r = Ok (Next, lpb)
  | Ok block =>
      exists stp rc,
        db stp = db st
        /\ for_txs w3 clock args latest target blk block (transactions block) stp = (st', rc)
        /\ r = match rc with
               | Ok Next => Ok (Next, blk)
               | Ok Return => Ok (Return, lpb)
               | Raise e => Raise e
               end
  end.
Proof.
  unfold scan_height. intros H.
  unfold bind at 1, try_except, bind at 1, on_world in H.
  destruct (get_block w3 blk (world st)) as [w1 [block|e]]; simpl in *.
  - unfold bind at 1, print, emit in H. simpl in H.
    unfold bind in H.
    destruct (for_txs w3 clock args latest target blk block (transactions block) _)
      as [st2 [c|e]] eqn:Hf.
    + destruct c; inversion H; subst; eexists; eexists;
        (split; [|split; [exact Hf|reflexivity]]); reflexivity.
    + inversion H; subst. eexists. eexists.
      split; [|split; [exact Hf|reflexivity]]. reflexivity.
  - unfold bind, print, emit, ret in H. simpl in H. inversion H; subst. auto.
Qed.

End Runs.

Section Settled.

Context {W : Type} (w3 : Web3 W) (clock : Clock W).
Hypothesis Hdet : deterministic w3.

(** Once a transaction has been handled, handling it again leaves alone any
    table that knows at least the addresses recorded by then. *)
Lemma handle_tx_settled args latest target blk block tx (st st1 : St W) c :
  handle_tx w3 clock args latest target blk block tx st = (st1, Ok c) ->
  forall T, knows_more (db st1) T ->
  forall (st2 st2' : St W) r2,
    db st2 = T ->
    handle_tx w3 clock args latest target blk block tx st2 = (st2', r2) ->
    db st2' = T.
Proof.
  intros H1 T HT st2 st2' r2 Hdb H2.
  apply handle_tx_run in H1. apply handle_tx_run in H2.
  destruct (match tx_to tx with Ok v => v | Raise _ => None end); [congruence|].
  destruct Hdet as (_ & Hrc & _).
  rewrite (Hrc (tx_hash tx) (world st2) (world st)) in H2.
  destruct (snd (get_transaction_receipt w3 (tx_hash tx) (world st))) as [receipt|e];
    [|congruence].
  destruct (negb (Py.truthy (receipt_contract_address receipt))); [congruence|].
  destruct (to_checksum_address w3 _) as [a|e]; [|congruence].
  destruct (address_taken (db st2) (Py.lower a)) eqn:E2; [congruence|].
  destruct H2 as (stp2 & Hp2 & H2).
  destruct (address_taken (db st) (Py.lower a)) eqn:E1.
  { rewrite <- H1 in E1. apply HT in E1. congruence. }
  destruct H1 as (stp1 & Hp1 & H1).
  apply process_candidate_run in H1. apply process_candidate_run in H2.
  destruct (fromtimestamp_isoformat clock (timestamp block)) as [ts|e]; [|congruence].
  destruct H1 as (info1 & Hi1 & Hd1). destruct H2 as (info2 & Hi2 & Hd2).
  rewrite (inspect_contract_det w3 Hdet a blk blk stp2 stp1), Hi1 in Hi2.
  inversion Hi2; subst info2; clear Hi2.
  match type of Hd1 with
  | _ = (if ?b then _ else _) => destruct b
  end.
  - exfalso.
    assert (Ht : address_taken (db st1) (Py.lower a) = true).
    { rewrite Hd1.
      match goal with
      | |- address_taken (insert_or_ignore ?t ?row) _ = true =>
          exact (insert_or_ignore_taken t row)
      end. }
    apply HT in Ht. congruence.
  - congruence.
Qed.

Lemma for_txs_settled args latest target blk block txs :
  forall (st st1 : St W),
    for_txs w3 clock args latest target blk block txs st = (st1, Ok Next) ->
    forall T, knows_more (db st1) T ->
    forall (st2 st2' : St W) r2,
      db st2 = T ->
      for_txs w3 clock args latest target blk block txs st2 = (st2', r2) ->
      db st2' = T.
Proof.
  induction txs as [|tx rest IH]; intros st st1 H1 T HT st2 st2' r2 Hdb H2; simpl in *.
  - inversion H2; subst. reflexivity.
  - apply bind_inv in H1. destruct H1 as [(sta & c & Ha & H1)|(e & _ & He)]; [|discriminate].
    destruct c; [|inversion H1].
    assert (Hk : knows_more (db sta) T).
    { eapply knows_more_trans; [|exact HT].
      exact (db_grows_for_txs w3 clock args latest target blk block rest _ _ _ H1). }
    apply bind_inv in H2. destruct H2 as [(stb & c2 & Hb & H2)|(e & Hb & _)].
    + pose proof (handle_tx_settled _ _ _ _ _ _ _ _ _ Ha T Hk _ _ _ Hdb Hb) as Hdb'.
      destruct c2.
      * exact (IH _ _ H1 T HT _ _ _ Hdb' H2).
      * inversion H2; subst. exact Hdb'.
    + exact (handle_tx_settled _ _ _ _ _ _ _ _ _ Ha T Hk _ _ _ Hdb Hb).
Qed.

Lemma scan_height_settled args latest target lpb blk (st st1 : St W) l :
  scan_height w3 clock args latest target lpb blk st = (st1, Ok (Next, l)) ->
  forall T, knows_more (db st1) T ->
  forall lpb' (st2 st2' : St W) r2,
    db st2 = T ->
    scan_height w3 clock args latest target lpb' blk st2 = (st2', r2) ->
    db st2' = T.
Proof.
  intros H1 T HT lpb' st2 st2' r2 Hdb H2.
  apply scan_height_run in H1. apply scan_height_run in H2.
  destruct Hdet as (Hgb & _).
  rewrite (Hgb blk (world st2) (world st)) in H2.
  destruct (snd (get_block w3 blk (world st))) as [block|e].
  - destruct H1 as (stp1 & rc1 & Hp1 & Hf1 & Hr1).
    destruct H2 as (stp2 & rc2 & Hp2 & Hf2 & _).
    destruct rc1 as [[|]|e1]; try discriminate.
    eapply for_txs_settled; [exact Hf1|exact HT| |exact Hf2]. congruence.
  - destruct H2 as [H2 _]. congruence.
Qed.

Lemma for_heights_settled args latest target heights :
  forall lpb (st st1 : St W) l,
    for_heights w3 clock args latest target lpb heights st = (st1, Ok (Next, l)) ->
    forall T, knows_more (db st1) T ->
    forall lpb' (st2 st2' : St W) r2,
      db st2 = T ->
      for_heights w3 clock args latest target lpb' heights st2 = (st2', r2) ->
      db st2' = T.
Proof.
  induction heights as [|blk rest IH]; intros lpb st st1 l H1 T HT lpb' st2 st2' r2 Hdb H2;
    simpl in *.
  - inversion H2; subst. reflexivity.
  - apply bind_inv in H1. destruct H1 as [(sta & [c b] & Ha & H1)|(e & _ & He)]; [|discriminate].
    destruct c; [|inversion H1].
    assert (Hk : knows_more (db sta) T).
    { eapply knows_more_trans; [|exact HT].
      exact (db_grows_for_heights w3 clock args latest target rest b _ _ _ H1). }
    apply bind_inv in H2. destruct H2 as [(stb & [c2 b2] & Hb & H2)|(e & Hb & _)].
    + pose proof (scan_height_settled _ _ _ _ _ _ _ _ Ha T Hk _ _ _ _ Hdb Hb) as Hdb'.
      destruct c2.
      * exact (IH _ _ _ _ H1 T HT _ _ _ _ Hdb' H2).
      * inversion H2; subst. exact Hdb'.
    + exact (scan_height_settled _ _ _ _ _ _ _ _ Ha T Hk _ _ _ _ Hdb Hb).
Qed.

End Settled.

(** ** The exporter *)

Lemma insert_by_id_first (r : Row) (l : list Row) :
  List.Forall (fun x => rowid r < rowid x) l -> insert_by_id r l = r :: l.
Proof.
  intros H. destruct l as [|x l]; [reflexivity|]. simpl.
  inversion H; subst. destruct (rowid r <? rowid x) eqn:E; [reflexivity|lia].
Qed.

Lemma order_by_id_sorted (t : list Row) : StronglySorted id_lt t -> order_by_id t = t.
Proof.
  induction 1 as [|x t Hs IH Hall]; [reflexivity|].
  unfold order_by_id in *. simpl. rewrite IH. now apply insert_by_id_first.
Qed.

Lemma combine_headers (r : Row) :
  map fst (combine export_headers (row_cells r)) = export_headers
  /\ map snd (combine export_headers (row_cells r)) = row_cells r.
Proof. split; reflexivity. Qed.

(** ** Passes end on an export *)

Lemma keeps_reach_refl {W} (st : St W) : keeps_reach st st.
Proof. intros H. exact H. Qed.

Lemma keeps_reach_trans {W} (a b c : St W) :
  keeps_reach a b -> keeps_reach b c -> keeps_reach a c.
Proof. intros H1 H2 H. apply H2, H1, H. Qed.

Lemma keeps_reach_same {W A} (m : M W A) : steps same_db m -> steps keeps_reach m.
Proof. intros H st st' r Hr Hreach. now rewrite (H _ _ _ Hr). Qed.

Lemma keeps_reach_save_token {W} (d : Data) : steps keeps_reach (@save_token W d).
Proof.
  intros st st' r H Hreach. rewrite save_token_run in H. inversion H; subst.
  now apply reach_save.
Qed.

Create HintDb keeps_reach.
#[export] Hint Resolve keeps_reach_save_token : keeps_reach.
#[export] Hint Extern 2 (steps keeps_reach _) =>
  apply keeps_reach_same; solve [eauto with same_db] : keeps_reach.

Ltac keeps_reach_steps :=
  steps_walk (@keeps_reach_refl) (@keeps_reach_trans) ltac:(solve [eauto with keeps_reach]).

Lemma same_files_refl {W} (st : St W) : same_files st st.
Proof. split; reflexivity. Qed.

Lemma same_files_trans {W} (a b c : St W) :
  same_files a b -> same_files b c -> same_files a c.
Proof. intros [H1 H2] [H3 H4]. split; congruence. Qed.

Lemma same_files_on_clock {W A} (op : W -> W * A) : steps same_files (on_clock op).
Proof.
  intros st st' r H. unfold on_clock in H. destruct (op (world st)).
  inversion H; subst. split; reflexivity.
Qed.

Lemma same_files_emit {W} (e : Event) : steps same_files (@emit W e).
Proof. intros st st' r H. inversion H; subst. split; reflexivity. Qed.

Lemma same_files_sleep {W} (n : Z) : steps same_files (@sleep W n).
Proof.
  unfold sleep. destruct (n <? 0).
  - apply steps_raise. apply same_files_refl.
  - apply same_files_emit.
Qed.

Lemma exported_same_files {W} (c j : string) (st st' : St W) :
  same_files st st' -> exported c j st -> exported c j st'.
Proof. intros [Hd Hf] [H1 H2]. unfold exported. rewrite Hd, Hf. now split. Qed.

(** What an export leaves behind. *)
Lemma export_csv_json_run {W} (csv_path json_path : string) (st : St W) :
  reachable (db st) ->
  csv_path <> json_path ->
  exists st' : St W,
    export_csv_json csv_path json_path st = (st', Ok tt)
    /\ db st' = db st
    /\ exported csv_path json_path st'
    /\ (forall p : string, p <> csv_path -> p <> json_path -> fs st' !! p = fs st !! p).
Proof.
  intros Hr Hne.
  unfold export_csv_json, bind, get_db, write_file, print, emit. simpl.
  eexists. split; [reflexivity|]. simpl.
  assert (Ho : order_by_id (db st) = db st).
  { apply order_by_id_sorted. now apply reachable_ok. }
  unfold exported, select_export_rows. simpl. rewrite Ho, !map_map.
  split; [reflexivity|]. split; [split|].
  - rewrite lookup_insert_ne by congruence. now rewrite lookup_insert_eq.
  - now rewrite lookup_insert_eq.
  - intros p H1 H2. now rewrite !lookup_insert_ne by congruence.
Qed.

Section Exports.

Context {W : Type} (w3 : Web3 W) (clock : Clock W).

Lemma keeps_reach_record_candidate args a d : steps keeps_reach (@record_candidate W args a d).
Proof. unfold record_candidate, count_tokens. keeps_reach_steps. Qed.

#[local] Hint Resolve keeps_reach_record_candidate : keeps_reach.

Lemma keeps_reach_process_candidate args latest target blk block tx a :
  steps keeps_reach (process_candidate w3 clock args latest target blk block tx a).
Proof. unfold process_candidate. keeps_reach_steps. Qed.

#[local] Hint Resolve keeps_reach_process_candidate : keeps_reach.

Lemma keeps_reach_handle_tx args latest target blk block tx :
  steps keeps_reach (handle_tx w3 clock args latest target blk block tx).
Proof. unfold handle_tx. keeps_reach_steps. Qed.

#[local] Hint Resolve keeps_reach_handle_tx : keeps_reach.

Lemma keeps_reach_for_txs args latest target blk block txs :
  steps keeps_reach (for_txs w3 clock args latest target blk block txs).
Proof. induction txs as [|tx rest IH]; simpl; keeps_reach_steps. Qed.

#[local] Hint Resolve keeps_reach_for_txs : keeps_reach.

Lemma keeps_reach_scan_height args latest target lpb blk :
  steps keeps_reach (scan_height w3 clock args latest target lpb blk).
Proof. unfold scan_height. keeps_reach_steps. Qed.

#[local] Hint Resolve keeps_reach_scan_height : keeps_reach.

Lemma keeps_reach_for_heights args latest target heights :
  forall lpb, steps keeps_reach (for_heights w3 clock args latest target lpb heights).
Proof. induction heights as [|blk rest IH]; intros lpb; simpl; keeps_reach_steps. Qed.

Variable args : Args.
Hypothesis Hpaths : csv_output args <> json_output args.

(** A stop at the configured count comes right after an export. *)
Lemma record_candidate_return a d (st st' : St W) :
  reachable (db st) ->
  record_candidate args a d st = (st', Ok Return) ->
  exported (csv_output args) (json_output args) st'.
Proof.
  intros Hr H. unfold record_candidate in H.
  destruct (plausible d || save_all args); [|inversion H].
  inv_bind H st1 u1 Hs.
  apply keeps_reach_save_token in Hs. specialize (Hs Hr).
  inv_bind H st2 u2 Hp.
  assert (Hr2 : reachable (db st2)).
  { assert (Hd : db st2 = db st1).
    { destruct (plausible d); inversion Hp; subst; reflexivity. }
    now rewrite Hd. }
  apply try_except_inv in H. destruct H as [(c & H & Hc)|(sx & e & _ & H)].
  - inversion Hc; subst c; clear Hc.
    destruct (0 <? stop_at_count args); [|inversion H].
    inv_bind H st3 cnt Hcnt. inversion Hcnt; subst st3; clear Hcnt.
    destruct (stop_at_count args <=? _); [|inversion H].
    inv_bind H st4 u4 Hp4. inversion Hp4; subst st4; clear Hp4.
    inv_bind H st5 u5 He. inversion H; subst st5.
    match type of He with
    | export_csv_json _ _ ?s = _ =>
        destruct (export_csv_json_run (csv_output args) (json_output args) s Hr2 Hpaths)
          as (sy & Hy & _ & Hex & _)
    end.
    rewrite Hy in He. inversion He; subst. exact Hex.
  - inv_bind H sy u Hy. inversion H.
Qed.

Lemma process_candidate_return latest target blk block tx a (st st' : St W) :
  reachable (db st) ->
  process_candidate w3 clock args latest target blk block tx a st = (st', Ok Return) ->
  exported (csv_output args) (json_output args) st'.
Proof.
  intros Hr H. unfold process_candidate in H.
  inv_bind H st1 ts Hts. inversion Hts; subst st1.
  inv_bind H st2 info Hi.
  apply same_db_inspect_contract in Hi.
  inv_bind H st3 u3 Hv.
  assert (Hd3 : db st3 = db st2).
  { destruct (verbose args); inversion Hv; subst; reflexivity. }
  inv_bind H st4 u4 Hl.
  assert (Hd4 : db st4 = db st3).
  { revert Hl. generalize st3 st4 (Ok u4). change (steps same_db
      (if Py.truthy (debug_log args)
       then try_except
              (now <- on_clock (now_isoformat clock) ;;
               append_file (match debug_log args with Some p => p | None => "" end)
                 (DebugLine (mkDebugEntry now (args_chain args) a blk target (tx_hash tx) info)))
              (fun e => print (MDebugLogFailed (exn_msg e)))
       else ret tt)).
    same_db_steps. }
  eapply record_candidate_return; [|exact H].
  unfold same_db in Hi. now rewrite Hd4, Hd3, Hi.
Qed.

Lemma handle_tx_return latest target blk block tx (st st' : St W) :
  reachable (db st) ->
  handle_tx w3 clock args latest target blk block tx st = (st', Ok Return) ->
  exported (csv_output args) (json_output args) st'.
Proof.
  intros Hr H. unfold handle_tx in H.
  destruct (match tx_to tx with Ok v => v | Raise _ => None end); [inversion H|].
  unfold bind at 1, try_except, bind at 1, on_world in H.
  destruct (get_transaction_receipt w3 (tx_hash tx) (world st)) as [w1 [receipt|e]]; simpl in *.
  2:{ inversion H. }
  destruct (negb (Py.truthy (receipt_contract_address receipt))); [inversion H|].
  unfold bind at 1, of_exc in H.
  destruct (to_checksum_address w3 _) as [a|e]; [|inversion H].
  unfold bind at 1, print, emit in H. simpl in H.
  unfold bind at 1 in H. rewrite already_seen_run in H. simpl in H.
  destruct (address_taken (db st) (Py.lower a)).
  - inv_bind H sx u Hx. inversion H.
  - eapply process_candidate_return; [|exact H]. exact Hr.
Qed.

Lemma for_txs_return latest target blk block txs :
  forall (st st' : St W),
    reachable (db st) ->
    for_txs w3 clock args latest target blk block txs st = (st', Ok Return) ->
    exported (csv_output args) (json_output args) st'.
Proof.
  induction txs as [|tx rest IH]; intros st st' Hr H; simpl in H; [inversion H|].
  inv_bind H sta c Ha. destruct c.
  - apply IH in H; [exact H|].
    exact (keeps_reach_handle_tx _ _ _ _ _ _ _ _ _ Ha Hr).
  - inversion H; subst. eapply handle_tx_return; [exact Hr|exact Ha].
Qed.

Lemma scan_height_return latest target lpb blk (st st' : St W) l :
  reachable (db st) ->
  scan_height w3 clock args latest target lpb blk st = (st', Ok (Return, l)) ->
  exported (csv_output args) (json_output args) st'.
Proof.
  intros Hr H. apply scan_height_run in H.
  destruct (snd (get_block w3 blk (world st))) as [block|e].
  - destruct H as (stp & rc & Hp & Hf & Hrc).
    destruct rc as [[|]|e]; try discriminate.
    eapply for_txs_return; [|exact Hf]. now rewrite Hp.
  - destruct H as [_ H]. discriminate.
Qed.

Lemma for_heights_return latest target heights :
  forall lpb (st st' : St W) l,
    reachable (db st) ->
    for_heights w3 clock args latest target lpb heights st = (st', Ok (Return, l)) ->
    exported (csv_output args) (json_output args) st'.
Proof.
  induction heights as [|blk rest IH]; intros lpb st st' l Hr H; simpl in H; [inversion H|].
  inv_bind H sta r Ha. destruct r as [c b]. destruct c.
  - apply IH in H; [exact H|].
    exact (keeps_reach_scan_height _ _ _ _ _ _ _ _ Ha Hr).
  - inversion H; subst. eapply scan_height_return; [exact Hr|exact Ha].
Qed.

(** A pass that ends without raising either left the table alone or ended
    on an export of it. *)
Lemma tick_exports start lpb (st st' : St W) o :
  reachable (db st) ->
  tick w3 clock args start lpb st = (st', Ok o) ->
  reachable (db st')
  /\ (db st' = db st \/ exported (csv_output args) (json_output args) st').
Proof.
  intros Hr H. unfold tick in H. inv_bind H st1 r Htry.
  assert (Hd1 : db st1 = db st).
  { revert Htry. generalize st st1 (Ok r).
    change (steps same_db
              (try_except (l <- on_world (block_number w3) ;; ret (Some l))
                          (fun e => print (MErrLatest (exn_msg e)) ;;;
                                    sleep (Z.max 5 (poll_interval args)) ;;; ret None))).
    same_db_steps. }
  assert (Hsleep : forall b (s s' : St W) o',
             db s = db st ->
             (sleep (poll_interval args) ;;; ret (Continue b)) s = (s', Ok o') ->
             reachable (db s') /\ (db s' = db st \/
                                   exported (csv_output args) (json_output args) s')).
  { intros b s s' o' Hs Hrun.
    assert (Hd : db s' = db s).
    { revert Hrun. generalize s s' (Ok o').
      change (steps same_db (sleep (poll_interval args) ;;; @ret W _ (Continue b))).
      same_db_steps. }
    rewrite Hd, Hs. auto. }
  destruct r as [latest|].
  2:{ inversion H; subst. rewrite Hd1. auto. }
  set (w := match lpb with Some b => b | None => latest - 1 end) in *.
  destruct (latest <=? w); [eapply Hsleep; eauto|].
  destruct (latest - confirmations args + 1 <=? w); [eapply Hsleep; eauto|].
  inv_bind H st2 rr Hf. destruct rr as [c l].
  assert (Hr1 : reachable (db st1)) by now rewrite Hd1.
  assert (Hr2 : reachable (db st2)).
  { exact (keeps_reach_for_heights _ _ _ _ _ _ _ _ Hf Hr1). }
  destruct c.
  - inv_bind H st3 u He.
    destruct (export_csv_json_run (csv_output args) (json_output args) st2 Hr2 Hpaths)
      as (sy & Hy & Hdy & Hex & _).
    rewrite Hy in He. inversion He; subst sy; clear He.
    assert (Htail : same_files st3 st').
    { revert H. generalize st3 st' (Ok o).
      change (steps same_files
                (if run_duration args =? 0
                 then sleep (poll_interval args) ;;; ret (Continue (Some l))
                 else now <- on_clock (time_time clock) ;;
                      if run_duration args <=? now - start
                      then print (MRunDuration (run_duration args)) ;;; @ret W _ Exit
                      else sleep (poll_interval args) ;;; ret (Continue (Some l)))).
      steps_walk (@same_files_refl) (@same_files_trans)
        ltac:(first [apply same_files_on_clock | apply same_files_emit
                    | apply same_files_sleep]). }
    split.
    + destruct Htail as [Hd _]. now rewrite Hd, Hdy.
    + right. exact (exported_same_files _ _ _ _ Htail Hex).
  - inversion H; subst. split; [exact Hr2|]. right.
    eapply for_heights_return; [exact Hr1|exact Hf].
Qed.

End Exports.

(** * The statements of the specification *)

(** C1 (amended). A height whose block fetch fails is passed over and the
    loop goes on with the next height. For a pass that goes round again
    from watermark [w]: when the pass entered the height loop, the heights
    it visited are the whole range from [w + 1] to the safe height, in
    order, each either fetched or logged as failed; the heights visited are
    all above [w]; the watermark is never left on a height whose fetch
    failed; it never decreases; and it ends on the last height whose block
    was fetched (on [w] when none was). *)
Theorem watermark_is_last_fetched_height :
  forall (W : Type) (w3 : Web3 W) (clock : Clock W) (args : Args) (start w : Z)
         (st st' : St W) (wm' : option Z),
    tick w3 clock args start (Some w) st = (st', Ok (Continue wm')) ->
    exists evs,
      out st' = out st ++ evs
      /\ wm' = Some (last_fetched (visited evs) w)
      /\ (forall b, In (b, false) (visited evs) -> wm' <> Some b)
      /\ (forall b ok, In (b, ok) (visited evs) -> w < b)
      /\ w <= last_fetched (visited evs) w
      /\ (visited evs = []
          \/ exists w1 latest,
               block_number w3 (world st) = (w1, Ok latest)
               /\ map fst (visited evs)
                  = Py.range (w + 1) (latest - confirmations args + 1 + 1)).
Proof.
  intros W w3 clock args start w st st' wm' H.
  apply tick_visits in H.
  destruct H as (evs & Hout & Hwm & Hsorted & Habove & Hrange).
  exists evs. split; [exact Hout|]. split; [exact Hwm|].
  assert (Hin : forall b ok, In (b, ok) (visited evs) -> w < b).
  { intros b ok Hb. apply Habove. apply in_map_iff. exists (b, ok). auto. }
  split; [|split; [exact Hin|split; [|exact Hrange]]].
  - intros b Hb Heq. rewrite Hwm in Heq. inversion Heq as [Hl]; clear Heq.
    destruct (last_fetched_cases (visited evs) w) as [Hd|Ht].
    + apply Hin in Hb. lia.
    + rewrite Hl in Ht. clear Hl Hwm Hin Habove Hout Hrange.
      induction (visited evs) as [|[b0 ok0] v IH]; [destruct Hb|].
      simpl in Hsorted. inversion Hsorted as [|? ? Hs Hall]; subst.
      assert (Hlt : forall ok, In (b, ok) v -> b0 < b).
      { intros ok Hv. rewrite List.Forall_forall in Hall. apply Hall.
        apply in_map_iff. exists (b, ok). auto. }
      destruct Hb as [Hb|Hb], Ht as [Ht|Ht].
      * congruence.
      * inversion Hb; subst. apply Hlt in Ht. lia.
      * inversion Ht; subst. apply Hlt in Hb. lia.
      * now apply IH.
  - destruct (last_fetched_cases (visited evs) w) as [Hd|Ht].
    + lia.
    + apply Hin in Ht. lia.
Qed.

(** The statement on a run in which the fetch of block 96 fails and blocks
    97 and 98 are fetched. *)
Lemma watermark_is_last_fetched_height_witness :
  exists evs,
    out (fst (tick Script.flaky_w3 Script.clock Script.args0 0 (Some 95) (Script.st0 [])))
      = out (Script.st0 []) ++ evs
    /\ Some 98 = Some (last_fetched (visited evs) 95)
    /\ (forall b, In (b, false) (visited evs) -> Some 98 <> Some b)
    /\ (forall b ok, In (b, ok) (visited evs) -> 95 < b)
    /\ 95 <= last_fetched (visited evs) 95
    /\ (visited evs = []
        \/ exists w1 latest,
             block_number Script.flaky_w3 (world (Script.st0 [])) = (w1, Ok latest)
             /\ map fst (visited evs)
                = Py.range (95 + 1) (latest - confirmations Script.args0 + 1 + 1)).
Proof.
  apply (watermark_is_last_fetched_height nat Script.flaky_w3 Script.clock Script.args0 0 95
           (Script.st0 [])
           (fst (tick Script.flaky_w3 Script.clock Script.args0 0 (Some 95) (Script.st0 [])))
           (Some 98)).
  vm_compute. reflexivity.
Defined.

(** C1, as stated, fails: the fetch of block 96 fails in a pass over heights
    96 to 98, the pass leaves the watermark on 98, past the failed height,
    and the next pass visits 99 only, although block 96 could by then be
    fetched. *)
Lemma failed_height_is_passed_over :
  snd (tick Script.flaky_w3 Script.clock Script.args0 0 (Some 95) (Script.st0 []))
    = Ok (Continue (Some 98))
  /\ visited (out (fst (tick Script.flaky_w3 Script.clock Script.args0 0 (Some 95) (Script.st0 []))))
     = [(96, false); (97, true); (98, true)]
  /\ snd (while_true Script.flaky_w3 Script.clock 2 Script.args0 0 (Some 95) (Script.st0 []))
     = Ok (Continue (Some 99))
  /\ visited (out (fst (while_true Script.flaky_w3 Script.clock 2 Script.args0 0 (Some 95)
                          (Script.st0 []))))
     = [(96, false); (97, true); (98, true); (99, true)]
  /\ snd (get_block Script.flaky_w3 96 4%nat) = Ok Script.empty_block.
Proof. vm_compute. repeat split; reflexivity. Qed.

(** C2 (amended). With the chain head at 100, three confirmations and no
    watermark yet, the first pass sets the watermark to 99; the safe height
    98 is not above it, so the pass fetches no block, sleeps one poll
    interval and leaves the watermark at 99. *)
Theorem first_pass_at_head_100 :
  forall (W : Type) (w3 : Web3 W) (clock : Clock W) (args : Args) (start : Z)
         (st : St W) (w' : W),
    block_number w3 (world st) = (w', Ok 100) ->
    confirmations args = 3 ->
    0 <= poll_interval args ->
    tick w3 clock args start None st
      = (mkSt w' (db st) (fs st) (out st ++ [Sleep (poll_interval args)]),
         Ok (Continue (Some 99))).
Proof.
  intros W w3 clock args start st w' H Hc Hp.
  unfold tick, bind, try_except, on_world. rewrite H. simpl. rewrite Hc. simpl.
  unfold sleep, emit, ret.
  destruct (poll_interval args <? 0) eqn:E; [lia|]. reflexivity.
Qed.

(** The statement on the scripted chain with its head at 100. *)
Lemma first_pass_at_head_100_witness :
  tick Script.quiet_w3 Script.clock Script.args0 0 None (Script.st0 [])
    = (mkSt 1%nat [] ∅ [Sleep (poll_interval Script.args0)], Ok (Continue (Some 99))).
Proof.
  apply (first_pass_at_head_100 nat Script.quiet_w3 Script.clock Script.args0 0
           (Script.st0 []) 1%nat).
  - reflexivity.
  - reflexivity.
  - vm_compute. discriminate.
Defined.

(** C2, as stated, fails: at head 100 with three confirmations and no
    watermark the first pass visits no height at all and leaves the
    watermark at 99, not at 98. *)
Lemma first_pass_processes_no_block :
  confirmations Script.args0 = 3
  /\ start_block Script.args0 = None
  /\ snd (block_number Script.quiet_w3 0%nat) = Ok 100
  /\ snd (tick Script.quiet_w3 Script.clock Script.args0 0 None (Script.st0 []))
     = Ok (Continue (Some 99))
  /\ visited (out (fst (tick Script.quiet_w3 Script.clock Script.args0 0 None (Script.st0 []))))
     = []
  /\ Some 99 <> Some 98.
Proof. vm_compute. repeat split; try reflexivity. discriminate. Qed.



(** A pass over blocks 96 to 98 with the created contract already recorded:
    the address is detected, found recorded, and the table stays as it was. *)
Example rescan_on_script :
  detected (out (fst (tick Script.token_w3 Script.clock Script.args0 0 (Some 95)
                        (Script.st0 Script.store1))))
    = [Script.addr1]
  /\ db (fst (tick Script.token_w3 Script.clock Script.args0 0 (Some 95)
                (Script.st0 Script.store1)))
     = Script.store1.
Proof. vm_compute. split; reflexivity. Qed.

(** C4 (amended). Deduplication is keyed by the lower-cased address alone:
    whatever the chain label of the stored row, a record for the same
    address is reported as already seen and saving it stores nothing; and no
    table the program can produce holds one address twice. *)
Theorem dedup_is_keyed_by_address_alone :
  (forall (W : Type) (st : St W) (data : Data) (r : Row),
      In r (db st) ->
      address r = Py.lower (d_address data) ->
      already_seen (d_address data) st = (st, Ok true)
      /\ save_token data st = (st, Ok tt))
  /\ (forall t : list Row, reachable t -> List.NoDup (map address t)).
Proof.
  split.
  - intros W st data r Hin Ha.
    assert (Ht : address_taken (db st) (Py.lower (d_address data)) = true).
    { apply address_taken_In. eauto. }
    split.
    + rewrite already_seen_run, Ht. reflexivity.
    + now apply save_token_known.
  - intros t Hr. now apply reachable_ok.
Qed.

(** The statement on the table holding the address under chain label eth. *)
Lemma dedup_is_keyed_by_address_alone_witness :
  (already_seen (d_address Script.token_bsc) (Script.st0 Script.store1)
     = (Script.st0 Script.store1, Ok true)
   /\ save_token Script.token_bsc (Script.st0 Script.store1)
     = (Script.st0 Script.store1, Ok tt))
  /\ List.NoDup (map address Script.store1).
Proof.
  destruct dedup_is_keyed_by_address_alone as (H1 & H2). split.
  - apply (H1 nat (Script.st0 Script.store1) Script.token_bsc
              (data_row 1 Script.token_eth)).
    + left. reflexivity.
    + reflexivity.
  - apply H2. exact (reach_save init_db Script.token_eth reach_init).
Defined.

(** C4, as stated, fails: with the address recorded under chain label eth,
    saving the same address under chain label bsc stores no second record;
    the table keeps its single eth row. *)
Lemma second_chain_label_stores_nothing :
  d_chain Script.token_eth = "eth"
  /\ d_chain Script.token_bsc = "bsc"
  /\ d_address Script.token_bsc = d_address Script.token_eth
  /\ map chain Script.store1 = ["eth"]
  /\ db (fst (save_token Script.token_bsc (Script.st0 Script.store1))) = Script.store1
  /\ key_count (db (fst (save_token Script.token_bsc (Script.st0 Script.store1))))
               "bsc" (Py.lower Script.addr1) = 0%nat
  /\ snd (already_seen (d_address Script.token_bsc) (Script.st0 Script.store1)) = Ok true.
Proof. vm_compute. repeat split; reflexivity. Qed.

(** C5 (amended). A candidate is judged plausible exactly when its name is
    present and not empty, or its symbol is present and not empty, or its
    decimals are present, or it has transfer logs. A result with name Foo
    and nothing else is plausible; a result with every field absent and no
    transfer logs is not. A candidate not yet recorded is stored exactly
    when it is plausible or the save-all override is on; in default mode,
    exactly when it is plausible. *)
Theorem plausible_iff_nonempty_name_symbol_or_decimals_or_logs :
  (forall data : Data,
      plausible data = true <->
      nonempty_text (d_name data) \/ nonempty_text (d_symbol data)
      \/ present (d_decimals data) \/ d_has_transfer_logs data = true)
  /\ (forall (c a txh ts : string) (cb fb : Z) (extra : list (string * JVal)),
         plausible (mkData c a cb fb txh ts (Some "Foo") None None None false extra) = true)
  /\ (forall (c a txh ts : string) (cb fb : Z) (extra : list (string * JVal)),
         plausible (mkData c a cb fb txh ts None None None None false extra) = false)
  /\ (forall (W : Type) (args : Args) (a : string) (data : Data) (st st' : St W)
             (r : Exc Ctl),
         record_candidate args a data st = (st', r) ->
         address_taken (db st) (Py.lower (d_address data)) = false ->
         db st' = (if plausible data || save_all args
                   then db st ++ [data_row (next_rowid (db st)) data]
                   else db st)
         /\ (save_all args = false ->
             db st' = if plausible data
                      then db st ++ [data_row (next_rowid (db st)) data]
                      else db st)).
Proof.
  split; [|split; [|split]].
  - intros data. unfold plausible, Py.any, present. simpl.
    rewrite !orb_true_iff, !truthy_nonempty.
    destruct (d_decimals data) as [z|]; intuition congruence.
  - reflexivity.
  - reflexivity.
  - intros W args a data st st' r H Hfresh.
    apply record_candidate_db in H. unfold insert_or_ignore in H. simpl in H.
    rewrite Hfresh in H. split; [exact H|].
    intros Hs. rewrite Hs, orb_false_r in H. exact H.
Qed.

(** The recording part on a candidate named Foo and the fresh table. *)
Lemma plausible_iff_nonempty_name_symbol_or_decimals_or_logs_witness :
  db (fst (record_candidate Script.args0 Script.addr1 Script.token_eth (Script.st0 [])))
    = (if plausible Script.token_eth || save_all Script.args0
       then db (Script.st0 []) ++ [data_row (next_rowid (db (Script.st0 []))) Script.token_eth]
       else db (Script.st0 []))
  /\ (save_all Script.args0 = false ->
      db (fst (record_candidate Script.args0 Script.addr1 Script.token_eth (Script.st0 [])))
        = if plausible Script.token_eth
          then db (Script.st0 []) ++ [data_row (next_rowid (db (Script.st0 []))) Script.token_eth]
          else db (Script.st0 [])).
Proof.
  apply (proj2 (proj2 (proj2 plausible_iff_nonempty_name_symbol_or_decimals_or_logs))
           nat Script.args0 Script.addr1 Script.token_eth (Script.st0 []) _
           (snd (record_candidate Script.args0 Script.addr1 Script.token_eth (Script.st0 [])))).
  - apply surjective_pairing.
  - reflexivity.
Defined.

(** C5, as stated, fails: a probe result whose name is present but is the
    empty string, with nothing else, has one of the four fields present and
    yet is judged not plausible and is not stored in default mode. *)
Lemma present_empty_name_is_not_plausible :
  present (d_name Script.unnamed)
  /\ plausible Script.unnamed = false
  /\ save_all Script.args0 = false
  /\ db (fst (record_candidate Script.args0 Script.addr1 Script.unnamed (Script.st0 []))) = [].
Proof. repeat split; try reflexivity. discriminate. Qed.

(** C6. The probe never raises: for every address, every pair of block
    heights and every behaviour of the remote calls, [inspect_contract]
    returns a result and touches nothing but the endpoint. In the result a
    metadata field is the value of its call when the call succeeded and is
    absent when the call failed in any way; a failed log query leaves
    "has transfer logs" false and puts the error text under
    [transfer_log_error], a successful one records the log count. *)
Theorem inspect_contract_never_raises :
  forall (W : Type) (w3 : Web3 W) (address : string) (creation_block found_block : Z)
         (st : St W),
    let c1 := raw_call w3 address FnName found_block (world st) in
    let c2 := raw_call w3 address FnSymbol found_block (fst c1) in
    let c3 := raw_call w3 address FnDecimals found_block (fst c2) in
    let c4 := raw_call w3 address FnTotalSupply found_block (fst c3) in
    let c5 := raw_logs w3 address creation_block found_block (fst c4) in
    exists info : Info,
      inspect_contract w3 address creation_block found_block st
        = (mkSt (fst c5) (db st) (fs st) (out st), Ok info)
      /\ i_name info = field_of (snd c1)
      /\ i_symbol info = field_of (snd c2)
      /\ i_decimals info = field_of (snd c3)
      /\ i_total_supply info = option_map Py.str_int (field_of (snd c4))
      /\ match snd c5 with
         | Ok logs =>
             i_has_transfer_logs info = (0 <? Z.of_nat (length logs))
             /\ i_extra_json info = [("transfer_log_count", JInt (Z.of_nat (length logs)))]
         | Raise e =>
             i_has_transfer_logs info = false
             /\ i_extra_json info = [("transfer_log_error", JStr (exn_msg e))]
         end.
Proof.
  intros W w3 address creation_block found_block st.
  exact (inspect_contract_run w3 address creation_block found_block st).
Qed.

(** The probe on the scripted chain: the name is read, the three reverting
    calls leave their fields absent, and the log count is recorded. *)
Example inspect_contract_on_script :
  snd (inspect_contract Script.token_w3 Script.addr1 97 97 (Script.st0 []))
  = Ok (mkInfo (Some "Foo") None None None false [("transfer_log_count", JInt 0)]).
Proof. reflexivity. Qed.



(** C8 (amended). When the read of the chain head fails, the pass logs the
    error, sleeps [max(5, poll_interval)] seconds (the poll interval itself
    whenever that is at least 5), and goes round again with the watermark,
    the table and the files as they were, for every poll interval. *)
Theorem head_failure_sleeps_max_5_poll :
  forall (W : Type) (w3 : Web3 W) (clock : Clock W) (args : Args) (start : Z)
         (lpb : option Z) (st : St W) (w' : W) (e : Exn),
    block_number w3 (world st) = (w', Raise e) ->
    tick w3 clock args start lpb st
      = (mkSt w' (db st) (fs st)
              (out st ++ [Print (MErrLatest (exn_msg e));
                          Sleep (Z.max 5 (poll_interval args))]),
         Ok (Continue lpb))
    /\ (5 <= poll_interval args -> Z.max 5 (poll_interval args) = poll_interval args).
Proof.
  intros W w3 clock args start lpb st w' e H. split; [|lia].
  unfold tick, bind, try_except, on_world. rewrite H.
  unfold sleep, print, emit, ret. simpl.
  destruct (Z.max 5 (poll_interval args) <? 0) eqn:E; [lia|].
  simpl. now rewrite <- app_assoc.
Qed.

(** The statement on an endpoint that cannot be reached. *)
Lemma head_failure_sleeps_max_5_poll_witness :
  tick Script.down_w3 Script.clock Script.args0 0 (Some 95) (Script.st0 [])
    = (mkSt 1%nat [] ∅
            [Print (MErrLatest "connection refused");
             Sleep (Z.max 5 (poll_interval Script.args0))],
       Ok (Continue (Some 95)))
  /\ (5 <= poll_interval Script.args0 ->
      Z.max 5 (poll_interval Script.args0) = poll_interval Script.args0).
Proof.
  apply (head_failure_sleeps_max_5_poll nat Script.down_w3 Script.clock Script.args0 0
           (Some 95) (Script.st0 []) 1%nat (Script.err "connection refused")).
  reflexivity.
Defined.

(** C8, as stated, fails: with the default poll interval of 4 seconds the
    pass sleeps 5 seconds, not one poll interval. *)
Lemma head_failure_sleep_is_not_poll_interval :
  poll_interval Script.args0 = 4
  /\ out (fst (tick Script.down_w3 Script.clock Script.args0 0 (Some 95) (Script.st0 [])))
     = [Print (MErrLatest "connection refused"); Sleep 5]
  /\ ~ In (Sleep (poll_interval Script.args0))
          (out (fst (tick Script.down_w3 Script.clock Script.args0 0 (Some 95)
                       (Script.st0 [])))).
Proof.
  vm_compute. repeat split. intros [H|[H|[]]]; discriminate H.
Qed.

(** C9 (amended). For every file and every behaviour of the reads,
    [split_novel_by_chapters] returns and never raises, and the list it
    returns is not empty. When the read fails it falls back to a single
    chapter: the entire document when a second read succeeds, and the fixed
    text "Unable to read file contents" when that fails too. *)
Theorem split_novel_by_chapters_never_raises :
  forall (W : Type) (io : FileIO W) (file_path : string) (st : St W),
    exists (st' : St W) (chapters : list string),
      split_novel_by_chapters io file_path st = (st', Ok chapters)
      /\ chapters <> []
      /\ (forall (w1 : W) (e : Exn),
             read_text io file_path (world st) = (w1, Raise e) ->
             (forall (w2 : W) (content : string),
                 read_text io file_path w1 = (w2, Ok content) -> chapters = [content])
             /\ (forall (w2 : W) (e2 : Exn),
                    read_text io file_path w1 = (w2, Raise e2) ->
                    chapters = ["Unable to read file contents"])).
Proof.
  intros W io file_path st.
  unfold split_novel_by_chapters, try_except, bind, on_world.
  destruct (read_text io file_path (world st)) as [w1 [content|e]] eqn:E1; simpl.
  - destruct (_is_chapter_title content); simpl.
    + destruct (_split_large_novel content) as [|c cs]; simpl;
        eexists; eexists; (split; [reflexivity|]); split; discriminate.
    + unfold _split_small_novel.
      destruct (group_lines (Str.split Str.newline content) [] []) as [chs cur].
      unfold bind, print, emit. simpl.
      match goal with
      | |- context [if ?b then ret ?x else ret ?y] => destruct b; simpl
      end.
      * destruct (_split_by_paragraphs content) as [|c cs]; simpl;
          eexists; eexists; (split; [reflexivity|]); split; discriminate.
      * match goal with
        | |- context [match ?l with [] => [content] | _ :: _ => _ end] =>
            destruct l as [|c cs]; simpl
        end;
          eexists; eexists; (split; [reflexivity|]); split; discriminate.
  - unfold print, emit. simpl.
    destruct (read_text io file_path w1) as [w2 [content|e2]] eqn:E2; simpl;
      eexists; eexists; (split; [reflexivity|]); (split; [discriminate|]);
      intros w1' e' Heq; inversion Heq; subst; split; intros w2' x Hx;
      rewrite E2 in Hx; inversion Hx; subst; reflexivity.
Qed.

(** The statement on a file whose first read fails and whose second read
    gives its text. *)
Lemma split_novel_by_chapters_never_raises_witness :
  read_text Script.busy_io "novel.txt" 0%nat = (1%nat, Raise (Script.err "busy"))
  /\ read_text Script.busy_io "novel.txt" 1%nat = (2%nat, Ok Script.novel)
  /\ snd (split_novel_by_chapters Script.busy_io "novel.txt" (Script.st0 []))
     = Ok [Script.novel].
Proof.
  destruct (split_novel_by_chapters_never_raises nat Script.busy_io "novel.txt" (Script.st0 []))
    as (st' & chapters & Hrun & _ & Hfall).
  split; [reflexivity|]. split; [reflexivity|].
  rewrite Hrun. simpl. f_equal.
  exact (proj1 (Hfall 1%nat (Script.err "busy") eq_refl) 2%nat Script.novel eq_refl).
Defined.

(** C9, as stated, fails: for a file that cannot be read the call returns a
    single chapter that is the fixed text, not the document. *)
Lemma unreadable_file_gives_the_fixed_text :
  snd (read_text Script.unreadable_io "novel.txt" 0%nat)
    = Raise (Script.err "invalid start byte")
  /\ snd (split_novel_by_chapters Script.unreadable_io "novel.txt" (Script.st0 []))
     = Ok ["Unable to read file contents"].
Proof. split; reflexivity. Qed.

(** A readable file is split at its chapter titles. *)
Example split_novel_on_script :
  snd (split_novel_by_chapters
         (mkFileIO nat (fun _ => Script.remote (fun _ => Ok Script.novel)))
         "novel.txt" (Script.st0 []))
  = Ok [Script.novel].
Proof. reflexivity. Qed.

(** C10. Plausibility tests name and symbol by truth value and decimals by
    presence. A candidate whose name and symbol are each empty or absent,
    with decimals absent and no transfer logs, is not plausible, and in
    default mode recording it changes nothing; a candidate with decimals 0
    is plausible whatever its other fields. *)
Theorem plausibility_tests_truth_of_name_and_symbol :
  (forall data : Data,
      plausible data
      = Py.truthy (d_name data) || Py.truthy (d_symbol data)
        || (match d_decimals data with Some _ => true | None => false end)
        || d_has_transfer_logs data)
  /\ (forall data : Data,
         (d_name data = Some "" \/ d_name data = None) ->
         (d_symbol data = Some "" \/ d_symbol data = None) ->
         d_decimals data = None ->
         d_has_transfer_logs data = false ->
         plausible data = false
         /\ forall (W : Type) (args : Args) (a : string) (st : St W),
              save_all args = false ->
              record_candidate args a data st = (st, Ok Next))
  /\ (forall data : Data, d_decimals data = Some 0 -> plausible data = true)
  /\ plausible Script.zero_decimals = true.
Proof.
  split; [|split; [|split]].
  - intros data. unfold plausible, Py.any. simpl.
    now rewrite orb_false_r, !orb_assoc.
  - intros data Hn Hs Hd Hl.
    assert (Hp : plausible data = false).
    { unfold plausible, Py.any. simpl. rewrite Hd, Hl.
      destruct Hn as [-> | ->], Hs as [-> | ->]; reflexivity. }
    split; [exact Hp|].
    intros W args a st Hsa. unfold record_candidate. rewrite Hp, Hsa. reflexivity.
  - intros data Hd. unfold plausible, Py.any. simpl. rewrite Hd.
    now rewrite !orb_true_r.
  - reflexivity.
Qed.

(** The second part on a candidate with an empty name and nothing else. *)
Lemma plausibility_tests_truth_of_name_and_symbol_witness :
  plausible Script.unnamed = false
  /\ record_candidate Script.args0 Script.addr1 Script.unnamed (Script.st0 [])
     = (Script.st0 [], Ok Next).
Proof.
  destruct (proj1 (proj2 plausibility_tests_truth_of_name_and_symbol) Script.unnamed)
    as [Hp Hr].
  - left. reflexivity.
  - right. reflexivity.
  - reflexivity.
  - reflexivity.
  - split; [exact Hp|]. apply (Hr nat Script.args0 Script.addr1 (Script.st0 [])).
    reflexivity.
Defined.

(** * Further properties of the code *)

(** ** Strings *)

Lemma str_app_cons (c : ascii) (s t : string) : String c s +:+ t = String c (s +:+ t).
Proof. reflexivity. Qed.

Lemma str_app_nil_l (t : string) : "" +:+ t = t.
Proof. reflexivity. Qed.

(** Push [+:+] through the constructors of its first argument. *)
Ltac app_simpl := rewrite ?str_app_cons, ?str_app_nil_l.
Ltac app_simpl_in H := rewrite ?str_app_cons, ?str_app_nil_l in H.

Lemma str_app_nil_r (s : string) : s +:+ "" = s.
Proof. induction s as [|c s IH]; app_simpl; [reflexivity|now rewrite IH]. Qed.

Lemma str_app_assoc (a b c : string) : (a +:+ b) +:+ c = a +:+ b +:+ c.
Proof. induction a as [|x a IH]; app_simpl; [reflexivity|now rewrite IH]. Qed.

Lemma str_app_length (a b : string) :
  String.length (a +:+ b) = (String.length a + String.length b)%nat.
Proof. induction a as [|x a IH]; app_simpl; simpl; [reflexivity|now rewrite IH]. Qed.

Lemma rev_string_acc (acc s : string) :
  Str.rev_string acc s = Str.rev_string "" s +:+ acc.
Proof.
  revert acc. induction s as [|c s IH]; intros acc; simpl; [reflexivity|].
  rewrite (IH (String c acc)), (IH (String c "")), str_app_assoc. reflexivity.
Qed.

Lemma prefix_app (p s : string) : String.prefix p s = true -> exists r, s = p +:+ r.
Proof.
  revert s. induction p as [|c p IH]; intros s H.
  - now exists s.
  - destruct s as [|d s]; simpl in H; [discriminate|].
    destruct (ascii_dec c d) as [->|]; [|discriminate].
    destruct (IH s H) as [r ->]. now exists r.
Qed.

Lemma split_from_skip (sep x rest cur : string) :
  Str.split_from sep (x +:+ rest) cur (String.length x) = Str.split_from sep rest cur 0.
Proof. induction x as [|c x IH]; app_simpl; simpl; [reflexivity|exact IH]. Qed.

Lemma split_from_cons (sep : string) (c : ascii) (s cur : string) :
  Str.split_from sep (String c s) cur 0
  = if String.prefix sep (String c s)
    then Str.rev_string "" cur :: Str.split_from sep s "" (Nat.pred (String.length sep))
    else Str.split_from sep s (String c cur) 0.
Proof. reflexivity. Qed.

Lemma split_from_nonempty (sep s cur : string) (k : nat) : Str.split_from sep s cur k <> [].
Proof.
  revert cur k. induction s as [|c s IH]; intros cur k; destruct k;
    try (simpl; discriminate).
  - rewrite split_from_cons.
    destruct (String.prefix sep (String c s)); [discriminate|apply IH].
  - simpl. apply IH.
Qed.

Lemma join_cons (sep x : string) (l : list string) :
  l <> [] -> Py.join sep (x :: l) = x +:+ sep +:+ Py.join sep l.
Proof. destruct l; [congruence|reflexivity]. Qed.

Lemma join_split_from (sep : string) :
  sep <> "" ->
  forall (n : nat) (s cur : string),
    (String.length s <= n)%nat ->
    Py.join sep (Str.split_from sep s cur 0) = Str.rev_string "" cur +:+ s.
Proof.
  intros Hsep. induction n as [|n IH]; intros s cur Hlen.
  - destruct s; [|simpl in Hlen; lia]. simpl. now rewrite str_app_nil_r.
  - destruct s as [|c s]; [simpl; now rewrite str_app_nil_r|].
    rewrite split_from_cons. destruct (String.prefix sep (String c s)) eqn:E.
    + apply prefix_app in E. destruct E as [r Hr].
      destruct sep as [|c0 sep']; [congruence|].
      app_simpl_in Hr. inversion Hr; subst c0 s. simpl Nat.pred.
      rewrite split_from_skip, join_cons by apply split_from_nonempty.
      rewrite IH.
      * reflexivity.
      * simpl in Hlen. rewrite str_app_length in Hlen. lia.
    + rewrite IH by (simpl in Hlen; lia).
      simpl. rewrite (rev_string_acc (String c "")), str_app_assoc. reflexivity.
Qed.

(** Joining the pieces of a split with the separator gives the text back. *)
Lemma join_split (sep s : string) : sep <> "" -> Py.join sep (Str.split sep s) = s.
Proof. intros H. unfold Str.split. now rewrite (join_split_from sep H (String.length s)). Qed.

Lemma infix_refl (s : string) : infix_of s s.
Proof. exists "", "". simpl. now rewrite str_app_nil_r. Qed.

Lemma infix_trans (a b c : string) : infix_of a b -> infix_of b c -> infix_of a c.
Proof.
  intros (p1 & q1 & ->) (p2 & q2 & ->). exists (p2 +:+ p1), (q1 +:+ q2).
  now rewrite !str_app_assoc.
Qed.

Lemma infix_join (sep : string) (l : list string) (p : string) :
  In p l -> infix_of p (Py.join sep l).
Proof.
  induction l as [|x l IH]; intros H; [destruct H|].
  destruct l as [|y l].
  - destruct H as [->|[]]. apply infix_refl.
  - rewrite join_cons by discriminate. destruct H as [->|H].
    + exists "", (sep +:+ Py.join sep (y :: l)). reflexivity.
    + apply (infix_trans _ _ _ (IH H)).
      exists (x +:+ sep), "". now rewrite str_app_nil_r, str_app_assoc.
Qed.

Lemma infix_split (sep s p : string) : sep <> "" -> In p (Str.split sep s) -> infix_of p s.
Proof. intros Hs H. rewrite <- (join_split sep s Hs). now apply infix_join. Qed.

Lemma lstrip_suffix (s : string) :
  exists pre, s = pre +:+ Str.lstrip s /\ blank pre = true.
Proof.
  induction s as [|c s (pre & IH & Hb)]; [now exists ""|]. simpl.
  destruct (Re.is_space c) eqn:E.
  - exists (String c pre). app_simpl. split; [now rewrite <- IH|].
    simpl. now rewrite E, Hb.
  - now exists "".
Qed.

Lemma rstrip_prefix (s : string) :
  exists post, s = Str.rstrip s +:+ post /\ blank post = true.
Proof.
  induction s as [|c s (post & IH & Hb)]; [now exists ""|]. simpl.
  destruct (Str.rstrip s) as [|d r] eqn:E.
  - app_simpl_in IH. destruct (Re.is_space c) eqn:Ec.
    + exists (String c post). app_simpl. split; [now rewrite <- IH|].
      simpl. now rewrite Ec, Hb.
    + exists post. app_simpl. split; [now rewrite <- IH|exact Hb].
  - exists post. app_simpl. split; [|exact Hb].
    rewrite <- str_app_cons, <- IH. reflexivity.
Qed.

Lemma infix_strip (s : string) : infix_of (Str.strip s) s.
Proof.
  unfold Str.strip.
  destruct (lstrip_suffix s) as (pre & H1 & _).
  destruct (rstrip_prefix (Str.lstrip s)) as (post & H2 & _).
  exists pre, post. now rewrite <- H2.
Qed.

(** ** Patterns *)

Lemma match_here_ext (p : Re.Pattern) :
  forall (s : string) (n : nat),
    Re.match_here p s = Some n ->
    forall t : string, exists m, Re.match_here p (s +:+ t) = Some m.
Proof.
  induction p as [|[a|a] p IH]; intros s n H t.
  - simpl. eauto.
  - destruct s as [|c s]; simpl in *; [discriminate|].
    destruct (Re.atom_ok a c); [|discriminate].
    destruct (Re.match_here p s) as [k|] eqn:E; [|discriminate].
    destruct (IH s k E t) as [m ->]. simpl. eauto.
  - revert n H. simpl. induction s as [|c s IHs]; intros n H; simpl in *; [discriminate|].
    destruct (Re.atom_ok a c); [|discriminate].
    match type of H with
    | match ?x with _ => _ end = _ => destruct x as [k|] eqn:E
    end.
    + destruct (IHs k eq_refl) as [m ->]. eauto.
    + match goal with
      | |- exists _, match ?x with _ => _ end = _ => destruct x; [eauto|]
      end.
      destruct (Re.match_here p s) as [k|] eqn:E2; [|discriminate].
      destruct (IH s k E2 t) as [m ->]. simpl. eauto.
Qed.

Lemma search_eq (p : Re.Pattern) (s : string) :
  Re.search p s
  = match Re.match_here p s with
    | Some _ => true
    | None => match s with String _ s' => Re.search p s' | EmptyString => false end
    end.
Proof. destruct s; reflexivity. Qed.

Lemma search_app_r (p : Re.Pattern) (s t : string) :
  Re.search p s = true -> Re.search p (s +:+ t) = true.
Proof.
  induction s as [|c s IH]; intros H; rewrite search_eq in H; app_simpl;
    rewrite search_eq.
  - destruct (Re.match_here p "") as [n|] eqn:E; [|discriminate].
    destruct (match_here_ext p "" n E t) as [m Hm]. app_simpl_in Hm.
    now rewrite Hm.
  - destruct (Re.match_here p (String c s)) as [n|] eqn:E.
    + destruct (match_here_ext p _ n E t) as [m Hm]. app_simpl_in Hm.
      now rewrite Hm.
    + destruct (Re.match_here p (String c (s +:+ t))); [reflexivity|]. now apply IH.
Qed.

Lemma search_app_l (p : Re.Pattern) (pre s : string) :
  Re.search p s = true -> Re.search p (pre +:+ s) = true.
Proof.
  intros H. induction pre as [|c pre IH]; [exact H|].
  app_simpl. rewrite search_eq. destruct (Re.match_here p _); [reflexivity|exact IH].
Qed.

Lemma search_infix (p : Re.Pattern) (a b : string) :
  infix_of a b -> Re.search p a = true -> Re.search p b = true.
Proof. intros (pre & post & ->) H. now apply search_app_l, search_app_r. Qed.

Lemma is_chapter_title_infix (a b : string) :
  infix_of a b -> _is_chapter_title a = true -> _is_chapter_title b = true.
Proof.
  intros Hi. unfold _is_chapter_title. rewrite !existsb_exists.
  intros (p & Hp & Hs). exists p. split; [exact Hp|]. now apply (search_infix p a b).
Qed.

(** ** Characters *)

Lemma all_ascii_In (c : ascii) : In c all_ascii.
Proof.
  unfold all_ascii. apply in_map_iff. exists (nat_of_ascii c). split.
  - apply ascii_nat_embedding.
  - apply in_seq. pose proof (nat_ascii_bounded c). lia.
Qed.

Lemma ascii_forall (P : ascii -> bool) :
  forallb P all_ascii = true -> forall c, P c = true.
Proof. intros H c. rewrite forallb_forall in H. apply H, all_ascii_In. Qed.

Lemma lower_char_idem (c : ascii) : Py.lower_char (Py.lower_char c) = Py.lower_char c.
Proof.
  apply Ascii.eqb_eq. revert c. apply ascii_forall. vm_compute. reflexivity.
Qed.

Lemma lower_idem (s : string) : Py.lower (Py.lower s) = Py.lower s.
Proof. induction s as [|c s IH]; simpl; [reflexivity|]. now rewrite lower_char_idem, IH. Qed.

Lemma is_digit_lower (c : ascii) : Re.is_digit (Py.lower_char c) = Re.is_digit c.
Proof.
  apply Bool.eqb_prop. revert c.
  apply (ascii_forall (fun c => Bool.eqb (Re.is_digit (Py.lower_char c)) (Re.is_digit c))).
  vm_compute. reflexivity.
Qed.

Lemma is_space_lower (c : ascii) : Re.is_space (Py.lower_char c) = Re.is_space c.
Proof.
  apply Bool.eqb_prop. revert c.
  apply (ascii_forall (fun c => Bool.eqb (Re.is_space (Py.lower_char c)) (Re.is_space c))).
  vm_compute. reflexivity.
Qed.

Lemma is_newline_lower (c : ascii) :
  Ascii.eqb (Py.lower_char c) (ascii_of_N 10) = Ascii.eqb c (ascii_of_N 10).
Proof.
  apply Bool.eqb_prop. revert c.
  apply (ascii_forall (fun c => Bool.eqb (Ascii.eqb (Py.lower_char c) (ascii_of_N 10))
                                         (Ascii.eqb c (ascii_of_N 10)))).
  vm_compute. reflexivity.
Qed.

Lemma atom_ok_lower (a : Re.Atom) (c : ascii) :
  Re.atom_ok a (Py.lower_char c) = Re.atom_ok a c.
Proof.
  destruct a as [l| | | |chars digits]; simpl.
  - now rewrite lower_char_idem.
  - now rewrite is_newline_lower.
  - apply is_digit_lower.
  - apply is_space_lower.
  - now rewrite is_digit_lower, lower_char_idem.
Qed.

Lemma match_here_lower (p : Re.Pattern) (s : string) :
  Re.match_here p (Py.lower s) = Re.match_here p s.
Proof.
  revert s. induction p as [|[a|a] p IH]; intros s.
  - reflexivity.
  - destruct s as [|c s]; simpl; [reflexivity|]. now rewrite atom_ok_lower, IH.
  - simpl. induction s as [|c s IHs]; simpl; [reflexivity|].
    rewrite atom_ok_lower, IHs, IH. reflexivity.
Qed.

Lemma search_lower (p : Re.Pattern) (s : string) :
  Re.search p (Py.lower s) = Re.search p s.
Proof.
  induction s as [|c s IH].
  - reflexivity.
  - rewrite (search_eq p (String c s)), <- match_here_lower, <- IH. simpl.
    destruct (Re.match_here p _); reflexivity.
Qed.

(** ** Stripping *)

Lemma rstrip_cons (c : ascii) (r : string) :
  Str.rstrip (String c r)
  = match Str.rstrip r with
    | EmptyString => if Re.is_space c then EmptyString else String c EmptyString
    | r' => String c r'
    end.
Proof. reflexivity. Qed.

Lemma rstrip_head (c : ascii) (r : string) :
  Re.is_space c = false -> Str.rstrip (String c r) = String c (Str.rstrip r).
Proof. intros H. rewrite rstrip_cons, H. now destruct (Str.rstrip r). Qed.

Lemma rstrip_idem (s : string) : Str.rstrip (Str.rstrip s) = Str.rstrip s.
Proof.
  induction s as [|c s IH]; [reflexivity|]. rewrite rstrip_cons.
  destruct (Str.rstrip s) as [|d r] eqn:E.
  - destruct (Re.is_space c) eqn:Ec; [reflexivity|].
    rewrite rstrip_cons. simpl. now rewrite Ec.
  - rewrite rstrip_cons, IH. reflexivity.
Qed.

Lemma lstrip_head (s : string) :
  Str.lstrip s = ""
  \/ exists c r, Str.lstrip s = String c r /\ Re.is_space c = false.
Proof.
  induction s as [|c s IH]; [now left|]. simpl.
  destruct (Re.is_space c) eqn:E; [exact IH|]. right. eauto.
Qed.

Lemma lstrip_fixed (c : ascii) (r : string) :
  Re.is_space c = false -> Str.lstrip (String c r) = String c r.
Proof. intros H. simpl. now rewrite H. Qed.

Lemma strip_cases (s : string) :
  Str.strip s = ""
  \/ exists c r, Str.strip s = String c (Str.rstrip r) /\ Re.is_space c = false.
Proof.
  unfold Str.strip. destruct (lstrip_head s) as [->|(c & r & -> & Hc)].
  - now left.
  - right. exists c, r. split; [now apply rstrip_head|exact Hc].
Qed.

Lemma strip_idem (s : string) : Str.strip (Str.strip s) = Str.strip s.
Proof.
  destruct (strip_cases s) as [->|(c & r & -> & Hc)]; [reflexivity|].
  unfold Str.strip. rewrite lstrip_fixed, rstrip_head, rstrip_idem by exact Hc.
  reflexivity.
Qed.

Lemma trimmed_strip (s : string) : Str.strip s <> "" -> trimmed (Str.strip s).
Proof. intros H. split; [exact H|apply strip_idem]. Qed.

Lemma trimmed_inv (s : string) :
  trimmed s ->
  (exists c r, s = String c r /\ Re.is_space c = false) /\ Str.rstrip s = s.
Proof.
  intros [Hne Hs]. destruct (strip_cases s) as [E|(c & r & E & Hc)].
  - congruence.
  - rewrite Hs in E. split; [eauto|].
    rewrite E at 1. rewrite rstrip_head, rstrip_idem by exact Hc. now symmetry.
Qed.

Lemma trimmed_intro (c : ascii) (r : string) :
  Re.is_space c = false -> Str.rstrip (String c r) = String c r -> trimmed (String c r).
Proof.
  intros Hc Hr. split; [discriminate|]. unfold Str.strip.
  now rewrite lstrip_fixed.
Qed.

Lemma rstrip_app (a b : string) :
  b <> "" -> Str.rstrip b = b -> Str.rstrip (a +:+ b) = a +:+ b.
Proof.
  intros Hne Hb. induction a as [|c a IH]; app_simpl; [exact Hb|].
  rewrite rstrip_cons, IH. destruct (a +:+ b) eqn:E; [|reflexivity].
  destruct a; app_simpl_in E; [congruence|discriminate].
Qed.

Lemma trimmed_app (a sep b : string) : trimmed a -> trimmed b -> trimmed (a +:+ sep +:+ b).
Proof.
  intros Ha Hb. apply trimmed_inv in Ha. destruct Ha as [(c & r & -> & Hc) _].
  destruct Hb as [Hne Hb]. assert (Hb' := trimmed_inv b (conj Hne Hb)).
  destruct Hb' as [_ Hr]. app_simpl. apply trimmed_intro; [exact Hc|].
  rewrite <- str_app_cons, <- str_app_assoc. now apply rstrip_app.
Qed.

Lemma trimmed_join (sep : string) (l : list string) :
  l <> [] -> List.Forall trimmed l -> trimmed (Py.join sep l).
Proof.
  induction l as [|x l IH]; intros Hne H; [congruence|].
  inversion H as [|? ? Hx Hl]; subst. destruct l as [|y l]; [exact Hx|].
  rewrite join_cons by discriminate. apply trimmed_app; [exact Hx|].
  apply IH; [discriminate|exact Hl].
Qed.

Lemma nonempty_true (s : string) : Str.nonempty s = true <-> s <> "".
Proof. destruct s; simpl; split; congruence. Qed.

Lemma stripped_nonempty_trimmed (l : list string) :
  List.Forall trimmed (stripped_nonempty l).
Proof.
  unfold stripped_nonempty. apply List.Forall_forall. intros x Hx.
  apply filter_In in Hx. destruct Hx as [Hin Hne].
  apply in_map_iff in Hin. destruct Hin as (y & <- & _).
  apply trimmed_strip. now apply nonempty_true.
Qed.

(** ** Blank text *)

Lemma blank_app (a b : string) : blank (a +:+ b) = blank a && blank b.
Proof.
  induction a as [|c a IH]; app_simpl; simpl; [reflexivity|].
  now rewrite IH, andb_assoc.
Qed.

Lemma blank_infix (a b : string) : infix_of a b -> blank b = true -> blank a = true.
Proof.
  intros (pre & post & ->). rewrite !blank_app, !andb_true_iff. tauto.
Qed.

Lemma blank_lstrip (s : string) : blank s = true -> Str.lstrip s = "".
Proof.
  induction s as [|c s IH]; simpl; [reflexivity|].
  rewrite andb_true_iff. intros [-> H]. now apply IH.
Qed.

Lemma blank_strip (s : string) : blank s = true <-> Str.strip s = "".
Proof.
  split.
  - intros H. unfold Str.strip. now rewrite blank_lstrip.
  - intros H. destruct (lstrip_suffix s) as (pre & Hs & Hb).
    destruct (strip_cases s) as [_|(c & r & E & _)]; [|congruence].
    unfold Str.strip in H. destruct (lstrip_head s) as [E|(c & r & E & Hc)].
    + rewrite E, str_app_nil_r in Hs. now rewrite Hs.
    + rewrite E, rstrip_head in H by exact Hc. discriminate.
Qed.

Lemma blank_join (sep : string) (l : list string) :
  blank sep = true -> (forall x, In x l -> blank x = true) -> blank (Py.join sep l) = true.
Proof.
  intros Hs. induction l as [|x l IH]; intros H; [reflexivity|].
  destruct l as [|y l]; [apply H; now left|].
  rewrite join_cons by discriminate. rewrite !blank_app, Hs, (H x (or_introl eq_refl)).
  simpl. apply IH. intros z Hz. apply H. now right.
Qed.

Lemma stripped_nonempty_nil (l : list string) :
  stripped_nonempty l = [] <-> forall x, In x l -> blank x = true.
Proof.
  unfold stripped_nonempty. induction l as [|x l IH]; simpl; [tauto|].
  destruct (Str.nonempty (Str.strip x)) eqn:E.
  - split; [discriminate|]. intros H.
    assert (Hx : blank x = true) by (apply H; now left).
    apply blank_strip in Hx. rewrite Hx in E. discriminate.
  - rewrite IH. split.
    + intros H y [<-|Hy]; [|now apply H].
      apply blank_strip. destruct (Str.strip x); [reflexivity|discriminate].
    + intros H y Hy. apply H. now right.
Qed.

Lemma newline_blank : blank Str.newline = true.
Proof. reflexivity. Qed.

Lemma newline_nonempty : Str.newline <> "".
Proof. discriminate. Qed.

Lemma blank_lines_blank (content : string) :
  stripped_nonempty (Str.split Str.newline content) = [] -> blank content = true.
Proof.
  intros H. rewrite stripped_nonempty_nil in H.
  rewrite <- (join_split Str.newline content newline_nonempty).
  apply blank_join; [reflexivity|exact H].
Qed.

Lemma blank_pieces (sep content : string) :
  sep <> "" -> blank content = true -> stripped_nonempty (Str.split sep content) = [].
Proof.
  intros Hs Hb. apply stripped_nonempty_nil. intros x Hx.
  apply (blank_infix x content); [|exact Hb]. now apply infix_split with sep.
Qed.

(** ** Slices *)

Lemma substring_prefix (m : nat) (s : string) :
  exists post, s = String.substring 0 m s +:+ post.
Proof.
  revert m. induction s as [|c s IH]; intros m.
  - exists "". now destruct m.
  - destruct m as [|m]; simpl.
    + now exists (String c s).
    + destruct (IH m) as [post Hp]. exists post. app_simpl. now rewrite <- Hp.
Qed.

Lemma substring_infix (n m : nat) (s : string) : infix_of (String.substring n m s) s.
Proof.
  revert n. induction s as [|c s IH]; intros n.
  - destruct n, m; apply infix_refl.
  - destruct n as [|n].
    + destruct (substring_prefix m (String c s)) as [post Hp].
      exists "", post. exact Hp.
    + simpl. apply (infix_trans _ _ _ (IH n)). exists (String c ""), "".
      app_simpl. now rewrite str_app_nil_r.
Qed.

Lemma substring_sdrop (n m : nat) (s : string) (c : ascii) (r : string) :
  sdrop n s = String c r ->
  String.substring n (S m) s = String c (String.substring 0 m r).
Proof.
  revert s. induction n as [|n IH]; intros s H; simpl in H.
  - subst s. reflexivity.
  - destruct s as [|d s]; [discriminate|]. simpl. now apply IH.
Qed.

Lemma sdrop_length (n : nat) (s : string) (c : ascii) (r : string) :
  sdrop n s = String c r -> (n < String.length s)%nat.
Proof.
  revert s. induction n as [|n IH]; intros s H; simpl in H.
  - subst s. simpl. lia.
  - destruct s as [|d s]; [discriminate|]. simpl. apply IH in H. lia.
Qed.

(** ** [_extract_chapters_by_pattern] *)

Lemma extract_cons (content : string) (start : nat) (rest : list nat) :
  _extract_chapters_by_pattern content (start :: rest)
  = let stop := match rest with next :: _ => next | [] => String.length content end in
    let chapter_content := Str.strip (Str.slice content start stop) in
    if Str.nonempty chapter_content
    then chapter_content :: _extract_chapters_by_pattern content rest
    else _extract_chapters_by_pattern content rest.
Proof. reflexivity. Qed.

Lemma extract_chapters_ok (content : string) (matches : list nat) :
  List.Forall (fun c => trimmed c /\ infix_of c content)
              (_extract_chapters_by_pattern content matches)
  /\ (length (_extract_chapters_by_pattern content matches) <= length matches)%nat.
Proof.
  induction matches as [|start rest [IH1 IH2]]; [split; [constructor|reflexivity]|].
  rewrite extract_cons. cbv zeta.
  destruct (Str.nonempty (Str.strip (Str.slice content start _))) eqn:E.
  - split; [|simpl; lia]. constructor; [|exact IH1]. split.
    + apply trimmed_strip. now apply nonempty_true.
    + apply (infix_trans _ _ _ (infix_strip _)). apply substring_infix.
  - split; [exact IH1|simpl; lia].
Qed.

(** A match that starts on a character that is not white space, and ends
    before the next one starts, gives a chapter. *)
Lemma extract_first (content : string) (start : nat) (rest : list nat) (c : ascii) (r : string) :
  sdrop start content = String c r ->
  Re.is_space c = false ->
  match rest with next :: _ => (start < next)%nat | [] => True end ->
  _extract_chapters_by_pattern content (start :: rest) <> [].
Proof.
  intros Hd Hc Hn. rewrite extract_cons. cbv zeta.
  set (stop := match rest with next :: _ => next | [] => String.length content end).
  assert (Hs : (start < stop)%nat).
  { subst stop. destruct rest; [now apply sdrop_length in Hd|exact Hn]. }
  unfold Str.slice. replace (stop - start)%nat with (S (stop - start - 1)) by lia.
  rewrite (substring_sdrop _ _ _ _ _ Hd). unfold Str.strip.
  rewrite lstrip_fixed, rstrip_head by exact Hc. simpl. discriminate.
Qed.

(** ** [re.finditer] *)

Lemma finditer_from_ge (p : Re.Pattern) (s : string) :
  forall pos skip, List.Forall (fun o => (pos <= o)%nat) (Re.finditer_from p s pos skip).
Proof.
  induction s as [|c s IH]; intros pos skip.
  - destruct skip; simpl; [|constructor].
    destruct (Re.match_here p ""); repeat constructor.
  - assert (Hs : forall k, List.Forall (fun o => (pos <= o)%nat)
                             (Re.finditer_from p s (S pos) k)).
    { intros k. eapply List.Forall_impl; [|apply IH]. simpl. intros. lia. }
    destruct skip; simpl; [|apply Hs].
    destruct (Re.match_here p (String c s)); [constructor; [lia|]|]; apply Hs.
Qed.

Lemma finditer_from_first (p : Re.Pattern) (s : string) :
  forall pos skip o rest,
    Re.finditer_from p s pos skip = o :: rest ->
    exists k n,
      o = (pos + k)%nat
      /\ Re.match_here p (sdrop k s) = Some n
      /\ match rest with next :: _ => (o < next)%nat | [] => True end.
Proof.
  induction s as [|c s IH]; intros pos skip o rest H.
  - destruct skip; simpl in H; [|discriminate].
    destruct (Re.match_here p "") as [n|] eqn:E; [|discriminate].
    inversion H; subst. exists 0%nat, n. split; [lia|]. split; [exact E|exact I].
  - destruct skip; simpl in H.
    + destruct (Re.match_here p (String c s)) as [n|] eqn:E.
      * inversion H; subst. exists 0%nat, n. split; [lia|]. split; [exact E|].
        pose proof (finditer_from_ge p s (S o) (Nat.pred n)) as Hge.
        destruct (Re.finditer_from p s (S o) (Nat.pred n)); [exact I|].
        inversion Hge; subst. lia.
      * apply IH in H. destruct H as (k & n & -> & Hm & Hr).
        exists (S k), n. split; [lia|]. split; [exact Hm|exact Hr].
    + apply IH in H. destruct H as (k & n & -> & Hm & Hr).
      exists (S k), n. split; [lia|]. split; [exact Hm|exact Hr].
Qed.

Lemma finditer_from_none (p : Re.Pattern) (s : string) :
  forall pos, Re.search p s = false -> Re.finditer_from p s pos 0 = [].
Proof.
  induction s as [|c s IH]; intros pos H; rewrite search_eq in H; simpl.
  - destruct (Re.match_here p ""); [discriminate|reflexivity].
  - destruct (Re.match_here p (String c s)); [discriminate|]. now apply IH.
Qed.

Lemma finditer_from_some (p : Re.Pattern) (s : string) :
  forall pos, Re.search p s = true -> Re.finditer_from p s pos 0 <> [].
Proof.
  induction s as [|c s IH]; intros pos H; rewrite search_eq in H; simpl.
  - destruct (Re.match_here p ""); [discriminate|discriminate].
  - destruct (Re.match_here p (String c s)); [discriminate|]. now apply IH.
Qed.

Lemma headed_match (p : Re.Pattern) (s : string) (n : nat) :
  headed p = true ->
  Re.match_here p s = Some n ->
  exists c r, s = String c r /\ Re.is_space c = false.
Proof.
  intros Hh Hm. destruct p as [|[[x| | | |]|] q]; try discriminate.
  destruct s as [|c r]; simpl in Hm; [discriminate|].
  destruct (Ascii.eqb (Py.lower_char x) (Py.lower_char c)) eqn:E; [|discriminate].
  exists c, r. split; [reflexivity|].
  cbv beta iota delta [headed] in Hh.
  rewrite forallb_forall in Hh. specialize (Hh c (all_ascii_In c)).
  rewrite E in Hh. simpl in Hh. now apply negb_true_iff.
Qed.

Lemma extract_finditer (p : Re.Pattern) (content : string) :
  headed p = true ->
  Re.search p content = true ->
  _extract_chapters_by_pattern content (Re.finditer p content) <> [].
Proof.
  intros Hh Hs. unfold Re.finditer.
  destruct (Re.finditer_from p content 0 0) as [|o rest] eqn:E.
  - now apply finditer_from_some with (pos := 0%nat) in Hs.
  - apply finditer_from_first in E. destruct E as (k & n & -> & Hm & Hr).
    destruct (headed_match p _ n Hh Hm) as (c & r & Hd & Hc).
    now apply (extract_first content _ rest c r).
Qed.

(** ** The pattern loop *)

Lemma pattern_loop_cons (content : string) (pattern : Re.Pattern)
    (rest : list Re.Pattern) (chapters : list string) :
  pattern_loop content (pattern :: rest) chapters
  = let matches := Re.finditer pattern content in
    let chapters :=
      if Nat.leb 2 (length matches) then _extract_chapters_by_pattern content matches
      else chapters in
    if Nat.leb 2 (length matches) && Nat.ltb 0 (length chapters) then chapters
    else
      let chapters :=
        if Nat.eqb (length matches) 1 then _extract_chapters_by_pattern content matches
        else chapters in
      if Nat.eqb (length matches) 1 && Nat.ltb 0 (length chapters) then chapters
      else pattern_loop content rest chapters.
Proof. reflexivity. Qed.

Lemma pattern_loop_first (content : string) (patterns : list Re.Pattern) :
  forallb headed patterns = true ->
  pattern_loop content patterns []
  = match find (fun p => Re.search p content) patterns with
    | Some p => _extract_chapters_by_pattern content (Re.finditer p content)
    | None => []
    end.
Proof.
  induction patterns as [|p rest IH]; intros Hh; [reflexivity|].
  simpl in Hh. apply andb_true_iff in Hh. destruct Hh as [Hp Hrest].
  rewrite pattern_loop_cons. cbv zeta. cbn [find].
  destruct (Re.search p content) eqn:Es.
  - pose proof (extract_finditer p content Hp Es) as Hne.
    assert (Hm : Re.finditer p content <> []).
    { unfold Re.finditer. now apply finditer_from_some. }
    destruct (_extract_chapters_by_pattern content (Re.finditer p content))
      as [|ch chs] eqn:Ex; [congruence|].
    destruct (Re.finditer p content) as [|o [|o' ms]]; [congruence| |].
    + reflexivity.
    + reflexivity.
  - unfold Re.finditer. rewrite finditer_from_none by exact Es. simpl.
    now apply IH.
Qed.

Lemma chapter_patterns_headed : forallb headed chapter_patterns = true.
Proof. vm_compute. reflexivity. Qed.

Lemma is_chapter_title_find (content : string) :
  _is_chapter_title content = true ->
  exists p, find (fun p => Re.search p content) chapter_patterns = Some p
            /\ In p chapter_patterns /\ Re.search p content = true.
Proof.
  unfold _is_chapter_title. intros H.
  destruct (find (fun p => Re.search p content) chapter_patterns) as [p|] eqn:E.
  - exists p. split; [reflexivity|]. apply find_some in E. exact E.
  - apply existsb_exists in H. destruct H as (p & Hp & Hs).
    now rewrite (find_none _ _ E p Hp) in Hs.
Qed.

(** ** Grouping paragraphs *)

Lemma group_paragraphs_cons (paragraph : string) (rest : list string) (i : nat)
    (current_chapter chapters : list string) :
  group_paragraphs (paragraph :: rest) i current_chapter chapters
  = if Nat.leb 3 (length (current_chapter ++ [paragraph])) && Nat.eqb ((i + 1) mod 4) 0
    then group_paragraphs rest (S i) []
           (chapters ++ [Py.join (Str.newline +:+ Str.newline) (current_chapter ++ [paragraph])])
    else group_paragraphs rest (S i) (current_chapter ++ [paragraph]) chapters.
Proof. reflexivity. Qed.

Lemma group_paragraphs_acc (ps : list string) :
  forall i cur chs,
    group_paragraphs ps i cur chs = chs ++ group_paragraphs ps i cur [].
Proof.
  induction ps as [|p ps IH]; intros i cur chs.
  - simpl. destruct (Nat.ltb 0 (length cur)); [reflexivity|now rewrite app_nil_r].
  - rewrite !group_paragraphs_cons.
    destruct (Nat.leb 3 (length (cur ++ [p])) && Nat.eqb ((i + 1) mod 4) 0).
    + rewrite IH, (IH _ _ ([] ++ _)). now rewrite <- app_assoc.
    + apply IH.
Qed.

Lemma mod4 (q k : nat) : (k < 4)%nat -> ((4 * q + k) mod 4 = k)%nat.
Proof.
  intros H. rewrite Nat.add_comm, Nat.mul_comm, Nat.Div0.mod_add.
  now apply Nat.mod_small.
Qed.

Lemma group_four (q : nat) (a b c d : string) (rest : list string) :
  group_paragraphs (a :: b :: c :: d :: rest) (4 * q) [] []
  = Py.join (Str.newline +:+ Str.newline) [a; b; c; d]
      :: group_paragraphs rest (4 * S q) [] [].
Proof.
  rewrite group_paragraphs_cons. cbn [app length Nat.leb andb].
  rewrite group_paragraphs_cons. cbn [app length Nat.leb andb].
  rewrite group_paragraphs_cons. cbn [app length Nat.leb andb].
  replace (S (S (4 * q)) + 1)%nat with (4 * q + 3)%nat by lia.
  rewrite mod4 by lia. cbn [Nat.eqb].
  rewrite group_paragraphs_cons. cbn [app length Nat.leb andb].
  replace (S (S (S (4 * q))) + 1)%nat with (4 * S q + 0)%nat by lia.
  rewrite mod4 by lia. cbn [Nat.eqb].
  rewrite group_paragraphs_acc. f_equal. f_equal. lia.
Qed.

Lemma group_few (q : nat) (ps : list string) :
  (length ps < 4)%nat ->
  group_paragraphs ps (4 * q) [] []
  = match ps with [] => [] | _ => [Py.join (Str.newline +:+ Str.newline) ps] end.
Proof.
  intros H. destruct ps as [|a [|b [|c [|d rest]]]]; try (simpl in H; lia).
  - reflexivity.
  - rewrite group_paragraphs_cons. reflexivity.
  - rewrite group_paragraphs_cons. cbn [app length Nat.leb andb].
    rewrite group_paragraphs_cons. reflexivity.
  - rewrite group_paragraphs_cons. cbn [app length Nat.leb andb].
    rewrite group_paragraphs_cons. cbn [app length Nat.leb andb].
    rewrite group_paragraphs_cons. cbn [app length Nat.leb andb].
    replace (S (S (4 * q)) + 1)%nat with (4 * q + 3)%nat by lia.
    rewrite mod4 by lia. reflexivity.
Qed.

Lemma group_paragraphs_nth (k : nat) :
  forall (ps : list string) (q : nat),
    nth_error (group_paragraphs ps (4 * q) [] []) k
    = if Nat.ltb (4 * k) (length ps)
      then Some (Py.join (Str.newline +:+ Str.newline) (firstn 4 (skipn (4 * k) ps)))
      else None.
Proof.
  induction k as [|k IH]; intros ps q.
  - destruct ps as [|a [|b [|c [|d rest]]]];
      try (rewrite group_few by (simpl; lia); reflexivity).
    rewrite group_four. reflexivity.
  - destruct ps as [|a [|b [|c [|d rest]]]];
      try (rewrite group_few by (simpl; lia);
           replace (Nat.ltb (4 * S k) _) with false
             by (symmetry; apply Nat.ltb_ge; simpl; lia);
           destruct k; reflexivity).
    rewrite group_four. cbn [nth_error]. rewrite IH.
    replace (4 * S k)%nat with (S (S (S (S (4 * k))))) by lia.
    cbn [skipn length]. unfold Nat.ltb. cbn [Nat.leb]. reflexivity.
Qed.

Lemma group_paragraphs_length (n : nat) :
  forall (ps : list string) (q : nat),
    (length ps <= n)%nat ->
    length (group_paragraphs ps (4 * q) [] []) = ((length ps + 3) / 4)%nat.
Proof.
  induction n as [|n IH]; intros ps q Hn.
  - destruct ps; [reflexivity|simpl in Hn; lia].
  - destruct ps as [|a [|b [|c [|d rest]]]];
      try (rewrite group_few by (simpl; lia); reflexivity).
    rewrite group_four. cbn [length]. rewrite IH by (simpl in Hn; lia).
    replace (S (S (S (S (length rest)))) + 3)%nat with (length rest + 3 + 1 * 4)%nat by lia.
    rewrite Nat.div_add by lia. lia.
Qed.

Lemma Forall_firstn_skipn {A} (P : A -> Prop) (l : list A) (a b : nat) :
  List.Forall P l -> List.Forall P (firstn a (skipn b l)).
Proof. intros H. now apply Forall_take, Forall_drop. Qed.

Lemma paragraphs_trimmed (content : string) : List.Forall trimmed (paragraphs_of content).
Proof.
  unfold paragraphs_of. destruct (Nat.ltb _ 3); apply stripped_nonempty_trimmed.
Qed.

Lemma split_by_paragraphs_eq (content : string) :
  _split_by_paragraphs content = group_paragraphs (paragraphs_of content) (4 * 0) [] [].
Proof. reflexivity. Qed.

Lemma split_by_paragraphs_trimmed (content : string) :
  List.Forall trimmed (_split_by_paragraphs content).
Proof.
  apply List.Forall_forall. intros x Hx. apply In_nth_error in Hx. destruct Hx as [k Hk].
  rewrite split_by_paragraphs_eq, group_paragraphs_nth in Hk.
  destruct (Nat.ltb (4 * k) (length (paragraphs_of content))) eqn:E; [|discriminate].
  inversion Hk; subst x. apply trimmed_join.
  - apply Nat.ltb_lt in E. intros Hnil.
    apply (f_equal (@length string)) in Hnil.
    rewrite length_firstn, length_skipn in Hnil. cbn [length] in Hnil. lia.
  - apply Forall_firstn_skipn, paragraphs_trimmed.
Qed.

Lemma split_by_paragraphs_blank (content : string) :
  blank content = true -> _split_by_paragraphs content = [].
Proof.
  intros H. unfold _split_by_paragraphs.
  rewrite !blank_pieces by (exact H || discriminate). reflexivity.
Qed.

(** ** The line loop *)

Lemma group_lines_cons (line : string) (rest chapters current_chapter : list string) :
  group_lines (line :: rest) chapters current_chapter
  = if negb (Str.nonempty (Str.strip line)) then group_lines rest chapters current_chapter
    else if _is_chapter_title (Str.strip line) then
      if Nat.ltb 0 (length current_chapter)
      then group_lines rest (chapters ++ [Py.join Str.newline current_chapter]) [Str.strip line]
      else group_lines rest chapters (current_chapter ++ [Str.strip line])
    else group_lines rest chapters (current_chapter ++ [Str.strip line]).
Proof. reflexivity. Qed.

Lemma group_lines_plain (lines : list string) :
  (forall l, In l lines -> _is_chapter_title (Str.strip l) = false) ->
  forall chapters current_chapter,
    group_lines lines chapters current_chapter
    = (chapters, current_chapter ++ stripped_nonempty lines).
Proof.
  induction lines as [|line rest IH]; intros H chs cur.
  - simpl. now rewrite app_nil_r.
  - rewrite group_lines_cons, (H line (or_introl eq_refl)).
    assert (Hr : forall l, In l rest -> _is_chapter_title (Str.strip l) = false).
    { intros l Hl. apply H. now right. }
    unfold stripped_nonempty. cbn [map List.filter].
    destruct (Str.nonempty (Str.strip line)); cbn [negb].
    + rewrite (IH Hr), <- app_assoc. reflexivity.
    + apply (IH Hr).
Qed.

Lemma no_title_lines (content : string) :
  _is_chapter_title content = false ->
  forall l, In l (Str.split Str.newline content) -> _is_chapter_title (Str.strip l) = false.
Proof.
  intros H l Hl. destruct (_is_chapter_title (Str.strip l)) eqn:E; [|reflexivity].
  rewrite <- H. symmetry. apply (is_chapter_title_infix (Str.strip l)); [|exact E].
  apply (infix_trans _ l); [apply infix_strip|].
  now apply infix_split with Str.newline.
Qed.

(** ** Every match gives a chapter *)

Lemma finditer_from_all (p : Re.Pattern) (s : string) :
  forall pos skip,
    StronglySorted lt (Re.finditer_from p s pos skip)
    /\ List.Forall (fun o => exists k n, o = (pos + k)%nat
                                      /\ Re.match_here p (sdrop k s) = Some n)
                   (Re.finditer_from p s pos skip).
Proof.
  induction s as [|c s IH]; intros pos skip.
  - destruct skip; simpl; [|split; constructor].
    destruct (Re.match_here p "") as [n|] eqn:E; [|split; constructor].
    split; repeat constructor. exists 0%nat, n. split; [lia|exact E].
  - assert (Hs : forall k,
               StronglySorted lt (Re.finditer_from p s (S pos) k)
               /\ List.Forall (fun o => exists k n, o = (pos + k)%nat
                                      /\ Re.match_here p (sdrop k (String c s)) = Some n)
                    (Re.finditer_from p s (S pos) k)).
    { intros k. destruct (IH (S pos) k) as [H1 H2]. split; [exact H1|].
      eapply List.Forall_impl; [|exact H2]. simpl.
      intros o (k' & n & -> & Hm). exists (S k'), n. split; [lia|exact Hm]. }
    destruct skip; simpl; [|apply Hs].
    destruct (Re.match_here p (String c s)) as [n|] eqn:E; [|apply Hs].
    destruct (Hs (Nat.pred n)) as [H1 H2]. split.
    + constructor; [exact H1|].
      eapply List.Forall_impl; [|apply finditer_from_ge]. simpl. intros. lia.
    + constructor; [|exact H2]. exists 0%nat, n. split; [lia|exact E].
Qed.

Lemma extract_all (content : string) (matches : list nat) :
  StronglySorted lt matches ->
  List.Forall (fun o => exists c r, sdrop o content = String c r /\ Re.is_space c = false)
              matches ->
  forall i,
    nth_error (_extract_chapters_by_pattern content matches) i
    = option_map (fun start =>
                    Str.strip (Str.slice content start
                                 (nth (S i) matches (String.length content))))
                 (nth_error matches i).
Proof.
  induction matches as [|m rest IH]; intros Hs Hg i.
  - destruct i; reflexivity.
  - inversion Hs as [|? ? Hs' Hlt]; subst. inversion Hg as [|? ? Hm Hg']; subst.
    destruct Hm as (c & r & Hd & Hc).
    assert (Hne : _extract_chapters_by_pattern content (m :: rest) <> []).
    { apply (extract_first content m rest c r Hd Hc).
      destruct rest; [exact I|]. now inversion Hlt. }
    rewrite extract_cons in *. cbv zeta in *.
    destruct (Str.nonempty (Str.strip (Str.slice content m _))) eqn:E.
    + destruct i as [|i]; cbn [nth_error option_map].
      * destruct rest; reflexivity.
      * rewrite (IH Hs' Hg' i). reflexivity.
    + exfalso. revert Hne E. unfold Str.slice.
      set (stop := match rest with next :: _ => next | [] => String.length content end).
      assert (Hst : (m < stop)%nat).
      { subst stop. destruct rest; [now apply sdrop_length in Hd|now inversion Hlt]. }
      replace (stop - m)%nat with (S (stop - m - 1)) by lia.
      rewrite (substring_sdrop _ _ _ _ _ Hd). unfold Str.strip.
      rewrite lstrip_fixed, rstrip_head by exact Hc. discriminate.
Qed.

Lemma finditer_good (p : Re.Pattern) (content : string) :
  headed p = true ->
  StronglySorted lt (Re.finditer p content)
  /\ List.Forall (fun o => exists c r, sdrop o content = String c r /\ Re.is_space c = false)
                 (Re.finditer p content).
Proof.
  intros Hh. unfold Re.finditer.
  destruct (finditer_from_all p content 0 0) as [H1 H2]. split; [exact H1|].
  eapply List.Forall_impl; [|exact H2]. simpl. intros o (k & n & -> & Hm).
  exact (headed_match p _ n Hh Hm).
Qed.

(** ** A title needs a digit *)

Lemma match_here_uses (p : Re.Pattern) :
  forall (s : string) (n : nat),
    Re.match_here p s = Some n ->
    forall it, In it p ->
      exists c, In c (list_ascii_of_string s) /\ Re.atom_ok (item_atom it) c = true.
Proof.
  induction p as [|[a|a] p IH]; intros s n H it Hin; [destruct Hin| |].
  - destruct s as [|c s]; simpl in H; [discriminate|].
    destruct (Re.atom_ok a c) eqn:Ea; [|discriminate].
    destruct (Re.match_here p s) as [k|] eqn:E; [|discriminate].
    destruct Hin as [<-|Hin].
    + exists c. split; [now left|exact Ea].
    + destruct (IH s k E it Hin) as (c' & Hc & Ha). exists c'. split; [now right|exact Ha].
  - revert n H. simpl. induction s as [|c s IHs]; intros n H; simpl in H; [discriminate|].
    destruct (Re.atom_ok a c) eqn:Ea; [|discriminate].
    destruct Hin as [<-|Hin]; [exists c; split; [now left|exact Ea]|].
    match type of H with
    | match ?x with _ => _ end = _ => destruct x as [k|] eqn:E
    end.
    + destruct (IHs k eq_refl) as (c' & Hc & Ha). exists c'. split; [now right|exact Ha].
    + destruct (Re.match_here p s) as [k|] eqn:E2; [|discriminate].
      destruct (IH s k E2 it Hin) as (c' & Hc & Ha). exists c'. split; [now right|exact Ha].
Qed.

Lemma search_uses (p : Re.Pattern) (s : string) :
  Re.search p s = true ->
  forall it, In it p ->
    exists c, In c (list_ascii_of_string s) /\ Re.atom_ok (item_atom it) c = true.
Proof.
  induction s as [|c s IH]; intros H it Hin; rewrite search_eq in H.
  - destruct (Re.match_here p "") as [n|] eqn:E; [|discriminate].
    exact (match_here_uses p "" n E it Hin).
  - destruct (Re.match_here p (String c s)) as [n|] eqn:E.
    + exact (match_here_uses p _ n E it Hin).
    + destruct (IH H it Hin) as (c' & Hc & Ha). exists c'. split; [now right|exact Ha].
Qed.

Lemma needs_digit_search (p : Re.Pattern) (s : string) :
  needs_digit p = true -> Re.search p s = true -> has_digit s = true.
Proof.
  unfold needs_digit, has_digit. rewrite !existsb_exists.
  intros (it & Hin & Hall) Hs.
  destruct (search_uses p s Hs it Hin) as (c & Hc & Ha).
  exists c. split; [exact Hc|].
  rewrite forallb_forall in Hall. specialize (Hall c (all_ascii_In c)).
  now rewrite Ha in Hall.
Qed.

Lemma chapter_patterns_need_digit : forallb needs_digit chapter_patterns = true.
Proof. vm_compute. reflexivity. Qed.

Lemma is_chapter_title_digit (s : string) :
  _is_chapter_title s = true -> has_digit s = true.
Proof.
  unfold _is_chapter_title. rewrite existsb_exists. intros (p & Hp & Hs).
  apply (needs_digit_search p); [|exact Hs].
  pose proof chapter_patterns_need_digit as H. rewrite forallb_forall in H. now apply H.
Qed.

(** ** A text without headings *)

Lemma split_small_novel_plain {W} (content : string) (st : St W) :
  _is_chapter_title content = false ->
  _split_small_novel content st
  = (mkSt (world st) (db st) (fs st)
          (out st ++ [Print (MChapters
                               (match stripped_nonempty (Str.split Str.newline content) with
                                | [] => []
                                | ls => [Py.join Str.newline ls]
                                end))]),
     Ok (_split_by_paragraphs content)).
Proof.
  intros Htitle. unfold _split_small_novel.
  rewrite (group_lines_plain _ (no_title_lines content Htitle)). cbn [app].
  destruct (stripped_nonempty (Str.split Str.newline content)) as [|l ls] eqn:E.
  - rewrite split_by_paragraphs_blank by now apply blank_lines_blank.
    reflexivity.
  - reflexivity.
Qed.

(** ** Patterns that match the same texts *)

Lemma item_same_atoms (a b : Re.Atom) (c : ascii) :
  forallb (fun c => Bool.eqb (Re.atom_ok a c) (Re.atom_ok b c)) all_ascii = true ->
  Re.atom_ok a c = Re.atom_ok b c.
Proof. intros H. apply Bool.eqb_prop. now apply (ascii_forall _ H). Qed.

Lemma match_here_same (p : Re.Pattern) :
  forall (q : Re.Pattern),
    pattern_same p q = true -> forall s, Re.match_here p s = Re.match_here q s.
Proof.
  induction p as [|x p IH]; intros [|y q] H s; try discriminate; [reflexivity|].
  simpl in H. apply andb_true_iff in H. destruct H as [Hi Hp].
  specialize (IH q Hp).
  destruct x as [a|a], y as [b|b]; try discriminate; cbv beta iota delta [item_same] in Hi.
  - destruct s as [|c s]; simpl; [reflexivity|].
    now rewrite (item_same_atoms a b c Hi), IH.
  - simpl. induction s as [|c s IHs]; simpl; [reflexivity|].
    now rewrite (item_same_atoms a b c Hi), IHs, IH.
Qed.

Lemma search_same (p q : Re.Pattern) (s : string) :
  pattern_same p q = true -> Re.search p s = Re.search q s.
Proof.
  intros H. induction s as [|c s IH].
  - rewrite !search_eq. now rewrite (match_here_same p q H).
  - rewrite (search_eq p), (search_eq q), (match_here_same p q H), IH. reflexivity.
Qed.

(** The fourth pattern matches what the third matches, and the sixth what
    the fifth matches. *)
Lemma redundant_patterns (content : string) (earlier later : list Re.Pattern)
    (p : Re.Pattern) :
  chapter_patterns = earlier ++ p :: later ->
  (forall q, In q earlier -> Re.search q content = false) ->
  Re.search p content = true ->
  (length earlier = 0 \/ length earlier = 1 \/ length earlier = 2 \/ length earlier = 4)%nat.
Proof.
  intros Hsplit Hearlier Hs.
  assert (Hlen : (length earlier < 6)%nat).
  { apply (f_equal (@length Re.Pattern)) in Hsplit.
    rewrite length_app in Hsplit. simpl in Hsplit. lia. }
  assert (Hdup : forall i j : nat,
             (j < i)%nat -> length earlier = i ->
             pattern_same (nth j chapter_patterns []) (nth i chapter_patterns []) = true ->
             False).
  { intros i j Hji Hi Hsame.
    assert (Hp : nth i chapter_patterns [] = p).
    { rewrite Hsplit, app_nth2 by lia. now replace (i - length earlier)%nat with 0%nat by lia. }
    assert (Hq : In (nth j chapter_patterns []) earlier).
    { rewrite Hsplit, app_nth1 by lia. apply nth_In. lia. }
    apply Hearlier in Hq. rewrite (search_same _ _ content Hsame), Hp in Hq. congruence. }
  destruct (Nat.eq_dec (length earlier) 3%nat) as [H3|H3].
  { exfalso. apply (Hdup 3%nat 2%nat); [lia|exact H3|vm_compute; reflexivity]. }
  destruct (Nat.eq_dec (length earlier) 5%nat) as [H5|H5].
  { exfalso. apply (Hdup 5%nat 4%nat); [lia|exact H5|vm_compute; reflexivity]. }
  lia.
Qed.

Lemma find_split {A} (f : A -> bool) (l : list A) (x : A) :
  find f l = Some x ->
  exists pre post, l = pre ++ x :: post /\ (forall q, In q pre -> f q = false) /\ f x = true.
Proof.
  induction l as [|a l IH]; intros H; simpl in H; [discriminate|].
  destruct (f a) eqn:E.
  - inversion H; subst. exists [], l. split; [reflexivity|]. split; [intros q []|exact E].
  - destruct (IH H) as (pre & post & -> & Hpre & Hx).
    exists (a :: pre), post. split; [reflexivity|]. split; [|exact Hx].
    intros q [<-|Hq]; [exact E|now apply Hpre].
Qed.

Lemma nth_error_map_length {A B} (f : nat -> A -> B) (a : list B) (b : list A) :
  (forall i, nth_error a i = option_map (f i) (nth_error b i)) -> length a = length b.
Proof.
  intros H. apply Nat.le_antisymm.
  - apply nth_error_None. rewrite H.
    now rewrite (proj2 (nth_error_None b (length b)) (Nat.le_refl _)).
  - apply nth_error_None.
    pose proof (H (length a)) as Ha.
    rewrite (proj2 (nth_error_None a (length a)) (Nat.le_refl _)) in Ha.
    destruct (nth_error b (length a)); [discriminate|reflexivity].
Qed.



(** X2. [_extract_chapters_by_pattern] gives at most one chapter for each
    match; every chapter is a piece of the content, is not empty and has no
    white space at either end. When the matches are given in increasing
    order and each starts on a character that is not white space, no match
    is dropped: chapter [i] is the stripped text from match [i] up to match
    [i + 1], or up to the end of the content for the last one. *)
Theorem extracted_chapters_run_from_match_to_match :
  forall (content : string) (matches : list nat),
    (length (_extract_chapters_by_pattern content matches) <= length matches)%nat
    /\ List.Forall (fun c => trimmed c /\ infix_of c content)
                   (_extract_chapters_by_pattern content matches)
    /\ (StronglySorted lt matches ->
        List.Forall (fun o => exists c r, sdrop o content = String c r
                                          /\ Re.is_space c = false) matches ->
        length (_extract_chapters_by_pattern content matches) = length matches
        /\ forall i : nat,
             nth_error (_extract_chapters_by_pattern content matches) i
             = option_map (fun start =>
                             Str.strip (Str.slice content start
                                          (nth (S i) matches (String.length content))))
                          (nth_error matches i)).
Proof.
  intros content matches.
  destruct (extract_chapters_ok content matches) as [H1 H2].
  split; [exact H2|]. split; [exact H1|].
  intros Hs Hg. pose proof (extract_all content matches Hs Hg) as Hn.
  split; [|exact Hn].
  exact (nth_error_map_length
           (fun i start => Str.strip (Str.slice content start
                                        (nth (S i) matches (String.length content))))
           _ _ Hn).
Qed.

(** The third part on a text with a preface and two headings. *)
Lemma extracted_chapters_run_from_match_to_match_witness :
  length (_extract_chapters_by_pattern Sample.book [8; 33]%nat) = 2%nat
  /\ forall i : nat,
       nth_error (_extract_chapters_by_pattern Sample.book [8; 33]%nat) i
       = option_map (fun start =>
                       Str.strip (Str.slice Sample.book start
                                    (nth (S i) [8; 33]%nat (String.length Sample.book))))
                    (nth_error [8; 33]%nat i).
Proof.
  apply (proj2 (proj2 (extracted_chapters_run_from_match_to_match Sample.book [8; 33]%nat))).
  - repeat constructor.
  - repeat constructor; eexists; eexists; (split; [vm_compute; reflexivity|reflexivity]).
Defined.

(** X3. [_split_by_paragraphs] groups the paragraphs four at a time: with
    [n] paragraphs it returns [ceil(n / 4)] chapters, chapter [k] being
    paragraphs [4k] to [4k + 3] (fewer in the last one) joined by blank
    lines. The paragraphs are not empty and carry no white space at either
    end, and so do the chapters. *)
Theorem paragraphs_are_grouped_four_at_a_time :
  forall content : string,
    length (_split_by_paragraphs content)
      = ((length (paragraphs_of content) + 3) / 4)%nat
    /\ (forall k : nat,
           nth_error (_split_by_paragraphs content) k
           = if Nat.ltb (4 * k) (length (paragraphs_of content))
             then Some (Py.join (Str.newline +:+ Str.newline)
                          (firstn 4 (skipn (4 * k) (paragraphs_of content))))
             else None)
    /\ List.Forall trimmed (paragraphs_of content)
    /\ List.Forall trimmed (_split_by_paragraphs content).
Proof.
  intros content. split; [|split; [|split]].
  - rewrite split_by_paragraphs_eq.
    now apply (group_paragraphs_length (length (paragraphs_of content))).
  - intros k. rewrite split_by_paragraphs_eq. apply group_paragraphs_nth.
  - apply paragraphs_trimmed.
  - apply split_by_paragraphs_trimmed.
Qed.

Section SplitterPaths.

Context {W : Type} (io : FileIO W).

(** X4. A readable text in which [_is_chapter_title] finds no heading is
    always split by paragraphs: no line of it is a heading either, so the
    line loop of [_split_small_novel] closes no chapter, the list it prints
    holds the whole text as at most one chapter, and the result is that of
    [_split_by_paragraphs], or the content itself as the single chapter when
    the text is all white space. *)
Theorem text_without_heading_is_split_by_paragraphs :
  forall (file_path : string) (st : St W) (w1 : W) (content : string),
    read_text io file_path (world st) = (w1, Ok content) ->
    _is_chapter_title content = false ->
    split_novel_by_chapters io file_path st
    = (mkSt w1 (db st) (fs st)
            (out st ++ [Print (MChapters
                                 (match stripped_nonempty (Str.split Str.newline content) with
                                  | [] => []
                                  | ls => [Py.join Str.newline ls]
                                  end))]),
       Ok (match _split_by_paragraphs content with
           | [] => [content]
           | chapters => chapters
           end))
    /\ (_split_by_paragraphs content = [] <-> blank content = true)
    /\ List.Forall trimmed (_split_by_paragraphs content).
Proof.
  intros file_path st w1 content Hread Htitle.
  assert (Hblank : _split_by_paragraphs content = [] <-> blank content = true).
  { split; [|apply split_by_paragraphs_blank].
    intros H. apply blank_lines_blank.
    apply (f_equal (@length string)) in H.
    rewrite split_by_paragraphs_eq,
      (group_paragraphs_length (length (paragraphs_of content))) in H by lia.
    cbn [length] in H.
    assert (Hp : paragraphs_of content = []).
    { destruct (paragraphs_of content) as [|x l]; [reflexivity|]. exfalso.
      cbn [length] in H.
      replace (S (length l) + 3)%nat with (length l + 1 * 4)%nat in H by lia.
      rewrite Nat.div_add in H by lia. lia. }
    unfold paragraphs_of in Hp.
    destruct (Nat.ltb _ 3) eqn:E; [exact Hp|].
    rewrite Hp in E. discriminate. }
  split; [|split; [exact Hblank|apply split_by_paragraphs_trimmed]].
  unfold split_novel_by_chapters, try_except, bind, on_world.
  rewrite Hread, Htitle. cbv beta iota.
  rewrite (split_small_novel_plain content _ Htitle). unfold ret. cbn [world db fs out].
  destruct (_split_by_paragraphs content); reflexivity.
Qed.

(** X5. A readable text in which [_is_chapter_title] finds a heading is cut
    at the matches of one pattern: the first pattern of [chapter_patterns]
    that matches anywhere in the text. Every match gives a chapter, chapter
    [i] being the stripped text from match [i] to the next match (to the
    end of the text for the last one); what stands before the first match
    is left out. The paragraph fall-back and the whole-text fall-back are
    never taken, and nothing is printed. The pattern used is never the
    fourth or the sixth of the list: with letter case ignored they match
    what the third and the fifth match. *)
Theorem text_with_heading_is_cut_at_the_first_matching_pattern :
  forall (file_path : string) (st : St W) (w1 : W) (content : string),
    read_text io file_path (world st) = (w1, Ok content) ->
    _is_chapter_title content = true ->
    exists (pattern : Re.Pattern) (earlier later : list Re.Pattern),
      chapter_patterns = earlier ++ pattern :: later
      /\ (forall q, In q earlier -> Re.search q content = false)
      /\ (length earlier = 0 \/ length earlier = 1 \/ length earlier = 2
          \/ length earlier = 4)%nat
      /\ Re.finditer pattern content <> []
      /\ split_novel_by_chapters io file_path st
         = (mkSt w1 (db st) (fs st) (out st),
            Ok (_extract_chapters_by_pattern content (Re.finditer pattern content)))
      /\ length (_extract_chapters_by_pattern content (Re.finditer pattern content))
         = length (Re.finditer pattern content)
      /\ (forall i : nat,
             nth_error (_extract_chapters_by_pattern content (Re.finditer pattern content)) i
             = option_map (fun start =>
                             Str.strip (Str.slice content start
                                          (nth (S i) (Re.finditer pattern content)
                                               (String.length content))))
                          (nth_error (Re.finditer pattern content) i))
      /\ List.Forall trimmed
           (_extract_chapters_by_pattern content (Re.finditer pattern content)).
Proof.
  intros file_path st w1 content Hread Htitle.
  destruct (is_chapter_title_find content Htitle) as (p & Hfind & Hin & Hs).
  destruct (find_split _ _ _ Hfind) as (earlier & later & Hsplit & Hearlier & _).
  assert (Hh : headed p = true).
  { pose proof chapter_patterns_headed as H. rewrite forallb_forall in H. now apply H. }
  destruct (finditer_good p content Hh) as [Hsorted Hgood].
  pose proof (extract_all content _ Hsorted Hgood) as Hnth.
  pose proof (extract_finditer p content Hh Hs) as Hne.
  exists p, earlier, later.
  split; [exact Hsplit|]. split; [exact Hearlier|].
  split; [exact (redundant_patterns content earlier later p Hsplit Hearlier Hs)|]. split.
  { unfold Re.finditer. now apply finditer_from_some. }
  split; [|split; [|split; [exact Hnth|]]].
  2:{ exact (nth_error_map_length
               (fun i start => Str.strip (Str.slice content start
                                            (nth (S i) (Re.finditer p content)
                                                 (String.length content))))
               _ _ Hnth). }
  - unfold split_novel_by_chapters, try_except, bind, on_world.
    rewrite Hread, Htitle. cbv beta iota. unfold _split_large_novel, ret.
    rewrite (pattern_loop_first content _ chapter_patterns_headed), Hfind.
    destruct (_extract_chapters_by_pattern content (Re.finditer p content));
      [congruence|reflexivity].
  - eapply List.Forall_impl; [|apply (proj1 (extract_chapters_ok content _))].
    simpl. tauto.
Qed.

End SplitterPaths.

(** The statement on a short story of five paragraphs. *)
Lemma text_without_heading_is_split_by_paragraphs_witness :
  snd (split_novel_by_chapters (Sample.readable_io Sample.story) "story.txt" (Script.st0 []))
  = Ok (match _split_by_paragraphs Sample.story with
        | [] => [Sample.story]
        | chapters => chapters
        end).
Proof.
  rewrite (proj1 (text_without_heading_is_split_by_paragraphs
                    (Sample.readable_io Sample.story) "story.txt" (Script.st0 []) 1%nat
                    Sample.story eq_refl eq_refl)).
  reflexivity.
Defined.

(** The statement on a text with a preface and two headings. *)
Lemma text_with_heading_is_cut_at_the_first_matching_pattern_witness :
  exists pattern : Re.Pattern,
    In pattern chapter_patterns
    /\ snd (split_novel_by_chapters (Sample.readable_io Sample.book) "book.txt" (Script.st0 []))
       = Ok (_extract_chapters_by_pattern Sample.book (Re.finditer pattern Sample.book)).
Proof.
  destruct (text_with_heading_is_cut_at_the_first_matching_pattern
              (Sample.readable_io Sample.book) "book.txt" (Script.st0 []) 1%nat
              Sample.book eq_refl eq_refl)
    as (p & earlier & later & Hsplit & _ & _ & _ & Hrun & _).
  exists p. split.
  - rewrite Hsplit. apply in_or_app. right. now left.
  - now rewrite Hrun.
Defined.

(** ** Heights visited, whatever the outcome *)

Section AnyOutcome.

Context {W : Type} (w3 : Web3 W) (clock : Clock W).

Lemma scan_height_visits_any args latest target lpb blk (st st' : St W) r :
  scan_height w3 clock args latest target lpb blk st = (st', r) ->
  exists evs ok, out st' = out st ++ evs /\ visited evs = [(blk, ok)].
Proof.
  unfold scan_height. intros H.
  unfold bind at 1, try_except, bind at 1, on_world in H.
  destruct (get_block w3 blk (world st)) as [w1 [block|e]]; simpl in H.
  - unfold bind at 1, print, emit in H. simpl in H.
    assert (Hq : exists st2, grows quiet
                   (mkSt w1 (db st) (fs st)
                         (out st ++ [Print (MScanning blk (length (transactions block)))]))
                   st2 /\ out st' = out st2).
    { apply bind_inv in H. destruct H as [(st2 & c2 & Hf & H)|(e & Hf & _)].
      - exists st2. split; [exact (quiet_for_txs _ _ _ _ _ _ _ _ _ _ _ Hf)|].
        destruct c2; inversion H; reflexivity.
      - exists st'. split; [exact (quiet_for_txs _ _ _ _ _ _ _ _ _ _ _ Hf)|reflexivity]. }
    destruct Hq as (st2 & (evs & Hout & Hq) & Heq). simpl in Hout.
    exists (Print (MScanning blk (length (transactions block))) :: evs), true.
    split; [now rewrite Heq, Hout, <- app_assoc|].
    simpl. now rewrite (visited_quiet evs Hq).
  - unfold bind, print, emit, ret in H. simpl in H. inversion H; subst; clear H.
    exists [Print (MFailedFetch blk (exn_msg e))], false. simpl. auto.
Qed.

Lemma for_heights_visits_any args latest target heights :
  forall lpb (st st' : St W) r,
    for_heights w3 clock args latest target lpb heights st = (st', r) ->
    exists evs rest,
      out st' = out st ++ evs /\ heights = map fst (visited evs) ++ rest.
Proof.
  induction heights as [|blk rest IH]; intros lpb st st' r H; simpl in H.
  - inversion H; subst. exists [], []. simpl. now rewrite app_nil_r.
  - apply bind_inv in H. destruct H as [(st1 & [c b] & Hs & H)|(e & Hs & _)].
    + apply scan_height_visits_any in Hs. destruct Hs as (evs1 & ok & Hout1 & Hv1).
      destruct c.
      * apply IH in H. destruct H as (evs2 & rest2 & Hout2 & Hv2).
        exists (evs1 ++ evs2), rest2. split; [now rewrite Hout2, Hout1, app_assoc|].
        rewrite visited_app, Hv1. simpl. now rewrite <- Hv2.
      * inversion H; subst. exists evs1, rest. split; [exact Hout1|].
        now rewrite Hv1.
    + apply scan_height_visits_any in Hs. destruct Hs as (evs1 & ok & Hout1 & Hv1).
      exists evs1, rest. split; [exact Hout1|]. now rewrite Hv1.
Qed.

Lemma quiet_head_read args :
  steps (grows quiet)
    (try_except (l <- on_world (block_number w3) ;; @ret W _ (Some l))
       (fun e => print (MErrLatest (exn_msg e)) ;;;
                 sleep (Z.max 5 (poll_interval args)) ;;; ret None)).
Proof. quiet_steps. Qed.

Lemma quiet_idle args (o : Outcome) :
  steps (grows quiet) (sleep (poll_interval args) ;;; @ret W _ o).
Proof. quiet_steps. Qed.

Lemma quiet_pass_end args start (l : Z) :
  steps (grows quiet)
    (export_csv_json (csv_output args) (json_output args) ;;;
     if run_duration args =? 0
     then sleep (poll_interval args) ;;; ret (Continue (Some l))
     else now <- on_clock (time_time clock) ;;
          if run_duration args <=? now - start
          then print (MRunDuration (run_duration args)) ;;; @ret W _ Exit
          else sleep (poll_interval args) ;;; ret (Continue (Some l))).
Proof.
  apply (steps_bind _ (grows_trans quiet)); [apply quiet_export|intros _].
  quiet_steps.
Qed.

(** The head a pass reads, when the read succeeds. *)
Lemma head_read_ok args (st st1 : St W) (latest : Z) :
  try_except (l <- on_world (block_number w3) ;; ret (Some l))
    (fun e => print (MErrLatest (exn_msg e)) ;;;
              sleep (Z.max 5 (poll_interval args)) ;;; ret None) st
  = (st1, Ok (Some latest)) ->
  block_number w3 (world st) = (world st1, Ok latest).
Proof.
  intros H. apply try_except_inv in H.
  destruct H as [(a & Hm & Ha)|(st0 & e & Hm & Hh)].
  - inversion Ha; subst a; clear Ha.
    inv_bind Hm stx l Hbn. inversion Hm; subst stx l; clear Hm.
    unfold on_world in Hbn. destruct (block_number w3 (world st)) as [w1 r1].
    inversion Hbn; subst. reflexivity.
  - inv_bind Hh st2 u Hp. inv_bind Hh st3 u3 Hs. inversion Hh.
Qed.

(** A pass with any outcome: the heights it visited are the first ones of
    the range above the watermark. *)
Lemma tick_visits_any args start lpb (st st' : St W) r :
  tick w3 clock args start lpb st = (st', r) ->
  exists evs,
    out st' = out st ++ evs
    /\ (visited evs = []
        \/ exists w1 latest rest,
             block_number w3 (world st) = (w1, Ok latest)
             /\ Py.range (match lpb with Some b => b | None => latest - 1 end + 1)
                         (latest - confirmations args + 1 + 1)
                = map fst (visited evs) ++ rest).
Proof.
  unfold tick. intros H.
  assert (Hquiet : forall (a b : St W), grows quiet a b ->
            exists evs, out b = out a ++ evs /\ visited evs = []).
  { intros a b (evs & Hout & Hq). exists evs. split; [exact Hout|now apply visited_quiet]. }
  apply bind_inv in H. destruct H as [(st1 & o & Htry & H)|(e & Htry & _)].
  2:{ destruct (Hquiet _ _ (quiet_head_read args _ _ _ Htry)) as (evs & Hout & Hv).
      exists evs. auto. }
  pose proof (quiet_head_read args _ _ _ Htry) as Hq1.
  destruct o as [latest|].
  2:{ inversion H; subst. destruct (Hquiet _ _ Hq1) as (evs & Hout & Hv). exists evs. auto. }
  apply head_read_ok in Htry.
  set (w := match lpb with Some b => b | None => latest - 1 end) in *.
  assert (Hidle : forall o, (sleep (poll_interval args) ;;; ret o) st1 = (st', r) ->
            exists evs, out st' = out st ++ evs /\ visited evs = []).
  { intros o Ho. apply quiet_idle in Ho.
    exact (Hquiet _ _ (grows_trans _ _ _ _ Hq1 Ho)). }
  destruct (latest <=? w).
  { destruct (Hidle _ H) as (evs & Hout & Hv). exists evs. auto. }
  destruct (latest - confirmations args + 1 <=? w).
  { destruct (Hidle _ H) as (evs & Hout & Hv). exists evs. auto. }
  destruct Hq1 as (evs1 & Hout1 & Hq1). apply visited_quiet in Hq1.
  assert (Hgoal : exists evs rest,
             out st' = out st1 ++ evs
             /\ Py.range (w + 1) (latest - confirmations args + 1 + 1)
                = map fst (visited evs) ++ rest).
  { apply bind_inv in H. destruct H as [(st2 & [c l] & Hf & H)|(e & Hf & _)].
    - apply for_heights_visits_any in Hf. destruct Hf as (evs2 & rest & Hout2 & Hv2).
      destruct c.
      + apply quiet_pass_end in H. destruct H as (evs3 & Hout3 & Hq3).
        exists (evs2 ++ evs3), rest. split; [now rewrite Hout3, Hout2, app_assoc|].
        now rewrite visited_app, (visited_quiet evs3 Hq3), app_nil_r.
      + inversion H; subst. exists evs2, rest. auto.
    - apply for_heights_visits_any in Hf. destruct Hf as (evs2 & rest & Hout2 & Hv2).
      exists evs2, rest. auto. }
  destruct Hgoal as (evs & rest & Hout & Hr).
  exists (evs1 ++ evs). split; [now rewrite Hout, Hout1, app_assoc|].
  right. exists (world st1), latest, rest. split; [exact Htry|].
  now rewrite visited_app, Hq1.
Qed.

(** A pass without a watermark that reads the head goes on as a pass whose
    watermark is the height below the head. *)
Lemma tick_unset args start (st : St W) (w1 : W) (latest : Z) :
  block_number w3 (world st) = (w1, Ok latest) ->
  tick w3 clock args start None st = tick w3 clock args start (Some (latest - 1)) st.
Proof.
  intros H. unfold tick, bind, try_except, on_world. rewrite H. reflexivity.
Qed.

Lemma tick_head_failure args start lpb (st : St W) (w1 : W) (e : Exn) :
  block_number w3 (world st) = (w1, Raise e) ->
  tick w3 clock args start lpb st
  = (mkSt w1 (db st) (fs st)
          (out st ++ [Print (MErrLatest (exn_msg e)); Sleep (Z.max 5 (poll_interval args))]),
     Ok (Continue lpb)).
Proof.
  intros H. unfold tick, bind, try_except, on_world. rewrite H.
  unfold sleep, print, emit, ret. simpl.
  destruct (Z.max 5 (poll_interval args) <? 0) eqn:E; [lia|].
  simpl. now rewrite <- app_assoc.
Qed.

End AnyOutcome.

(** ** Fetched heights *)

Lemma fetched_app (a b : list (Z * bool)) : fetched (a ++ b) = fetched a ++ fetched b.
Proof. unfold fetched. now rewrite List.filter_app, map_app. Qed.

Lemma fetched_In (v : list (Z * bool)) (b : Z) : In b (fetched v) <-> In (b, true) v.
Proof.
  unfold fetched. rewrite in_map_iff. split.
  - intros ([x ok] & <- & Hin). apply filter_In in Hin. simpl in Hin.
    destruct Hin as [Hin ->]. exact Hin.
  - intros H. exists (b, true). split; [reflexivity|]. apply filter_In. auto.
Qed.

Lemma fetched_sorted (v : list (Z * bool)) :
  StronglySorted Z.lt (map fst v) -> StronglySorted Z.lt (fetched v).
Proof.
  induction v as [|[b ok] v IH]; intros H; [constructor|].
  simpl in H. inversion H as [|? ? Hs Hall]; subst.
  unfold fetched. simpl. destruct ok; simpl; [|now apply IH].
  constructor; [now apply IH|].
  apply List.Forall_forall. intros x Hx. apply (fetched_In v x) in Hx.
  rewrite List.Forall_forall in Hall. apply Hall.
  apply in_map_iff. exists (x, true). auto.
Qed.

Lemma last_fetched_ge (v : list (Z * bool)) (d : Z) :
  (forall x, In x (map fst v) -> d <= x) -> d <= last_fetched v d.
Proof.
  intros H. destruct (last_fetched_cases v d) as [->|Hin]; [lia|].
  apply H. apply in_map_iff. exists (last_fetched v d, true). auto.
Qed.

Lemma fetched_le_last (v : list (Z * bool)) :
  StronglySorted Z.lt (map fst v) ->
  forall d b, In b (fetched v) -> b <= last_fetched v d.
Proof.
  induction v as [|[b0 ok] v IH]; intros Hs d b Hb; [destruct Hb|].
  simpl in Hs. inversion Hs as [|? ? Hs' Hall]; subst.
  unfold last_fetched. simpl. fold (last_fetched v (if ok then b0 else d)).
  unfold fetched in Hb. simpl in Hb. destruct ok; simpl in Hb.
  - destruct Hb as [<-|Hb]; [|now apply IH].
    apply last_fetched_ge. intros x Hx. rewrite List.Forall_forall in Hall.
    specialize (Hall x Hx). lia.
  - now apply IH.
Qed.

Lemma sorted_app_lt (a b : list Z) :
  StronglySorted Z.lt a -> StronglySorted Z.lt b ->
  (forall x y, In x a -> In y b -> x < y) ->
  StronglySorted Z.lt (a ++ b).
Proof.
  induction a as [|x a IH]; intros Ha Hb H; [exact Hb|].
  inversion Ha as [|? ? Ha' Hall]; subst. simpl. constructor.
  - apply IH; auto. intros u v Hu Hv. apply H; [now right|exact Hv].
  - apply List.Forall_app. split; [exact Hall|].
    apply List.Forall_forall. intros y Hy. apply H; [now left|exact Hy].
Qed.

Lemma sorted_prefix (a b : list Z) : StronglySorted Z.lt (a ++ b) -> StronglySorted Z.lt a.
Proof.
  induction a as [|x a IH]; intros H; [constructor|].
  simpl in H. inversion H as [|? ? H' Hall]; subst. constructor; [now apply IH|].
  apply List.Forall_app in Hall. tauto.
Qed.

(** X6. Whatever a pass of the scan loop ends in (going round again,
    returning, or an exception), the heights it visited are increasing, lie
    above the watermark the pass started from and do not exceed the head it
    read minus the confirmations plus one. A pass without a watermark takes
    the height below the head as its watermark: it never visits a height
    below the head, and with two or more confirmations it visits none. *)
Theorem pass_visits_confirmed_heights_above_the_watermark :
  forall (W : Type) (w3 : Web3 W) (clock : Clock W) (args : Args) (start : Z)
         (lpb : option Z) (st st' : St W) (r : Exc Outcome),
    tick w3 clock args start lpb st = (st', r) ->
    exists evs,
      out st' = out st ++ evs
      /\ StronglySorted Z.lt (map fst (visited evs))
      /\ (visited evs = []
          \/ exists w1 latest,
               block_number w3 (world st) = (w1, Ok latest)
               /\ forall b, In b (map fst (visited evs)) ->
                    match lpb with Some w => w | None => latest - 1 end < b
                    /\ b <= latest - confirmations args + 1)
      /\ (lpb = None -> 2 <= confirmations args -> visited evs = []).
Proof.
  intros W w3 clock args start lpb st st' r H.
  apply tick_visits_any in H. destruct H as (evs & Hout & Hv).
  exists evs. split; [exact Hout|].
  destruct Hv as [Hv|(w1 & latest & rest & Hhead & Hr)].
  - rewrite Hv. split; [constructor|]. split; [now left|reflexivity].
  - assert (Hin : forall b, In b (map fst (visited evs)) ->
                    match lpb with Some w => w | None => latest - 1 end < b
                    /\ b <= latest - confirmations args + 1).
    { intros b Hb.
      assert (Hb' : In b (Py.range (match lpb with Some w => w | None => latest - 1 end + 1)
                                   (latest - confirmations args + 1 + 1))).
      { rewrite Hr. apply in_or_app. now left. }
      apply range_In in Hb'. lia. }
    split; [|split].
    + apply (sorted_prefix _ rest). rewrite <- Hr. apply range_sorted.
    + right. exists w1, latest. split; [exact Hhead|exact Hin].
    + intros -> Hc. destruct (visited evs) as [|[b ok] v]; [reflexivity|].
      specialize (Hin b (or_introl eq_refl)). lia.
Qed.

(** The statement on a pass from watermark 95 in which the fetch of block 96
    fails. *)
Lemma pass_visits_confirmed_heights_above_the_watermark_witness :
  exists evs,
    out (fst (tick Script.flaky_w3 Script.clock Script.args0 0 (Some 95) (Script.st0 [])))
      = out (Script.st0 []) ++ evs
    /\ StronglySorted Z.lt (map fst (visited evs))
    /\ (visited evs = []
        \/ exists w1 latest,
             block_number Script.flaky_w3 (world (Script.st0 [])) = (w1, Ok latest)
             /\ forall b, In b (map fst (visited evs)) ->
                  95 < b /\ b <= latest - confirmations Script.args0 + 1)
    /\ (Some 95 = None -> 2 <= confirmations Script.args0 -> visited evs = []).
Proof.
  apply (pass_visits_confirmed_heights_above_the_watermark nat Script.flaky_w3 Script.clock
           Script.args0 0 (Some 95) (Script.st0 []) _
           (snd (tick Script.flaky_w3 Script.clock Script.args0 0 (Some 95) (Script.st0 [])))).
  apply surjective_pairing.
Defined.

Section Passes.

Context {W : Type} (w3 : Web3 W) (clock : Clock W).

(** What one pass adds to the fetched heights. *)
Lemma tick_fetched args start lpb (st st' : St W) r :
  tick w3 clock args start lpb st = (st', r) ->
  exists evs,
    out st' = out st ++ evs
    /\ StronglySorted Z.lt (fetched (visited evs))
    /\ (forall w, lpb = Some w -> forall b, In b (fetched (visited evs)) -> w < b)
    /\ (forall wm', r = Ok (Continue wm') ->
          (forall w, lpb = Some w -> exists w', wm' = Some w' /\ w <= w')
          /\ (forall w', wm' = Some w' -> forall b, In b (fetched (visited evs)) -> b <= w')
          /\ (wm' = None -> visited evs = [])).
Proof.
  intros H.
  assert (Hsome : forall w, tick w3 clock args start (Some w) st = (st', r) ->
            exists evs,
              out st' = out st ++ evs
              /\ StronglySorted Z.lt (fetched (visited evs))
              /\ (forall b, In b (fetched (visited evs)) -> w < b)
              /\ (forall wm', r = Ok (Continue wm') ->
                    (exists w', wm' = Some w' /\ w <= w')
                    /\ (forall w', wm' = Some w' ->
                          forall b, In b (fetched (visited evs)) -> b <= w'))).
  { intros w Hw. destruct r as [[wm'|]|e].
    - apply tick_visits in Hw. destruct Hw as (evs & Hout & Hwm & Hs & Ha & _).
      exists evs. split; [exact Hout|]. split; [now apply fetched_sorted|]. split.
      + intros b Hb. apply Ha. apply fetched_In in Hb.
        apply in_map_iff. exists (b, true). auto.
      + intros wm Hr. inversion Hr; subst wm. split.
        * exists (last_fetched (visited evs) w). split; [exact Hwm|].
          apply last_fetched_ge. intros x Hx. specialize (Ha x Hx). lia.
        * intros w' Hw' b Hb. rewrite Hwm in Hw'. inversion Hw'; subst w'.
          now apply fetched_le_last.
    - apply tick_visits_any in Hw. destruct Hw as (evs & Hout & Hv).
      exists evs. split; [exact Hout|].
      destruct Hv as [Hv|(w1 & latest & rest & _ & Hr)].
      + rewrite Hv. split; [constructor|]. split; [intros b []|]. intros wm Hr. discriminate.
      + assert (Hs : StronglySorted Z.lt (map fst (visited evs))).
        { apply (sorted_prefix _ rest). rewrite <- Hr. apply range_sorted. }
        split; [now apply fetched_sorted|]. split; [|intros wm Hx; discriminate].
        intros b Hb. apply fetched_In in Hb.
        assert (Hb' : In b (Py.range (w + 1) (latest - confirmations args + 1 + 1))).
        { rewrite Hr. apply in_or_app. left. apply in_map_iff. exists (b, true). auto. }
        apply range_In in Hb'. lia.
    - apply tick_visits_any in Hw. destruct Hw as (evs & Hout & Hv).
      exists evs. split; [exact Hout|].
      destruct Hv as [Hv|(w1 & latest & rest & _ & Hr)].
      + rewrite Hv. split; [constructor|]. split; [intros b []|]. intros wm Hr. discriminate.
      + assert (Hs : StronglySorted Z.lt (map fst (visited evs))).
        { apply (sorted_prefix _ rest). rewrite <- Hr. apply range_sorted. }
        split; [now apply fetched_sorted|]. split; [|intros wm Hx; discriminate].
        intros b Hb. apply fetched_In in Hb.
        assert (Hb' : In b (Py.range (w + 1) (latest - confirmations args + 1 + 1))).
        { rewrite Hr. apply in_or_app. left. apply in_map_iff. exists (b, true). auto. }
        apply range_In in Hb'. lia. }
  destruct lpb as [w|].
  - destruct (Hsome w H) as (evs & Hout & Hs & Ha & Hc).
    exists evs. split; [exact Hout|]. split; [exact Hs|]. split.
    + intros w0 Hw0. inversion Hw0; subst. exact Ha.
    + intros wm Hr. destruct (Hc wm Hr) as [(w' & Hw' & Hle) Hb]. split; [|split].
      * intros w0 Hw0. inversion Hw0; subst. eauto.
      * exact Hb.
      * intros Hn. congruence.
  - destruct (block_number w3 (world st)) as [w1 [latest|e]] eqn:Hhead.
    + rewrite (tick_unset w3 clock args start st w1 latest Hhead) in H.
      destruct (Hsome _ H) as (evs & Hout & Hs & Ha & Hc).
      exists evs. split; [exact Hout|]. split; [exact Hs|]. split; [discriminate|].
      intros wm Hr. destruct (Hc wm Hr) as [(w' & Hw' & Hle) Hb]. split; [|split].
      * discriminate.
      * exact Hb.
      * intros Hn. congruence.
    + rewrite (tick_head_failure w3 clock args start None st w1 e Hhead) in H.
      inversion H; subst; clear H. eexists. split; [reflexivity|].
      simpl. split; [constructor|]. split; [intros w Hw b []|].
      intros wm Hr. split; [discriminate|]. split; [intros w' Hw' b []|reflexivity].
Qed.

Lemma while_true_fetched fuel args start :
  forall lpb (st st' : St W) r,
    while_true w3 clock fuel args start lpb st = (st', r) ->
    exists evs,
      out st' = out st ++ evs
      /\ StronglySorted Z.lt (fetched (visited evs))
      /\ (forall w, lpb = Some w -> forall b, In b (fetched (visited evs)) -> w < b)
      /\ (forall wm', r = Ok (Continue wm') ->
            (forall w, lpb = Some w -> exists w', wm' = Some w' /\ w <= w')
            /\ (forall w', wm' = Some w' -> forall b, In b (fetched (visited evs)) -> b <= w')
            /\ (wm' = None -> visited evs = [])).
Proof.
  induction fuel as [|fuel IH]; intros lpb st st' r H; simpl in H.
  - inversion H; subst. exists []. split; [now rewrite app_nil_r|].
    simpl. split; [constructor|]. split; [intros w Hw b []|].
    intros wm Hr. inversion Hr; subst. split; [|split].
    + intros w Hw. exists w. split; [exact Hw|lia].
    + intros w' Hw' b [].
    + reflexivity.
  - apply bind_inv in H. destruct H as [(st1 & o & Ht & H)|(e & Ht & Hr)].
    2:{ subst r. destruct (tick_fetched _ _ _ _ _ _ Ht) as (evs & Hout & Hs & Ha & _).
        exists evs. split; [exact Hout|]. split; [exact Hs|]. split; [exact Ha|].
        intros wm Hx. discriminate. }
    destruct (tick_fetched _ _ _ _ _ _ Ht) as (evs1 & Hout1 & Hs1 & Ha1 & Hc1).
    destruct o as [b1|].
    2:{ inversion H; subst. exists evs1. split; [exact Hout1|]. split; [exact Hs1|].
        split; [exact Ha1|]. intros wm Hx. discriminate. }
    destruct (Hc1 b1 eq_refl) as (Hmono1 & Hle1 & Hnone1).
    destruct (IH b1 st1 st' r H) as (evs2 & Hout2 & Hs2 & Ha2 & Hc2).
    exists (evs1 ++ evs2). split; [now rewrite Hout2, Hout1, app_assoc|].
    rewrite visited_app, fetched_app.
    assert (Hcross : forall x y, In x (fetched (visited evs1)) ->
                                 In y (fetched (visited evs2)) -> x < y).
    { intros x y Hx Hy. destruct b1 as [w1|].
      - specialize (Hle1 w1 eq_refl x Hx). specialize (Ha2 w1 eq_refl y Hy). lia.
      - rewrite (Hnone1 eq_refl) in Hx. destruct Hx. }
    split; [now apply sorted_app_lt|]. split.
    + intros w Hw b Hb. apply in_app_or in Hb. destruct Hb as [Hb|Hb].
      * exact (Ha1 w Hw b Hb).
      * destruct (Hmono1 w Hw) as (w1 & -> & Hle).
        specialize (Ha2 w1 eq_refl b Hb). lia.
    + intros wm Hr. destruct (Hc2 wm Hr) as (Hmono2 & Hle2 & Hnone2). split; [|split].
      * intros w Hw. destruct (Hmono1 w Hw) as (w1 & -> & Hle).
        destruct (Hmono2 w1 eq_refl) as (w2 & -> & Hle'). exists w2. split; [reflexivity|lia].
      * intros w' Hw' b Hb. apply in_app_or in Hb. destruct Hb as [Hb|Hb].
        -- destruct b1 as [w1|].
           ++ specialize (Hle1 w1 eq_refl b Hb).
              destruct (Hmono2 w1 eq_refl) as (w2 & Hw2 & Hle'). rewrite Hw' in Hw2.
              inversion Hw2; subst. lia.
           ++ rewrite (Hnone1 eq_refl) in Hb. destruct Hb.
        -- exact (Hle2 w' Hw' b Hb).
      * intros Hn. destruct b1 as [w1|].
        -- destruct (Hmono2 w1 eq_refl) as (w2 & Hw2 & _). congruence.
        -- rewrite (Hnone1 eq_refl), (Hnone2 Hn). reflexivity.
Qed.

End Passes.

(** X7. Over a whole run of [main_loop], for any number of passes and any
    outcome: the heights whose block was fetched form a strictly increasing
    sequence, so no block is scanned twice, also across passes, and a fetch
    that failed is never made up for once a later height was fetched. With a
    start block [s] every block scanned lies above [s] (block [s] itself is
    not scanned). When the run has not returned, the watermark is at or
    above [s] and at or above every scanned height. *)
Theorem no_block_is_scanned_twice :
  forall (W : Type) (w3 : Web3 W) (clock : Clock W) (fuel : nat) (args : Args)
         (st st' : St W) (r : Exc Outcome),
    main_loop w3 clock fuel args st = (st', r) ->
    exists evs,
      out st' = out st ++ evs
      /\ StronglySorted Z.lt (fetched (visited evs))
      /\ (forall s, start_block args = Some s ->
            forall b, In b (fetched (visited evs)) -> s < b)
      /\ (forall wm', r = Ok (Continue wm') ->
            (forall s, start_block args = Some s -> exists w', wm' = Some w' /\ s <= w')
            /\ (forall w', wm' = Some w' ->
                  forall b, In b (fetched (visited evs)) -> b <= w')).
Proof.
  intros W w3 clock fuel args st st' r H. unfold main_loop in H.
  unfold bind at 1, print, emit in H. simpl in H.
  unfold bind at 1, on_clock in H.
  destruct (time_time clock _) as [w1 t0] eqn:Et. simpl in H.
  apply while_true_fetched in H. destruct H as (evs & Hout & Hs & Ha & Hc).
  simpl in Hout. exists (Print MStarting :: evs).
  split; [now rewrite Hout, <- app_assoc|].
  change (visited (Print MStarting :: evs)) with (visited evs).
  split; [exact Hs|]. split; [exact Ha|].
  intros wm Hr. destruct (Hc wm Hr) as (H1 & H2 & _). split; [exact H1|exact H2].
Qed.

(** The statement on three passes from start block 95 in which the fetch of
    block 96 fails once. *)
Lemma no_block_is_scanned_twice_witness :
  exists evs,
    out (fst (main_loop Script.flaky_w3 Script.clock 3 (Sample.args_from 95) (Script.st0 [])))
      = out (Script.st0 []) ++ evs
    /\ StronglySorted Z.lt (fetched (visited evs))
    /\ (forall s, start_block (Sample.args_from 95) = Some s ->
          forall b, In b (fetched (visited evs)) -> s < b)
    /\ (forall wm',
          snd (main_loop Script.flaky_w3 Script.clock 3 (Sample.args_from 95) (Script.st0 []))
            = Ok (Continue wm') ->
          (forall s, start_block (Sample.args_from 95) = Some s ->
             exists w', wm' = Some w' /\ s <= w')
          /\ (forall w', wm' = Some w' ->
                forall b, In b (fetched (visited evs)) -> b <= w')).
Proof.
  apply (no_block_is_scanned_twice nat Script.flaky_w3 Script.clock 3 (Sample.args_from 95)
           (Script.st0 [])).
  apply surjective_pairing.
Defined.

(** ** The parts of a pass *)

Section PassParts.

Context {W : Type} (w3 : Web3 W) (clock : Clock W).

Lemma same_files_on_world {A} (op : W -> W * Exc A) : steps same_files (on_world op).
Proof.
  intros st st' r H. unfold on_world in H. destruct (op (world st)).
  inversion H; subst. split; reflexivity.
Qed.

Lemma same_files_head_read args :
  steps same_files
    (try_except (l <- on_world (block_number w3) ;; @ret W _ (Some l))
       (fun e => print (MErrLatest (exn_msg e)) ;;;
                 sleep (Z.max 5 (poll_interval args)) ;;; ret None)).
Proof.
  steps_walk (@same_files_refl) (@same_files_trans)
    ltac:(first [apply same_files_on_world | apply same_files_emit | apply same_files_sleep]).
Qed.

Lemma same_files_idle args (o : Outcome) :
  steps same_files (sleep (poll_interval args) ;;; @ret W _ o).
Proof.
  steps_walk (@same_files_refl) (@same_files_trans)
    ltac:(first [apply same_files_emit | apply same_files_sleep]).
Qed.

(** A pass either stays out of the height loop, leaving table and files
    alone, or reads the head, runs the height loop over the range above the
    watermark and, when that loop ends normally, exports and ends the
    pass. *)
Lemma tick_cases args start lpb (st st' : St W) r :
  tick w3 clock args start lpb st = (st', r) ->
  (grows quiet st st' /\ same_files st st' /\ r <> Ok Exit)
  \/ exists (st1 st2 : St W) (latest : Z) (rf : Exc (Ctl * Z)),
       let w := match lpb with Some b => b | None => latest - 1 end in
       let target := latest - confirmations args + 1 in
       block_number w3 (world st) = (world st1, Ok latest)
       /\ grows quiet st st1 /\ same_files st st1
       /\ w < target
       /\ for_heights w3 clock args latest target w (Py.range (w + 1) (target + 1)) st1
          = (st2, rf)
       /\ match rf with
          | Raise e => st' = st2 /\ r = Raise e
          | Ok (Return, _) => st' = st2 /\ r = Ok Exit
          | Ok (Next, l) =>
              (export_csv_json (csv_output args) (json_output args) ;;;
               if run_duration args =? 0
               then sleep (poll_interval args) ;;; ret (Continue (Some l))
               else now <- on_clock (time_time clock) ;;
                    if run_duration args <=? now - start
                    then print (MRunDuration (run_duration args)) ;;; ret Exit
                    else sleep (poll_interval args) ;;; ret (Continue (Some l))) st2
              = (st', r)
          end.
Proof.
  unfold tick. intros H.
  apply bind_inv in H. destruct H as [(st1 & o & Htry & H)|(e & Htry & Hr)].
  2:{ left. split; [exact (quiet_head_read w3 args _ _ _ Htry)|].
      split; [exact (same_files_head_read args _ _ _ Htry)|]. subst r. discriminate. }
  pose proof (quiet_head_read w3 args _ _ _ Htry) as Hq1.
  pose proof (same_files_head_read args _ _ _ Htry) as Hf1.
  destruct o as [latest|].
  2:{ inversion H; subst. left. split; [exact Hq1|]. split; [exact Hf1|discriminate]. }
  apply head_read_ok in Htry.
  set (w := match lpb with Some b => b | None => latest - 1 end) in *.
  assert (Hidle : forall b, (sleep (poll_interval args) ;;; ret (Continue b)) st1 = (st', r) ->
            grows quiet st st' /\ same_files st st' /\ r <> Ok Exit).
  { intros b Ho. split; [|split].
    - exact (grows_trans _ _ _ _ Hq1 (quiet_idle args _ _ _ _ Ho)).
    - exact (same_files_trans _ _ _ Hf1 (same_files_idle args _ _ _ _ Ho)).
    - apply bind_inv in Ho. destruct Ho as [(s2 & u & _ & Ho)|(e & _ & ->)]; [|discriminate].
      inversion Ho. discriminate. }
  destruct (latest <=? w) eqn:E1; [left; exact (Hidle _ H)|].
  destruct (latest - confirmations args + 1 <=? w) eqn:E2; [left; exact (Hidle _ H)|].
  right. apply bind_inv in H. destruct H as [(st2 & [c l] & Hf & H)|(e & Hf & Hr)].
  - exists st1, st2, latest, (Ok (c, l)). cbv zeta. fold w.
    split; [exact Htry|]. split; [exact Hq1|]. split; [exact Hf1|]. split; [lia|].
    split; [exact Hf|]. destruct c; [exact H|]. inversion H; subst. auto.
  - exists st1, st', latest, (Raise e). cbv zeta. fold w.
    split; [exact Htry|]. split; [exact Hq1|]. split; [exact Hf1|]. split; [lia|].
    split; [exact Hf|]. auto.
Qed.

Lemma same_files_pass_tail args start (l : Z) :
  steps same_files
    (if run_duration args =? 0
     then sleep (poll_interval args) ;;; ret (Continue (Some l))
     else now <- on_clock (time_time clock) ;;
          if run_duration args <=? now - start
          then print (MRunDuration (run_duration args)) ;;; @ret W _ Exit
          else sleep (poll_interval args) ;;; ret (Continue (Some l))).
Proof.
  steps_walk (@same_files_refl) (@same_files_trans)
    ltac:(first [apply same_files_on_clock | apply same_files_emit
                | apply same_files_sleep]).
Qed.

Lemma same_db_pass_end args start (l : Z) :
  steps same_db
    (export_csv_json (csv_output args) (json_output args) ;;;
     if run_duration args =? 0
     then sleep (poll_interval args) ;;; ret (Continue (Some l))
     else now <- on_clock (time_time clock) ;;
          if run_duration args <=? now - start
          then print (MRunDuration (run_duration args)) ;;; @ret W _ Exit
          else sleep (poll_interval args) ;;; ret (Continue (Some l))).
Proof. same_db_steps. Qed.

End PassParts.

(** ** The table only grows at its end *)

Lemma recorded_from_more (c : string) (target : Z) (hs hs' : list Z) (evs evs' : list Event)
    (r : Row) :
  (forall b, In b hs -> In b hs') ->
  (forall e, In e evs -> In e evs') ->
  recorded_from c target hs evs r -> recorded_from c target hs' evs' r.
Proof.
  intros Hh He (H1 & H2 & H3 & a & H4 & H5).
  split; [exact H1|]. split; [exact H2|]. split; [now apply Hh|].
  exists a. split; [now apply He|exact H5].
Qed.

Lemma appends_refl {W} c target hs (st : St W) : appends c target hs st st.
Proof.
  exists [], []. rewrite !app_nil_r. repeat split; auto.
Qed.

Lemma appends_trans {W} c target hs (x y z : St W) :
  appends c target hs x y -> appends c target hs y z -> appends c target hs x z.
Proof.
  intros (e1 & r1 & Ho1 & Hd1 & Hl1 & Hf1) (e2 & r2 & Ho2 & Hd2 & Hl2 & Hf2).
  exists (e1 ++ e2), (r1 ++ r2).
  split; [now rewrite Ho2, Ho1, app_assoc|].
  split; [now rewrite Hd2, Hd1, app_assoc|].
  split; [rewrite detected_app, !length_app; lia|].
  apply List.Forall_app. split.
  - eapply List.Forall_impl; [|exact Hf1]. intros r.
    apply recorded_from_more; [auto|]. intros e He. apply in_or_app. now left.
  - eapply List.Forall_impl; [|exact Hf2]. intros r.
    apply recorded_from_more; [auto|]. intros e He. apply in_or_app. now right.
Qed.

Lemma appends_more {W} c target (hs hs' : list Z) (x y : St W) :
  (forall b, In b hs -> In b hs') -> appends c target hs x y -> appends c target hs' x y.
Proof.
  intros Hh (evs & rows & Ho & Hd & Hl & Hf). exists evs, rows.
  repeat split; auto. eapply List.Forall_impl; [|exact Hf]. intros r.
  apply recorded_from_more; auto.
Qed.

(** An operation that writes to the console at most and leaves the table
    alone appends nothing. *)
Lemma appends_calm {W A} c target hs (P : Event -> Prop) (m : M W A) :
  steps (grows P) m -> steps same_db m -> steps (appends c target hs) m.
Proof.
  intros Hg Hs st st' r H. destruct (Hg _ _ _ H) as (evs & Hout & _).
  exists evs, []. split; [exact Hout|]. split; [now rewrite app_nil_r, (Hs _ _ _ H)|].
  split; [simpl; lia|constructor].
Qed.

Create HintDb appends.
#[export] Hint Extern 1 (steps (appends _ _ _) (on_world _)) =>
  apply (appends_calm _ _ _ quiet); [apply grows_on_world|apply same_db_on_world] : appends.
#[export] Hint Extern 1 (steps (appends _ _ _) (print _)) =>
  apply (appends_calm _ _ _ (fun _ => True));
    [apply grows_print; exact I|apply same_db_print] : appends.

Section Appends.

Context {W : Type} (w3 : Web3 W) (clock : Clock W).

Lemma appends_detected args latest target blk block tx a :
  steps (appends (args_chain args) target [blk])
    (print (MDetected a (tx_hash tx) blk) ;;;
     seen <- already_seen a ;;
     if seen then print MAlready ;;; ret Next
     else process_candidate w3 clock args latest target blk block tx a).
Proof.
  intros st st' r H.
  apply bind_inv in H. destruct H as [(st1 & u & Hp & H)|(e & Hp & _)].
  2:{ inversion Hp. }
  inversion Hp; subst st1; clear Hp.
  apply bind_inv in H. destruct H as [(st2 & seen & Hs & H)|(e & Hs & _)].
  2:{ inversion Hs. }
  inversion Hs; subst st2 seen; clear Hs. simpl in H.
  set (sd := mkSt (world st) (db st) (fs st)
                  (out st ++ [Print (MDetected a (tx_hash tx) blk)])) in *.
  destruct (address_taken (db st) (Py.lower a)) eqn:Hseen.
  - assert (Hg : grows quiet sd st').
    { revert H. apply (steps_bind _ (grows_trans quiet)).
      - apply grows_print. reflexivity.
      - intros. apply steps_ret. apply grows_refl. }
    assert (Hs : same_db sd st').
    { revert H. apply (steps_bind _ (@same_db_trans W)).
      - apply same_db_print.
      - intros. apply steps_ret. apply same_db_refl. }
    destruct Hg as (evs & Hout & _).
    exists (Print (MDetected a (tx_hash tx) blk) :: evs), []. split.
    + simpl in Hout. now rewrite Hout, <- app_assoc.
    + split; [now rewrite app_nil_r|]. split; [simpl; lia|constructor].
  - pose proof (quiet_process_candidate _ _ _ _ _ _ _ _ _ _ _ _ H) as (evs & Hout & _).
    apply process_candidate_run in H.
    exists (Print (MDetected a (tx_hash tx) blk) :: evs).
    assert (Ho : out st' = out st ++ Print (MDetected a (tx_hash tx) blk) :: evs).
    { simpl in Hout. now rewrite Hout, <- app_assoc. }
    destruct (fromtimestamp_isoformat clock (timestamp block)) as [ts|e].
    + destruct H as (info & _ & Hd). simpl in Hd.
      destruct (plausible _ || save_all args).
      * unfold insert_or_ignore in Hd. simpl in Hd. rewrite Hseen in Hd.
        eexists [_]. split; [exact Ho|]. split; [exact Hd|]. split; [simpl; lia|].
        repeat constructor. simpl. exists a. split; [now left|reflexivity].
      * exists []. split; [exact Ho|]. split; [now rewrite app_nil_r|].
        split; [simpl; lia|constructor].
    + exists []. split; [exact Ho|]. split; [now rewrite app_nil_r|].
      split; [simpl; lia|constructor].
Qed.

#[local] Hint Resolve appends_detected : appends.

Lemma appends_handle_tx args latest target blk block tx :
  steps (appends (args_chain args) target [blk])
        (handle_tx w3 clock args latest target blk block tx).
Proof.
  unfold handle_tx.
  repeat first
    [ solve [eauto with appends]
    | apply (steps_ret _ (appends_refl _ _ _))
    | apply (steps_raise _ (appends_refl _ _ _))
    | apply (steps_of_exc _ (appends_refl _ _ _))
    | apply (steps_bind _ (appends_trans _ _ _)); [|intros]
    | apply (steps_try_except _ (appends_trans _ _ _)); [|intros]
    | match goal with
      | |- steps _ (match ?x with _ => _ end) => destruct x
      end
    | progress cbv zeta ].
Qed.

End Appends.

Ltac appends_steps :=
  repeat first
    [ solve [eauto with appends]
    | apply (steps_ret _ (appends_refl _ _ _))
    | apply (steps_raise _ (appends_refl _ _ _))
    | apply (steps_of_exc _ (appends_refl _ _ _))
    | apply (steps_bind _ (appends_trans _ _ _)); [|intros]
    | apply (steps_try_except _ (appends_trans _ _ _)); [|intros]
    | match goal with
      | |- steps _ (match ?x with _ => _ end) => destruct x
      end
    | progress cbv zeta ].

Lemma steps_appends_more {W A} c target (hs hs' : list Z) (m : M W A) :
  (forall b, In b hs -> In b hs') ->
  steps (appends c target hs) m -> steps (appends c target hs') m.
Proof. intros Hh H st st' r Hr. exact (appends_more _ _ _ _ _ _ Hh (H _ _ _ Hr)). Qed.

Section AppendsLoops.

Context {W : Type} (w3 : Web3 W) (clock : Clock W).

#[local] Hint Resolve appends_handle_tx : appends.

Lemma appends_for_txs args latest target blk block txs :
  steps (appends (args_chain args) target [blk])
        (for_txs w3 clock args latest target blk block txs).
Proof. induction txs as [|tx rest IH]; simpl; appends_steps. Qed.

#[local] Hint Resolve appends_for_txs : appends.

Lemma appends_scan_height args latest target lpb blk :
  steps (appends (args_chain args) target [blk])
        (scan_height w3 clock args latest target lpb blk).
Proof. unfold scan_height. appends_steps. Qed.

Lemma appends_for_heights args latest target heights :
  forall lpb,
    steps (appends (args_chain args) target heights)
          (for_heights w3 clock args latest target lpb heights).
Proof.
  induction heights as [|blk rest IH]; intros lpb; simpl.
  - apply steps_ret. apply appends_refl.
  - apply (steps_bind _ (appends_trans _ _ _)).
    + apply (steps_appends_more _ _ [blk]); [|apply appends_scan_height].
      intros b [<-|[]]. now left.
    + intros [[|] b].
      * apply (steps_appends_more _ _ rest); [|apply IH]. intros x Hx. now right.
      * apply steps_ret. apply appends_refl.
Qed.

Lemma keeps_reach_tick args start lpb :
  steps keeps_reach (tick w3 clock args start lpb).
Proof.
  pose proof (keeps_reach_for_heights w3 clock) as Hx.
  unfold tick. keeps_reach_steps.
Qed.

End AppendsLoops.

(** X8. A pass of the scan loop, whatever it ends in, never changes or
    removes a stored row: the table after the pass is the table before it
    followed by new rows, at most one for each contract creation the pass
    announced. Each new row carries the configured chain label, the
    lower-cased address, the transaction hash and the height of one of the
    detection lines of the pass; its found height is the safe height of the
    pass (the head minus the confirmations plus one, not the head), and its
    creation height lies above the watermark and not above the found
    height. A table the program can produce stays one. *)
Theorem pass_only_appends_rows_of_detected_contracts :
  forall (W : Type) (w3 : Web3 W) (clock : Clock W) (args : Args) (start : Z)
         (lpb : option Z) (st st' : St W) (r : Exc Outcome),
    tick w3 clock args start lpb st = (st', r) ->
    exists evs rows,
      out st' = out st ++ evs
      /\ db st' = db st ++ rows
      /\ (length rows <= length (detected evs))%nat
      /\ (reachable (db st) -> reachable (db st'))
      /\ (rows = []
          \/ exists w1 latest,
               block_number w3 (world st) = (w1, Ok latest)
               /\ List.Forall
                    (fun row =>
                       chain row = args_chain args
                       /\ found_block row = latest - confirmations args + 1
                       /\ match lpb with Some w => w | None => latest - 1 end
                          < creation_block row
                       /\ creation_block row <= found_block row
                       /\ exists a : string,
                            In (Print (MDetected a (tx_hash_col row) (creation_block row))) evs
                            /\ address row = Py.lower a)
                    rows).
Proof.
  intros W w3 clock args start lpb st st' r H.
  pose proof (keeps_reach_tick w3 clock args start lpb _ _ _ H) as Hreach.
  apply tick_cases in H.
  destruct H as [((evs & Hout & _) & (Hdb & _) & _)
                |(st1 & st2 & latest & rf & Hhead & (evs1 & Hout1 & _) & (Hdb1 & _)
                  & Hlt & Hf & Htail)].
  - exists evs, []. split; [exact Hout|]. split; [now rewrite app_nil_r|].
    split; [simpl; lia|]. split; [exact Hreach|now left].
  - cbv zeta in *.
    set (w := match lpb with Some b => b | None => latest - 1 end) in *.
    set (target := latest - confirmations args + 1) in *.
    apply appends_for_heights in Hf. destruct Hf as (evs2 & rows & Hout2 & Hdb2 & Hlen & Hrows).
    assert (Hend : exists evs3, out st' = out st2 ++ evs3 /\ db st' = db st2).
    { destruct rf as [[[|] l]|e].
      - pose proof (quiet_pass_end clock args start l _ _ _ Htail) as (evs3 & Hout3 & _).
        exists evs3. split; [exact Hout3|].
        exact (same_db_pass_end clock args start l _ _ _ Htail).
      - destruct Htail as [-> _]. exists []. now rewrite app_nil_r.
      - destruct Htail as [-> _]. exists []. now rewrite app_nil_r. }
    destruct Hend as (evs3 & Hout3 & Hdb3).
    exists (evs1 ++ evs2 ++ evs3), rows.
    split; [now rewrite Hout3, Hout2, Hout1, !app_assoc|].
    split; [now rewrite Hdb3, Hdb2, Hdb1|].
    split; [rewrite !detected_app, !length_app; lia|].
    split; [exact Hreach|].
    right. exists (world st1), latest. split; [exact Hhead|].
    eapply List.Forall_impl; [|exact Hrows].
    intros row (Hc & Hfb & Hcb & a & Hin & Ha).
    apply range_In in Hcb.
    split; [exact Hc|]. split; [exact Hfb|]. split; [lia|]. split; [lia|].
    exists a. split; [|exact Ha].
    apply in_or_app. right. apply in_or_app. now left.
Qed.

(** The statement on a pass over blocks 96 to 98, block 97 creating one
    contract. *)
Lemma pass_only_appends_rows_of_detected_contracts_witness :
  exists evs rows,
    out (fst (tick Script.token_w3 Script.clock Script.args0 0 (Some 95) (Script.st0 [])))
      = out (Script.st0 []) ++ evs
    /\ db (fst (tick Script.token_w3 Script.clock Script.args0 0 (Some 95) (Script.st0 [])))
       = db (Script.st0 []) ++ rows
    /\ (length rows <= length (detected evs))%nat
    /\ (reachable (db (Script.st0 [])) ->
        reachable (db (fst (tick Script.token_w3 Script.clock Script.args0 0 (Some 95)
                              (Script.st0 [])))))
    /\ (rows = []
        \/ exists w1 latest,
             block_number Script.token_w3 (world (Script.st0 [])) = (w1, Ok latest)
             /\ List.Forall
                  (fun row =>
                     chain row = args_chain Script.args0
                     /\ found_block row = latest - confirmations Script.args0 + 1
                     /\ 95 < creation_block row
                     /\ creation_block row <= found_block row
                     /\ exists a : string,
                          In (Print (MDetected a (tx_hash_col row) (creation_block row))) evs
                          /\ address row = Py.lower a)
                  rows).
Proof.
  apply (pass_only_appends_rows_of_detected_contracts nat Script.token_w3 Script.clock
           Script.args0 0 (Some 95) (Script.st0 []) _
           (snd (tick Script.token_w3 Script.clock Script.args0 0 (Some 95) (Script.st0 [])))).
  apply surjective_pairing.
Defined.

(** ** Exceptions that escape *)

Section RaisesOnly.

Context {W : Type} (P : Exn -> Prop).

Lemma ro_ret {A} (a : A) : raises_only P (@ret W A a).
Proof. intros st st' e H. inversion H. Qed.

Lemma ro_raise {A} (e : Exn) : P e -> raises_only P (@raise W A e).
Proof. intros He st st' e' H. inversion H; subst. exact He. Qed.

Lemma ro_of_exc {A} (x : Exc A) :
  (forall e, x = Raise e -> P e) -> raises_only P (@of_exc W A x).
Proof. intros Hx st st' e H. inversion H; subst. now apply Hx. Qed.

Lemma ro_get_db : raises_only P (@get_db W).
Proof. intros st st' e H. inversion H. Qed.

Lemma ro_put_db (t : list Row) : raises_only P (@put_db W t).
Proof. intros st st' e H. inversion H. Qed.

Lemma ro_emit (ev : Event) : raises_only P (@emit W ev).
Proof. intros st st' e H. inversion H. Qed.

Lemma ro_print (m : Msg) : raises_only P (@print W m).
Proof. apply ro_emit. Qed.

Lemma ro_write_file (p : string) (c : list Chunk) : raises_only P (@write_file W p c).
Proof. intros st st' e H. inversion H. Qed.

Lemma ro_append_file (p : string) (c : Chunk) : raises_only P (@append_file W p c).
Proof. intros st st' e H. inversion H. Qed.

Lemma ro_on_clock {A} (op : W -> W * A) : raises_only P (on_clock op).
Proof.
  intros st st' e H. unfold on_clock in H. destruct (op (world st)). inversion H.
Qed.

Lemma ro_bind {A B} (m : M W A) (k : A -> M W B) :
  raises_only P m -> (forall a, raises_only P (k a)) -> raises_only P (bind m k).
Proof.
  intros Hm Hk st st' e H. apply bind_inv in H.
  destruct H as [(st1 & a & _ & H)|(e' & H & He)].
  - exact (Hk a _ _ _ H).
  - inversion He; subst. exact (Hm _ _ _ H).
Qed.

(** Whatever the body of a [try] raises is caught: only the handler
    counts. *)
Lemma ro_try_except {A} (m : M W A) (h : Exn -> M W A) :
  (forall e, raises_only P (h e)) -> raises_only P (try_except m h).
Proof.
  intros Hh st st' e H. apply try_except_inv in H.
  destruct H as [(a & _ & Ha)|(st1 & e' & _ & H)]; [discriminate|].
  exact (Hh e' _ _ _ H).
Qed.

Lemma ro_sleep_nonneg (n : Z) : 0 <= n -> raises_only P (@sleep W n).
Proof.
  intros Hn. unfold sleep. destruct (n <? 0) eqn:E; [lia|]. apply ro_emit.
Qed.

End RaisesOnly.

Create HintDb raises.
#[export] Hint Resolve ro_get_db ro_put_db ro_print ro_write_file ro_append_file
  ro_on_clock : raises.

Ltac raises_steps :=
  repeat first
    [ solve [eauto with raises]
    | apply ro_ret
    | apply ro_bind; [|intros]
    | apply ro_try_except; intros
    | match goal with
      | |- raises_only _ (match ?x with _ => _ end) => destruct x
      end
    | progress cbv zeta ].

Section Escapes.

Context {W : Type} (w3 : Web3 W) (clock : Clock W) (args : Args).

Lemma ro_save_token (d : Data) : raises_only (escapes w3 clock args) (@save_token W d).
Proof. unfold save_token. raises_steps. Qed.

Lemma ro_count_tokens : raises_only (escapes w3 clock args) (@count_tokens W).
Proof. unfold count_tokens. raises_steps. Qed.

Lemma ro_export (c j : string) : raises_only (escapes w3 clock args) (@export_csv_json W c j).
Proof. unfold export_csv_json. raises_steps. Qed.

Lemma ro_safe_contract_call a f b :
  raises_only (escapes w3 clock args) (safe_contract_call w3 a f b).
Proof. unfold safe_contract_call. raises_steps. Qed.

#[local] Hint Resolve ro_save_token ro_count_tokens ro_export ro_safe_contract_call : raises.

Lemma ro_inspect_contract a cb fb :
  raises_only (escapes w3 clock args) (inspect_contract w3 a cb fb).
Proof. unfold inspect_contract. raises_steps. Qed.

Lemma ro_record_candidate a d :
  raises_only (escapes w3 clock args) (@record_candidate W args a d).
Proof. unfold record_candidate. raises_steps. Qed.

#[local] Hint Resolve ro_inspect_contract ro_record_candidate : raises.

Lemma ro_checksum (a : string) :
  raises_only (escapes w3 clock args) (@of_exc W _ (to_checksum_address w3 a)).
Proof. apply ro_of_exc. intros e He. left. eauto. Qed.

Lemma ro_timestamp (t : Z) :
  raises_only (escapes w3 clock args) (@of_exc W _ (fromtimestamp_isoformat clock t)).
Proof. apply ro_of_exc. intros e He. right. left. eauto. Qed.

Lemma ro_already_seen (a : string) : raises_only (escapes w3 clock args) (@already_seen W a).
Proof. unfold already_seen. raises_steps. Qed.

#[local] Hint Resolve ro_checksum ro_timestamp ro_already_seen : raises.

Lemma ro_process_candidate latest target blk block tx a :
  raises_only (escapes w3 clock args)
    (process_candidate w3 clock args latest target blk block tx a).
Proof. unfold process_candidate. raises_steps. Qed.

#[local] Hint Resolve ro_process_candidate : raises.

Lemma ro_handle_tx latest target blk block tx :
  raises_only (escapes w3 clock args) (handle_tx w3 clock args latest target blk block tx).
Proof. unfold handle_tx. raises_steps. Qed.

#[local] Hint Resolve ro_handle_tx : raises.

Lemma ro_for_txs latest target blk block txs :
  raises_only (escapes w3 clock args) (for_txs w3 clock args latest target blk block txs).
Proof. induction txs as [|tx rest IH]; simpl; raises_steps. Qed.

#[local] Hint Resolve ro_for_txs : raises.

Lemma ro_scan_height latest target lpb blk :
  raises_only (escapes w3 clock args) (scan_height w3 clock args latest target lpb blk).
Proof. unfold scan_height. raises_steps. Qed.

#[local] Hint Resolve ro_scan_height : raises.

Lemma ro_for_heights latest target heights :
  forall lpb,
    raises_only (escapes w3 clock args) (for_heights w3 clock args latest target lpb heights).
Proof. induction heights as [|blk rest IH]; intros lpb; simpl; raises_steps. Qed.

#[local] Hint Resolve ro_for_heights : raises.

Lemma ro_sleep_poll : raises_only (escapes w3 clock args) (@sleep W (poll_interval args)).
Proof.
  intros st st' e H. unfold sleep in H.
  destruct (poll_interval args <? 0) eqn:E; [|inversion H].
  inversion H; subst. right. right. split; [lia|reflexivity].
Qed.

Lemma ro_sleep_max : raises_only (escapes w3 clock args) (@sleep W (Z.max 5 (poll_interval args))).
Proof. apply ro_sleep_nonneg. lia. Qed.

#[local] Hint Resolve ro_sleep_poll ro_sleep_max : raises.

Lemma ro_tick start lpb :
  raises_only (escapes w3 clock args) (tick w3 clock args start lpb).
Proof. unfold tick. raises_steps. Qed.

#[local] Hint Resolve ro_tick : raises.

Lemma ro_while_true fuel start :
  forall lpb, raises_only (escapes w3 clock args) (while_true w3 clock fuel args start lpb).
Proof. induction fuel as [|fuel IH]; intros lpb; simpl; raises_steps. Qed.

#[local] Hint Resolve ro_while_true : raises.

Lemma ro_main_loop fuel : raises_only (escapes w3 clock args) (main_loop w3 clock fuel args).
Proof. unfold main_loop. raises_steps. Qed.

End Escapes.

(** ** Why the loop returns *)

Section Stops.

Context {W : Type} (w3 : Web3 W) (clock : Clock W) (args : Args).

Lemma record_candidate_stop a d (st st' : St W) :
  record_candidate args a d st = (st', Ok Return) -> stopped_at_count args st'.
Proof.
  intros H. unfold record_candidate in H.
  destruct (plausible d || save_all args); [|inversion H].
  inv_bind H st1 u1 Hs. inv_bind H st2 u2 Hp.
  assert (Hsaved : exists saved,
             out st2 = out st1 ++ [Print saved]
             /\ ((exists a nm sy dec, saved = MSavedToken a nm sy dec)
                 \/ (exists a, saved = MSavedContract a))).
  { destruct (plausible d); inversion Hp; subst; eexists; (split; [reflexivity|]); eauto 6. }
  destruct Hsaved as (saved & Hout2 & Hkind).
  apply try_except_inv in H. destruct H as [(c & H & Hc)|(sx & e & _ & H)].
  - inversion Hc; subst c; clear Hc.
    destruct (0 <? stop_at_count args) eqn:E0; [|inversion H].
    inv_bind H st3 cnt Hcnt. inversion Hcnt; subst st3 cnt; clear Hcnt.
    destruct (stop_at_count args <=? _) eqn:E1; [|inversion H].
    inv_bind H st4 u4 Hp4. inversion Hp4; subst st4; clear Hp4.
    inv_bind H st5 u5 He. inversion H; subst st5; clear H.
    unfold export_csv_json, bind, get_db, write_file, print, emit in He. simpl in He.
    inversion He; subst st'; clear He. simpl.
    apply Z.ltb_lt in E0. apply Z.leb_le in E1.
    split; [exact E0|]. split; [exact E1|]. exists (out st1), saved. eexists.
    split; [|exact Hkind]. rewrite Hout2, <- !app_assoc. reflexivity.
  - inv_bind H sy u Hy. inversion H.
Qed.

Lemma process_candidate_stop latest target blk block tx a (st st' : St W) :
  process_candidate w3 clock args latest target blk block tx a st = (st', Ok Return) ->
  stopped_at_count args st'.
Proof.
  intros H. unfold process_candidate in H.
  inv_bind H st1 ts Hts. inv_bind H st2 info Hi. inv_bind H st3 u3 Hv.
  inv_bind H st4 u4 Hl. exact (record_candidate_stop _ _ _ _ H).
Qed.

Lemma handle_tx_stop latest target blk block tx (st st' : St W) :
  handle_tx w3 clock args latest target blk block tx st = (st', Ok Return) ->
  stopped_at_count args st'.
Proof.
  intros H. unfold handle_tx in H.
  destruct (match tx_to tx with Ok v => v | Raise _ => None end); [inversion H|].
  inv_bind H st1 o Hr. destruct o as [receipt|]; [|inversion H].
  destruct (negb (Py.truthy (receipt_contract_address receipt))); [inversion H|].
  inv_bind H st2 a Ha. inv_bind H st3 u Hp. inv_bind H st4 seen Hs.
  destruct seen.
  - inv_bind H sx u' Hx. inversion H.
  - exact (process_candidate_stop _ _ _ _ _ _ _ _ H).
Qed.

Lemma for_txs_stop latest target blk block txs :
  forall (st st' : St W),
    for_txs w3 clock args latest target blk block txs st = (st', Ok Return) ->
    stopped_at_count args st'.
Proof.
  induction txs as [|tx rest IH]; intros st st' H; simpl in H; [inversion H|].
  inv_bind H sta c Ha. destruct c.
  - exact (IH _ _ H).
  - inversion H; subst. exact (handle_tx_stop _ _ _ _ _ _ _ Ha).
Qed.

Lemma scan_height_stop latest target lpb blk (st st' : St W) l :
  scan_height w3 clock args latest target lpb blk st = (st', Ok (Return, l)) ->
  stopped_at_count args st'.
Proof.
  intros H. apply scan_height_run in H.
  destruct (snd (get_block w3 blk (world st))) as [block|e].
  - destruct H as (stp & rc & Hp & Hf & Hrc).
    destruct rc as [[|]|e]; try discriminate.
    exact (for_txs_stop _ _ _ _ _ _ _ Hf).
  - destruct H as [_ H]. discriminate.
Qed.

Lemma for_heights_stop latest target heights :
  forall lpb (st st' : St W) l,
    for_heights w3 clock args latest target lpb heights st = (st', Ok (Return, l)) ->
    stopped_at_count args st'.
Proof.
  induction heights as [|blk rest IH]; intros lpb st st' l H; simpl in H; [inversion H|].
  inv_bind H sta r Ha. destruct r as [c b]. destruct c.
  - exact (IH _ _ _ _ H).
  - inversion H; subst. exact (scan_height_stop _ _ _ _ _ _ _ Ha).
Qed.

(** The two ways a pass returns from [main_loop]. *)
Lemma tick_exit start lpb (st st' : St W) :
  tick w3 clock args start lpb st = (st', Ok Exit) ->
  stopped_at_count args st'
  \/ (run_duration args <> 0
      /\ exists pre, out st' = pre ++ [Print (MRunDuration (run_duration args))]).
Proof.
  intros H. apply tick_cases in H.
  destruct H as [(_ & _ & Hne)|(st1 & st2 & latest & rf & _ & _ & _ & _ & Hf & Htail)];
    [congruence|].
  destruct rf as [[[|] l]|e].
  - right. inv_bind Htail st3 u He.
    destruct (run_duration args =? 0) eqn:E.
    { inv_bind Htail st4 u4 Hs. inversion Htail. }
    split; [lia|].
    inv_bind Htail st4 now Hn.
    destruct (run_duration args <=? now - start).
    + inv_bind Htail st5 u5 Hp. inversion Htail; subst st5.
      inversion Hp; subst. simpl. eauto.
    + inv_bind Htail st5 u5 Hs. inversion Htail.
  - destruct Htail as [-> _]. left. exact (for_heights_stop _ _ _ _ _ _ _ Hf).
  - destruct Htail as [_ Hr]. discriminate.
Qed.

Lemma while_true_exit fuel start :
  forall lpb (st st' : St W),
    while_true w3 clock fuel args start lpb st = (st', Ok Exit) ->
    stopped_at_count args st'
    \/ (run_duration args <> 0
        /\ exists pre, out st' = pre ++ [Print (MRunDuration (run_duration args))]).
Proof.
  induction fuel as [|fuel IH]; intros lpb st st' H; simpl in H; [inversion H|].
  inv_bind H st1 o Ht. destruct o as [b|].
  - exact (IH _ _ _ H).
  - inversion H; subst. exact (tick_exit _ _ _ _ Ht).
Qed.

(** ** A chain that stands still *)

Lemma tick_idle start lpb (st : St W) (w1 : W) (latest : Z) :
  block_number w3 (world st) = (w1, Ok latest) ->
  latest <= match lpb with Some b => b | None => latest - 1 end
  \/ latest - confirmations args + 1 <= match lpb with Some b => b | None => latest - 1 end ->
  0 <= poll_interval args ->
  tick w3 clock args start lpb st
  = (mkSt w1 (db st) (fs st) (out st ++ [Sleep (poll_interval args)]),
     Ok (Continue (Some match lpb with Some b => b | None => latest - 1 end))).
Proof.
  intros Hhead Hidle Hp. unfold tick, bind, try_except, on_world. rewrite Hhead. simpl.
  set (w := match lpb with Some b => b | None => latest - 1 end) in *.
  assert (Hs : @sleep W (poll_interval args) = emit (Sleep (poll_interval args))).
  { unfold sleep. destruct (poll_interval args <? 0) eqn:E; [lia|reflexivity]. }
  rewrite Hs.
  destruct (latest <=? w) eqn:E1; [reflexivity|].
  destruct (latest - confirmations args + 1 <=? w) eqn:E2; [reflexivity|]. lia.
Qed.

Lemma while_true_idle start (latest w : Z) :
  (forall x, snd (block_number w3 x) = Ok latest) ->
  latest <= w \/ latest - confirmations args + 1 <= w ->
  0 <= poll_interval args ->
  forall fuel (st : St W),
    exists w' : W,
      while_true w3 clock fuel args start (Some w) st
      = (mkSt w' (db st) (fs st) (out st ++ repeat (Sleep (poll_interval args)) fuel),
         Ok (Continue (Some w))).
Proof.
  intros Hhead Hidle Hp. induction fuel as [|fuel IH]; intros st.
  - exists (world st). simpl. rewrite app_nil_r. unfold ret. now rewrite st_eta.
  - simpl. unfold bind at 1.
    destruct (block_number w3 (world st)) as [w1 r1] eqn:E.
    pose proof (Hhead (world st)) as Hr. rewrite E in Hr. simpl in Hr. subst r1.
    rewrite (tick_idle start (Some w) st w1 latest E Hidle Hp).
    destruct (IH (mkSt w1 (db st) (fs st) (out st ++ [Sleep (poll_interval args)])))
      as [w' Hw'].
    exists w'. rewrite Hw'. simpl. now rewrite <- app_assoc.
Qed.

(** ** Blocks of ordinary transactions *)

Lemma for_txs_ordinary latest target blk block txs (st : St W) :
  List.Forall (fun tx => exists x, tx_to tx = Ok (Some x)) txs ->
  for_txs w3 clock args latest target blk block txs st = (st, Ok Next).
Proof.
  induction 1 as [|tx rest (x & Hx) _ IH]; [reflexivity|].
  simpl. unfold bind at 1, handle_tx. rewrite Hx. exact IH.
Qed.

End Stops.

(** X9. Every failure of a remote call is survived by [main_loop]: with
    the store, the files and the console reliable, the only exceptions that
    can leave it are one raised by the check-summing of a receipt's contract
    address, one raised by the conversion of a block timestamp, and the
    [ValueError] of a sleep when the poll interval is negative. So when
    those two library calls do not raise and the poll interval is not
    negative, the loop never raises, whatever the endpoint does. *)
Theorem only_address_timestamp_and_sleep_errors_leave_the_loop :
  forall (W : Type) (w3 : Web3 W) (clock : Clock W) (fuel : nat) (args : Args)
         (st : St W),
    (forall (st' : St W) (e : Exn),
        main_loop w3 clock fuel args st = (st', Raise e) ->
        (exists a : string, to_checksum_address w3 a = Raise e)
        \/ (exists t : Z, fromtimestamp_isoformat clock t = Raise e)
        \/ (poll_interval args < 0 /\ exn_kind e = ValueError))
    /\ ((forall a : string, exists c, to_checksum_address w3 a = Ok c) ->
        (forall t : Z, exists s, fromtimestamp_isoformat clock t = Ok s) ->
        0 <= poll_interval args ->
        exists o : Outcome, snd (main_loop w3 clock fuel args st) = Ok o).
Proof.
  intros W w3 clock fuel args st.
  assert (H1 : forall (st' : St W) (e : Exn),
             main_loop w3 clock fuel args st = (st', Raise e) -> escapes w3 clock args e).
  { intros st' e H. exact (ro_main_loop w3 clock args fuel _ _ _ H). }
  split; [exact H1|].
  intros Hc Ht Hp.
  destruct (main_loop w3 clock fuel args st) as [st' [o|e]] eqn:E; [now exists o|].
  exfalso. destruct (H1 st' e eq_refl) as [(a & Ha)|[(t & Hx)|(Hn & _)]].
  - destruct (Hc a) as [c Hc']. congruence.
  - destruct (Ht t) as [s Hs]. congruence.
  - lia.
Qed.

(** The first part on a chain whose block 97 creates a contract and
    carries a timestamp after the year 9999: the loop raises the
    [ValueError] of the timestamp conversion. *)
Lemma only_address_timestamp_and_sleep_errors_leave_the_loop_witness :
  snd (main_loop Sample.late_w3 Script.clock 1 (Sample.args_from 95) (Script.st0 []))
    = Raise (mkExn ValueError "year is out of range")
  /\ ((exists a : string,
          to_checksum_address Sample.late_w3 a = Raise (mkExn ValueError "year is out of range"))
      \/ (exists t : Z,
             fromtimestamp_isoformat Script.clock t
             = Raise (mkExn ValueError "year is out of range"))
      \/ (poll_interval (Sample.args_from 95) < 0
          /\ exn_kind (mkExn ValueError "year is out of range") = ValueError)).
Proof.
  split; [vm_compute; reflexivity|].
  apply (proj1 (only_address_timestamp_and_sleep_errors_leave_the_loop nat Sample.late_w3
                  Script.clock 1 (Sample.args_from 95) (Script.st0 []))
           (fst (main_loop Sample.late_w3 Script.clock 1 (Sample.args_from 95) (Script.st0 [])))).
  vm_compute. reflexivity.
Defined.

(** X10. [main_loop] returns for one of two reasons only. Either the stop
    count is set, a candidate was just saved and the table then held at
    least that many rows (rows stored before the run count too): the console
    ends on the line reporting the count and the line of the export. Or a
    run duration is set and a pass that went through the height loop found
    it used up. With both switched off the loop never returns. *)
Theorem loop_returns_only_at_the_stop_count_or_the_run_duration :
  forall (W : Type) (w3 : Web3 W) (clock : Clock W) (fuel : nat) (args : Args)
         (st st' : St W),
    main_loop w3 clock fuel args st = (st', Ok Exit) ->
    (0 < stop_at_count args
     /\ stop_at_count args <= Z.of_nat (length (db st'))
     /\ exists (pre : list Event) (saved : Msg) (n : nat),
          out st' = pre ++ [Print saved;
                            Print (MStopAtCount (Z.of_nat (length (db st')))
                                                (stop_at_count args));
                            Print (MExported n (csv_output args) (json_output args))]
          /\ ((exists a nm sy dec, saved = MSavedToken a nm sy dec)
              \/ (exists a, saved = MSavedContract a)))
    \/ (run_duration args <> 0
        /\ exists pre, out st' = pre ++ [Print (MRunDuration (run_duration args))]).
Proof.
  intros W w3 clock fuel args st st' H. unfold main_loop in H.
  inv_bind H st1 u Hp. inv_bind H st2 t0 Ht.
  exact (while_true_exit w3 clock args fuel t0 _ _ _ H).
Qed.

(** The statement on a run that stops at one stored row. *)
Lemma loop_returns_only_at_the_stop_count_or_the_run_duration_witness :
  snd (main_loop Script.token_w3 Script.clock 2 Sample.args_stop (Script.st0 [])) = Ok Exit
  /\ ((0 < stop_at_count Sample.args_stop
       /\ stop_at_count Sample.args_stop
          <= Z.of_nat (length (db (fst (main_loop Script.token_w3 Script.clock 2
                                           Sample.args_stop (Script.st0 [])))))
       /\ exists (pre : list Event) (saved : Msg) (n : nat),
            out (fst (main_loop Script.token_w3 Script.clock 2 Sample.args_stop (Script.st0 [])))
            = pre ++ [Print saved;
                      Print (MStopAtCount
                               (Z.of_nat (length (db (fst (main_loop Script.token_w3
                                                             Script.clock 2 Sample.args_stop
                                                             (Script.st0 []))))))
                               (stop_at_count Sample.args_stop));
                      Print (MExported n (csv_output Sample.args_stop)
                                         (json_output Sample.args_stop))]
            /\ ((exists a nm sy dec, saved = MSavedToken a nm sy dec)
                \/ (exists a, saved = MSavedContract a)))
      \/ (run_duration Sample.args_stop <> 0
          /\ exists pre,
               out (fst (main_loop Script.token_w3 Script.clock 2 Sample.args_stop
                           (Script.st0 [])))
               = pre ++ [Print (MRunDuration (run_duration Sample.args_stop))])).
Proof.
  split; [vm_compute; reflexivity|].
  apply (loop_returns_only_at_the_stop_count_or_the_run_duration nat Script.token_w3
           Script.clock 2 Sample.args_stop (Script.st0 [])).
  vm_compute. reflexivity.
Defined.

(** X11. While the head of the chain stands still at or below the
    watermark, or the safe height does, the loop only polls and sleeps: for
    any number of passes the table and the files stay as they were, nothing
    is exported, and the loop does not return even when a run duration is
    set and used up, since the run duration is looked at only after a pass
    through the height loop. *)
Theorem idle_chain_is_only_polled :
  forall (W : Type) (w3 : Web3 W) (clock : Clock W) (args : Args) (latest w : Z),
    (forall x : W, snd (block_number w3 x) = Ok latest) ->
    start_block args = Some w ->
    latest <= w \/ latest - confirmations args + 1 <= w ->
    0 <= poll_interval args ->
    forall (fuel : nat) (st : St W),
      exists w' : W,
        main_loop w3 clock fuel args st
        = (mkSt w' (db st) (fs st)
                (out st ++ Print MStarting :: repeat (Sleep (poll_interval args)) fuel),
           Ok (Continue (Some w))).
Proof.
  intros W w3 clock args latest w Hhead Hstart Hidle Hp fuel st.
  unfold main_loop. rewrite Hstart.
  unfold bind, print, emit, on_clock. simpl.
  destruct (time_time clock (world st)) as [w1 t0]. simpl.
  destruct (while_true_idle w3 clock args t0 latest w Hhead Hidle Hp fuel
              (mkSt w1 (db st) (fs st) (out st ++ [Print MStarting]))) as [w' Hw'].
  exists w'. rewrite Hw'. simpl. now rewrite <- app_assoc.
Qed.

(** The statement on three passes over a chain with its head at 100, from
    watermark 100 and with a run duration of one second. *)
Lemma idle_chain_is_only_polled_witness :
  exists w' : nat,
    main_loop Script.quiet_w3 Script.clock 3 Sample.args_timed (Script.st0 [])
    = (mkSt w' (db (Script.st0 [])) (fs (Script.st0 []))
            (out (Script.st0 [])
             ++ Print MStarting :: repeat (Sleep (poll_interval Sample.args_timed)) 3),
       Ok (Continue (Some 100))).
Proof.
  apply (idle_chain_is_only_polled nat Script.quiet_w3 Script.clock Sample.args_timed 100 100).
  - intros x. reflexivity.
  - reflexivity.
  - left. lia.
  - vm_compute. discriminate.
Defined.

(** X12. A block in which every transaction names a recipient costs no
    remote call beyond its own fetch: no receipt is asked for, nothing is
    probed, stored or written, the console gets the scanning line only, and
    the watermark moves to the block's height. A transaction is taken for a
    contract creation only when reading its recipient gives [None] or
    raises. *)
Theorem block_of_ordinary_transactions_is_only_fetched :
  forall (W : Type) (w3 : Web3 W) (clock : Clock W) (args : Args)
         (latest target lpb blk : Z) (st : St W) (w1 : W) (block : Block),
    get_block w3 blk (world st) = (w1, Ok block) ->
    List.Forall (fun tx => exists x, tx_to tx = Ok (Some x)) (transactions block) ->
    scan_height w3 clock args latest target lpb blk st
    = (mkSt w1 (db st) (fs st)
            (out st ++ [Print (MScanning blk (length (transactions block)))]),
       Ok (Next, blk)).
Proof.
  intros W w3 clock args latest target lpb blk st w1 block Hb Htx.
  unfold scan_height. unfold bind at 1, try_except, bind at 1, on_world. rewrite Hb.
  simpl. unfold bind at 1, print, emit. simpl. unfold bind at 1.
  rewrite (for_txs_ordinary w3 clock args latest target blk block _ _ Htx). reflexivity.
Qed.

(** The statement on a block of two transfers. *)
Lemma block_of_ordinary_transactions_is_only_fetched_witness :
  scan_height Sample.transfers_w3 Script.clock Script.args0 100 98 95 96 (Script.st0 [])
  = (mkSt 1%nat [] ∅ [Print (MScanning 96 2)], Ok (Next, 96)).
Proof.
  apply (block_of_ordinary_transactions_is_only_fetched nat Sample.transfers_w3 Script.clock
           Script.args0 100 98 95 96 (Script.st0 []) 1%nat Sample.transfers).
  - reflexivity.
  - repeat constructor; eexists; reflexivity.
Defined.

(** ** One file *)

Lemma keeps_file_refl {W} p (st : St W) : keeps_file p st st.
Proof. reflexivity. Qed.

Lemma keeps_file_trans {W} p (a b c : St W) :
  keeps_file p a b -> keeps_file p b c -> keeps_file p a c.
Proof. unfold keeps_file. congruence. Qed.

Lemma keeps_file_same {W A} p (m : M W A) : steps same_files m -> steps (keeps_file p) m.
Proof. intros H st st' r Hr. destruct (H _ _ _ Hr) as [_ Hf]. unfold keeps_file. now rewrite Hf. Qed.

Lemma keeps_file_put_db {W} p (t : list Row) : steps (keeps_file p) (@put_db W t).
Proof. intros st st' r H. inversion H; subst. reflexivity. Qed.

Lemma keeps_file_emit {W} p (e : Event) : steps (keeps_file p) (@emit W e).
Proof. intros st st' r H. inversion H; subst. reflexivity. Qed.

Lemma keeps_file_write {W} p q (c : list Chunk) :
  p <> q -> steps (keeps_file p) (@write_file W q c).
Proof.
  intros Hne st st' r H. inversion H; subst. unfold keeps_file. simpl.
  now rewrite lookup_insert_ne by congruence.
Qed.

Lemma keeps_file_record_candidate {W} p args a d :
  p <> csv_output args -> p <> json_output args ->
  steps (keeps_file p) (@record_candidate W args a d).
Proof.
  intros H1 H2. unfold record_candidate, save_token, count_tokens, export_csv_json.
  repeat first
    [ apply keeps_file_put_db | apply keeps_file_emit
    | apply keeps_file_write; assumption
    | apply (steps_ret _ (keeps_file_refl p))
    | apply (steps_get_db _ (keeps_file_refl p))
    | apply (steps_bind _ (keeps_file_trans p)); [|intros]
    | apply (steps_try_except _ (keeps_file_trans p)); [|intros]
    | match goal with
      | |- steps _ (match ?x with _ => _ end) => destruct x
      end
    | progress cbv zeta ].
Qed.



(** X14. Saving and looking up go together: after [save_token] the address
    of the record is reported as already seen in any letter case, the
    answer for every other address is what it was, and the row count grew
    by one when the address was new and stayed when it was not. The rows
    stored before are all kept, in place; a saved record whose address was
    new is the last row, with the next id and the fields of the record. *)
Theorem saved_address_is_seen_afterwards :
  forall (W : Type) (data : Data) (st : St W),
    exists st' : St W,
      save_token data st = (st', Ok tt)
      /\ world st' = world st /\ fs st' = fs st /\ out st' = out st
      /\ (forall a : string,
             Py.lower a = Py.lower (d_address data) ->
             already_seen a st' = (st', Ok true))
      /\ (forall b : string,
             Py.lower b <> Py.lower (d_address data) ->
             snd (already_seen b st') = snd (already_seen b st))
      /\ snd (count_tokens st')
         = Ok (Z.of_nat (length (db st))
               + if address_taken (db st) (Py.lower (d_address data)) then 0 else 1)
      /\ db st' = db st ++ (if address_taken (db st) (Py.lower (d_address data))
                            then []
                            else [data_row (next_rowid (db st)) data]).
Proof.
  intros W data st. rewrite save_token_run. eexists. split; [reflexivity|].
  cbn [world fs out db]. split; [reflexivity|]. split; [reflexivity|]. split; [reflexivity|].
  assert (Hdb : insert_or_ignore (db st) (data_row (next_rowid (db st)) data)
                = db st ++ (if address_taken (db st) (Py.lower (d_address data))
                            then []
                            else [data_row (next_rowid (db st)) data])).
  { unfold insert_or_ignore. cbn [address data_row].
    destruct (address_taken (db st) (Py.lower (d_address data))); [now rewrite app_nil_r|].
    reflexivity. }
  split; [|split; [|split; [|exact Hdb]]].
  - intros a Ha. rewrite already_seen_run. cbn [db]. rewrite Ha.
    pose proof (insert_or_ignore_taken (db st) (data_row (next_rowid (db st)) data)) as Ht.
    cbn [address data_row] in Ht. now rewrite Ht.
  - intros b Hb. rewrite !already_seen_run. cbn [snd db]. f_equal.
    rewrite Hdb, address_taken_app.
    destruct (address_taken (db st) (Py.lower (d_address data))).
    + simpl. now rewrite orb_false_r.
    + unfold address_taken at 2. cbn [existsb address data_row].
      destruct (String.eqb (Py.lower (d_address data)) (Py.lower b)) eqn:E.
      * apply String.eqb_eq in E. congruence.
      * simpl. now rewrite orb_false_r.
  - unfold count_tokens, bind, get_db, ret. cbn [snd db]. rewrite Hdb, length_app.
    destruct (address_taken (db st) (Py.lower (d_address data))); simpl; f_equal; lia.
Qed.

(** ** The topic *)

Lemma lstrip_chars_length (chars s : string) :
  (String.length (lstrip_chars chars s) <= String.length s)%nat.
Proof.
  induction s as [|c s IH]; simpl; [lia|].
  destruct (existsb (Ascii.eqb c) (list_ascii_of_string chars)); simpl; lia.
Qed.

Lemma lstrip_chars_head (chars s : string) :
  lstrip_chars chars s = s
  <-> match s with
      | String c _ => existsb (Ascii.eqb c) (list_ascii_of_string chars) = false
      | EmptyString => True
      end.
Proof.
  destruct s as [|c r]; simpl; [tauto|].
  destruct (existsb (Ascii.eqb c) (list_ascii_of_string chars)) eqn:E.
  - split; [|discriminate]. intros H.
    pose proof (lstrip_chars_length chars r) as Hl. rewrite H in Hl. simpl in Hl. lia.
  - tauto.
Qed.

Lemma prefix_self (p s : string) : String.prefix p (p +:+ s) = true.
Proof.
  induction p as [|c p IH]; [rewrite str_app_nil_l; now destruct s|].
  rewrite str_app_cons. simpl.
  destruct (ascii_dec c c); [exact IH|congruence].
Qed.

(** X15. The normalisation of the [Transfer] topic at import time always
    gives a text that starts with [0x], leaves a text that already does as
    it is, and is idempotent; both forms the digest may come in, with and
    without the prefix, give the one topic the log query uses. As
    [lstrip("0x")] strips characters and not a prefix, a digest without the
    prefix keeps all its digits exactly when it does not start with a [0]
    or an [x]; otherwise leading digits are lost. *)
Theorem transfer_topic_is_normalised_to_0x :
  (forall sig : string, String.prefix "0x" (normalize_transfer_event_sig sig) = true)
  /\ (forall sig : string,
         String.prefix "0x" sig = true -> normalize_transfer_event_sig sig = sig)
  /\ (forall sig : string,
         normalize_transfer_event_sig (normalize_transfer_event_sig sig)
         = normalize_transfer_event_sig sig)
  /\ normalize_transfer_event_sig
       "ddf252ad1be2c89b69c2b068fc378daa952ba7f163c4a11628f55a4df523b3ef"
     = TRANSFER_EVENT_SIG
  /\ normalize_transfer_event_sig TRANSFER_EVENT_SIG = TRANSFER_EVENT_SIG
  /\ (forall sig : string,
         String.prefix "0x" sig = false ->
         (normalize_transfer_event_sig sig = "0x" +:+ sig
          <-> match sig with
              | String c _ => c <> "0"%char /\ c <> "x"%char
              | EmptyString => True
              end)
         /\ (String.length (normalize_transfer_event_sig sig) <= String.length sig + 2)%nat)
  /\ normalize_transfer_event_sig "00ab" = "0xab".
Proof.
  assert (H1 : forall sig, String.prefix "0x" (normalize_transfer_event_sig sig) = true).
  { intros sig. unfold normalize_transfer_event_sig.
    destruct (String.prefix "0x" sig) eqn:E; [exact E|]. apply prefix_self. }
  assert (H2 : forall sig, String.prefix "0x" sig = true ->
                           normalize_transfer_event_sig sig = sig).
  { intros sig H. unfold normalize_transfer_event_sig. now rewrite H. }
  split; [exact H1|]. split; [exact H2|]. split; [intros sig; apply H2, H1|].
  split; [reflexivity|]. split; [reflexivity|]. split; [|reflexivity].
  intros sig H. unfold normalize_transfer_event_sig. rewrite H. cbn [negb]. split.
  - split.
    + intros Heq. apply (f_equal (sdrop 2)) in Heq. cbn [sdrop] in Heq.
      change (lstrip_chars "0x" sig = sig) in Heq.
      apply lstrip_chars_head in Heq. destruct sig as [|c r]; [exact I|].
      cbn in Heq. apply orb_false_iff in Heq. destruct Heq as [Ha Hb].
      apply orb_false_iff in Hb. destruct Hb as [Hb _].
      apply Ascii.eqb_neq in Ha, Hb. auto.
    + intros Hc. f_equal. apply lstrip_chars_head. destruct sig as [|c r]; [exact I|].
      destruct Hc as [Ha Hb]. cbn. apply Ascii.eqb_neq in Ha, Hb. now rewrite Ha, Hb.
  - pose proof (lstrip_chars_length "0x" sig) as Hl.
    change ("0x" +:+ lstrip_chars "0x" sig)
      with (String "0" (String "x" (lstrip_chars "0x" sig))).
    simpl. lia.
Qed.

(** X16. A transaction that does not lead to a new contract is passed over
    without a probe. When its receipt cannot be fetched the failure is
    logged; when the receipt carries no contract address, under either way
    of reading it, nothing is logged; when the address is already recorded
    the detection and the skip are logged. In all three cases the only
    remote call made is the fetch of the receipt, and the table and the
    files stay as they were. A transaction whose recipient cannot be read is
    handled as one without recipient. *)
Theorem transaction_without_new_contract_is_passed_over :
  forall (W : Type) (w3 : Web3 W) (clock : Clock W) (args : Args)
         (latest target blk : Z) (block : Block) (tx : Tx) (st : St W) (w1 : W),
    (tx_to tx = Ok None \/ exists e, tx_to tx = Raise e) ->
    (forall e : Exn,
        get_transaction_receipt w3 (tx_hash tx) (world st) = (w1, Raise e) ->
        handle_tx w3 clock args latest target blk block tx st
        = (mkSt w1 (db st) (fs st)
                (out st ++ [Print (MNoReceipt (tx_hash tx) (exn_msg e))]),
           Ok Next))
    /\ (forall receipt : Receipt,
           get_transaction_receipt w3 (tx_hash tx) (world st) = (w1, Ok receipt) ->
           Py.truthy (receipt_contract_address receipt) = false ->
           handle_tx w3 clock args latest target blk block tx st
           = (mkSt w1 (db st) (fs st) (out st), Ok Next))
    /\ (forall (receipt : Receipt) (raw a : string),
           get_transaction_receipt w3 (tx_hash tx) (world st) = (w1, Ok receipt) ->
           receipt_contract_address receipt = Some raw ->
           raw <> "" ->
           to_checksum_address w3 raw = Ok a ->
           address_taken (db st) (Py.lower a) = true ->
           handle_tx w3 clock args latest target blk block tx st
           = (mkSt w1 (db st) (fs st)
                   (out st ++ [Print (MDetected a (tx_hash tx) blk); Print MAlready]),
              Ok Next)).
Proof.
  intros W w3 clock args latest target blk block tx st w1 Hto.
  assert (Hnone : match tx_to tx with Ok v => v | Raise _ => None end = None).
  { destruct Hto as [->|[e ->]]; reflexivity. }
  split; [|split].
  - intros e Hr. unfold handle_tx. rewrite Hnone.
    unfold bind, try_except, on_world. rewrite Hr. reflexivity.
  - intros receipt Hr Hf. unfold handle_tx. rewrite Hnone.
    unfold bind at 1, try_except, bind at 1, on_world. rewrite Hr. simpl.
    rewrite Hf. reflexivity.
  - intros receipt raw a Hr Hraw Hne Hck Hseen. unfold handle_tx. rewrite Hnone.
    unfold bind at 1, try_except, bind at 1, on_world. rewrite Hr. simpl.
    rewrite Hraw. destruct raw as [|c raw']; [congruence|]. simpl.
    rewrite Hck. unfold bind at 1, of_exc. unfold bind at 1, print, emit. simpl.
    unfold bind at 1. rewrite already_seen_run. simpl. rewrite Hseen.
    unfold bind, emit, ret. simpl. now rewrite <- app_assoc.
Qed.

(** The third case on the creation of a contract that is already
    recorded. *)
Lemma transaction_without_new_contract_is_passed_over_witness :
  handle_tx Script.token_w3 Script.clock Script.args0 100 98 97
    (mkBlock [Script.creation "0xtx1"] 1700000000) (Script.creation "0xtx1")
    (Script.st0 Script.store1)
  = (mkSt 1%nat Script.store1 ∅
          [Print (MDetected Script.addr1 "0xtx1" 97); Print MAlready],
     Ok Next).
Proof.
  apply (proj2 (proj2 (transaction_without_new_contract_is_passed_over nat Script.token_w3
                         Script.clock Script.args0 100 98 97
                         (mkBlock [Script.creation "0xtx1"] 1700000000)
                         (Script.creation "0xtx1") (Script.st0 Script.store1) 1%nat
                         (or_introl eq_refl)))
           (Script.receipt_of Script.addr1) Script.addr1 Script.addr1).
  - reflexivity.
  - reflexivity.
  - discriminate.
  - reflexivity.
  - vm_compute. reflexivity.
Defined.

(** X17. [safe_contract_call] never raises, whatever the address, the
    function and the endpoint: it answers with the value of the call when
    the address can be check-summed and the call succeeds, and with the text
    of the exception otherwise, whichever kind of exception it is. An
    address that cannot be check-summed costs no remote call; the table, the
    files and the console are never touched. *)
Theorem safe_contract_call_answers_instead_of_raising :
  forall (W : Type) (w3 : Web3 W) (address : string) (f : ErcFn)
         (block_identifier : option Z) (st : St W),
    match to_checksum_address w3 address with
    | Raise e =>
        safe_contract_call w3 address f block_identifier st = (st, Ok (inr (exn_msg e)))
    | Ok a =>
        safe_contract_call w3 address f block_identifier st
        = (mkSt (fst (eth_call w3 f a block_identifier (world st))) (db st) (fs st) (out st),
           Ok match snd (eth_call w3 f a block_identifier (world st)) with
              | Ok v => inl v
              | Raise e => inr (exn_msg e)
              end)
    end.
Proof.
  intros W w3 address f block_identifier st.
  unfold safe_contract_call, try_except, bind, of_exc, on_world.
  destruct (to_checksum_address w3 address) as [a|e].
  - destruct (eth_call w3 f a block_identifier (world st)) as [w1 [v|e]]; simpl.
    + reflexivity.
    + destruct (exn_kind e); reflexivity.
  - destruct (exn_kind e); reflexivity.
Qed.

(** ** Row ids *)

Lemma max_ids_from (n a : nat) :
  fold_right Z.max 0 (map Z.of_nat (seq a (S n))) = Z.of_nat (a + n).
Proof.
  revert a. induction n as [|n IH]; intros a.
  - simpl. lia.
  - change (seq a (S (S n))) with (a :: seq (S a) (S n)).
    cbn [map fold_right]. rewrite IH. lia.
Qed.

Lemma max_ids (n : nat) : fold_right Z.max 0 (map Z.of_nat (seq 1 n)) = Z.of_nat n.
Proof. destruct n as [|n]; [reflexivity|]. rewrite max_ids_from. lia. Qed.

Lemma reachable_ids (t : list Row) :
  reachable t -> map rowid t = map Z.of_nat (seq 1 (length t)).
Proof.
  induction 1 as [|t data Hr IH]; [reflexivity|].
  unfold insert_or_ignore. destruct (address_taken t _); [exact IH|].
  rewrite map_app, length_app, seq_app, map_app, IH. simpl. f_equal. f_equal.
  unfold next_rowid. rewrite IH, max_ids. lia.
Qed.

(** X18. The rows of a table the program can produce carry the ids 1, 2,
    3 and so on in the order they were inserted, an insert that is ignored
    using up no id; the next id is the row count plus one, and the
    exporter's [ORDER BY id] lists the rows in insertion order. *)
Theorem row_ids_count_up_in_insertion_order :
  forall t : list Row,
    reachable t ->
    map rowid t = map Z.of_nat (seq 1 (length t))
    /\ next_rowid t = Z.of_nat (length t) + 1
    /\ select_export_rows t = map row_cells t.
Proof.
  intros t Hr. pose proof (reachable_ids t Hr) as Hids. split; [exact Hids|]. split.
  - unfold next_rowid. rewrite Hids, max_ids. lia.
  - unfold select_export_rows. rewrite order_by_id_sorted; [reflexivity|].
    now apply reachable_ok.
Qed.

(** The statement on the table holding one saved record. *)
Lemma row_ids_count_up_in_insertion_order_witness :
  map rowid Script.store1 = map Z.of_nat (seq 1 (length Script.store1))
  /\ next_rowid Script.store1 = Z.of_nat (length Script.store1) + 1
  /\ select_export_rows Script.store1 = map row_cells Script.store1.
Proof.
  apply (row_ids_count_up_in_insertion_order Script.store1).
  exact (reach_save init_db Script.token_eth reach_init).
Defined.

